(** * The I/O expander skeleton driver (drivers/ioexpander/skeleton.c)

    A shallow embedding of the driver: the device structure [skel_dev_s],
    the exclusive-access semaphore, the pin control operations, the callback
    table filled by [skel_attach], and the interrupt top half
    [skel_interrupt] with its bottom half [skel_irqworker].

    The driver talks to its collaborators: the semaphore, the bus that
    carries register reads and writes, the interrupt controller, the work
    queue and the callbacks of its clients.  Calls to them are recorded in a
    trace of events, and what they answer is read from scripts kept in the
    [world], so that every operation is an executable function from worlds
    to worlds. *)

From stdpp Require Import functions.
From Stdlib Require Import ZArith List Bool Lia.
From stdpp Require Import base list.
Import ListNotations.

#[local] Open Scope Z_scope.

(** ** Constants of the headers the driver includes *)

(** The error numbers of include/errno.h.  Nothing below depends on their
    values beyond their being positive and different from each other. *)
Module Errno.
Definition OK : Z := 0.
Definition EINTR : Z := 4.
Definition ENXIO : Z := 6.
Definition ENOSPC : Z := 28.
Definition ENOSYS : Z := 38.
End Errno.
Import Errno.

(** The directions and options of include/nuttx/ioexpander/ioexpander.h. *)
Definition IOEXPANDER_DIRECTION_IN : Z := 0.
Definition IOEXPANDER_DIRECTION_OUT : Z := 1.
Definition IOEXPANDER_OPTION_INVERT : Z := 1.

(** A function pointer is its address; [NULL] is the null pointer. *)
Definition ioe_callback_t : Type := Z.
Definition NULL : Z := 0.

(** [ioe_pinset_t]: a bit mask, bit [i] stands for pin [i]. *)
Definition ioe_pinset_t : Type := Z.

(** Modelled from the spec: the width of [ioe_pinset_t], whose declaration
    is in include/nuttx/ioexpander/ioexpander.h.  The spec has it as an
    unsigned integer wide enough to address the pin count; of the unsigned
    types of 8, 16, 32 and 64 bits it is the narrowest that is. *)
Definition pinset_bits (npins : Z) : Z :=
  if npins <=? 8 then 8
  else if npins <=? 16 then 16
  else if npins <=? 32 then 32
  else 64.

(** The conversion of a value to a pinset of [bits] bits. *)
Definition to_pinset (bits : Z) (x : Z) : ioe_pinset_t := x mod 2 ^ bits.

(** ** Private types *)

(** [struct skel_callback_s]: one registered pin interrupt callback. *)
Record skel_callback_s : Type := Build_skel_callback_s {
  pinset : ioe_pinset_t;   (* pin interrupts that generate the callback *)
  cbfunc : ioe_callback_t  (* saved callback function pointer *)
}.

(** The functions the driver hands to the work queue. *)
Inductive worker_t : Type :=
| skel_irqworker_fn.

(** Modelled from the spec: [struct work_s] of the kernel work queue, which is
    not part of the driver.  The spec calls it the at-most-one-outstanding
    marker: [worker] is the queued function, [None] (a null pointer) when
    nothing is queued. *)
Record work_s : Type := Build_work_s {
  worker : option worker_t
}.

(** [struct skel_dev_s]: the state of the driver. *)
Record skel_dev_s : Type := Build_skel_dev_s {
  exclsem : Z;                   (* semaphore count: mutual exclusion *)
  work : work_s;                 (* supports the bottom half *)
  cb : list skel_callback_s      (* cb[CONFIG_skeleton_INT_NCALLBACKS] *)
}.

(** ** The world around the driver *)

(** What the driver does to its collaborators, in program order. *)
Inductive event : Type :=
| EvLock                                        (* sem_wait returned 0 *)
| EvUnlock                                      (* sem_post *)
| EvBusRead                                     (* a register read on the bus *)
| EvBusWrite (v : Z)                            (* a register write on the bus *)
| EvCallback (f : ioe_callback_t) (m : ioe_pinset_t)  (* f(&priv->dev, m) *)
| EvIrqDisable                                  (* interrupt source masked *)
| EvIrqEnable                                   (* interrupt source unmasked *)
| EvWorkQueue (f : worker_t).                        (* work_queue(HPWORK, ..) *)

(** The answer of the bus to one transaction: a status and, for a read, the
    register contents. *)
Record bus_reply : Type := Build_bus_reply {
  rc : Z;
  data : Z
}.

Record world : Type := Build_world {
  g_skel : skel_dev_s;           (* the one-and-only driver instance *)
  errno : Z;
  hpwork : list worker_t;           (* the high priority work queue *)
  irq_enabled : bool;            (* state of the interrupt source *)
  sem_env : list (option Z);     (* coming sem_wait calls: Some e fails with
                                    errno e, None succeeds *)
  bus_env : list bus_reply;      (* coming bus transactions *)
  trace : list event
}.

Definition set_dev (d : skel_dev_s) (w : world) : world :=
  Build_world d (errno w) (hpwork w) (irq_enabled w) (sem_env w) (bus_env w)
    (trace w).
Definition set_errno (e : Z) (w : world) : world :=
  Build_world (g_skel w) e (hpwork w) (irq_enabled w) (sem_env w) (bus_env w)
    (trace w).
Definition set_hpwork (q : list worker_t) (w : world) : world :=
  Build_world (g_skel w) (errno w) q (irq_enabled w) (sem_env w) (bus_env w)
    (trace w).
Definition set_irq (b : bool) (w : world) : world :=
  Build_world (g_skel w) (errno w) (hpwork w) b (sem_env w) (bus_env w)
    (trace w).
Definition set_sem_env (s : list (option Z)) (w : world) : world :=
  Build_world (g_skel w) (errno w) (hpwork w) (irq_enabled w) s (bus_env w)
    (trace w).
Definition set_bus_env (b : list bus_reply) (w : world) : world :=
  Build_world (g_skel w) (errno w) (hpwork w) (irq_enabled w) (sem_env w) b
    (trace w).
Definition emit (e : event) (w : world) : world :=
  Build_world (g_skel w) (errno w) (hpwork w) (irq_enabled w) (sem_env w)
    (bus_env w) (trace w ++ [e]).

Definition set_exclsem (n : Z) (d : skel_dev_s) : skel_dev_s :=
  Build_skel_dev_s n (work d) (cb d).
Definition set_work (k : work_s) (d : skel_dev_s) : skel_dev_s :=
  Build_skel_dev_s (exclsem d) k (cb d).
Definition set_cb (t : list skel_callback_s) (d : skel_dev_s) : skel_dev_s :=
  Build_skel_dev_s (exclsem d) (work d) t.

(** ** The monad of driver code *)

(** A call returns, dies on a failed assertion, or never comes back from a
    wait on the semaphore. *)
Inductive outcome (A : Type) : Type :=
| Ret (a : A)
| AssertFailed
| Blocked.
Arguments Ret {A} a.
Arguments AssertFailed {A}.
Arguments Blocked {A}.

Definition M (A : Type) : Type := world -> outcome A * world.

Definition ret {A} (a : A) : M A := fun w => (Ret a, w).

Definition bind {A B} (c : M A) (k : A -> M B) : M B :=
  fun w =>
    match c w with
    | (Ret a, w') => k a w'
    | (AssertFailed, w') => (AssertFailed, w')
    | (Blocked, w') => (Blocked, w')
    end.

Declare Scope skel_scope.
Delimit Scope skel_scope with skel.
Notation "x <- c ;; k" := (bind c (fun x => k))
  (at level 100, c at next level, right associativity) : skel_scope.
Notation "c ;; k" := (bind c (fun _ => k))
  (at level 100, right associativity) : skel_scope.
#[local] Open Scope skel_scope.

Definition modify (f : world -> world) : M unit := fun w => (Ret tt, f w).
Definition gets {A} (f : world -> A) : M A := fun w => (Ret (f w), w).

(** Modelled from the spec: the [DEBUGASSERT] macro of assert.h.  The spec
    treats a violated invariant as fatal: the call does not return. *)
Definition DEBUGASSERT (c : bool) : M unit :=
  fun w => if c then (Ret tt, w) else (AssertFailed, w).

(** ** The semaphore *)

(** Modelled from the spec: [sem_wait] of the kernel.  A wait that the
    environment interrupts fails with -1 and sets [errno]; otherwise the
    caller obtains the semaphore when its count is positive, and waits for
    ever when it is not (no other thread of the model would post it). *)
Definition sem_wait : M Z :=
  fun w =>
    match sem_env w with
    | Some e :: rest => (Ret (-1), set_errno e (set_sem_env rest w))
    | rest =>
        let w1 := set_sem_env (tail rest) w in
        if 0 <? exclsem (g_skel w1)
        then (Ret 0,
              emit EvLock
                (set_dev (set_exclsem (exclsem (g_skel w1) - 1) (g_skel w1)) w1))
        else (Blocked, w1)
    end.

(** Modelled from the spec: [sem_post] always succeeds and does not block. *)
Definition sem_post : M Z :=
  fun w =>
    (Ret 0,
     emit EvUnlock (set_dev (set_exclsem (exclsem (g_skel w) + 1) (g_skel w)) w)).

(** [skel_lock]: the [while (sem_wait(..) < 0)] loop.  Every turn of the loop
    uses up one entry of the script of interrupted waits, so one turn more
    than the script is long is enough and the last branch is never taken. *)
Fixpoint skel_lock_loop (fuel : nat) : M unit :=
  match fuel with
  | O => fun w => (Blocked, w)
  | S fuel' =>
      r <- sem_wait ;;
      if r <? 0
      then (e <- gets errno ;;
            (* EINTR is the only expected error from sem_wait() *)
            DEBUGASSERT (e =? EINTR) ;;
            skel_lock_loop fuel')
      else ret tt
  end.

Definition skel_lock : M unit :=
  fun w => skel_lock_loop (S (length (sem_env w))) w.

Definition skel_unlock : M Z := sem_post.

(** ** The bus *)

(** The next answer of the bus; a bus that was given no script answers [OK]
    with all pins low. *)
Definition next_reply (w : world) : bus_reply :=
  match bus_env w with
  | r :: _ => r
  | [] => Build_bus_reply OK 0
  end.

(** One register read: status and register contents. *)
Definition bus_read : M (Z * Z) :=
  fun w =>
    let r := next_reply w in
    (Ret (rc r, data r), emit EvBusRead (set_bus_env (tail (bus_env w)) w)).

(** One register write: status. *)
Definition bus_write (v : Z) : M Z :=
  fun w =>
    let r := next_reply w in
    (Ret (rc r), emit (EvBusWrite v) (set_bus_env (tail (bus_env w)) w)).

(** ** Pin sets *)

(** An [int] has 32 bits; [to_int] is the number that a pattern of 32 bits
    stands for in two's complement. *)
Definition to_int (x : Z) : Z := (x + 2 ^ 31) mod 2 ^ 32 - 2 ^ 31.

(** [1 << pin].  Both operands are [int], so the shift is made in [int]
    whatever the width of the pinset: below 31 the result is the bit of the
    pin, at 31 it is the sign bit, the negative number [INT_MIN], as the
    compilers for two's complement machines give it.  From 32 on C gives the
    shift no meaning; here the bit is lost, and every statement below about
    the value of a pinset is about pin counts up to 32, where no such pin is
    in range, or about pins up to 31. *)
Definition int_shl1 (pin : Z) : Z := to_int (Z.shiftl 1 pin).

(** [(pinset & (1 << pin)) != 0].  The source line reads
    [((pinset & (1 << pin) != 0);] with one closing parenthesis missing and
    does not compile as it is; the test of bit [pin] is the reading that the
    comment above it asks for, the other way to balance it would test bit 0
    for every pin.  A pinset is not negative, so its conjunction with the
    [int] is the same number in every width of the pinset: with [INT_MIN]
    it is the bits from 31 up. *)
Definition skel_pinbit (ps : ioe_pinset_t) (pin : Z) : bool :=
  negb (Z.land ps (int_shl1 pin) =? 0).

(** [pinset |= (1 << pin)] and [pinset &= ~(1 << pin)] on a pinset of
    [bits] bits: the operation is made with the [int], sign and all, and the
    result is converted to the type of the pinset.  In a pinset of 64 bits
    the change of pin 31 reaches the bits 31 to 63. *)
Definition pinset_set (bits : Z) (ps : ioe_pinset_t) (pin : Z) : ioe_pinset_t :=
  to_pinset bits (Z.lor ps (int_shl1 pin)).
Definition pinset_clear (bits : Z) (ps : ioe_pinset_t) (pin : Z)
    : ioe_pinset_t :=
  to_pinset bits (Z.land ps (Z.lnot (int_shl1 pin))).

(** ** The work queue *)

(** Modelled from the spec: the query of the deferred work scheduler, is an
    item for this slot already pending.  [work_available] holds when nothing
    is queued. *)
Definition work_available (k : work_s) : bool :=
  match worker k with
  | None => true
  | Some _ => false
  end.

(** Modelled from the spec: [schedule(fn, context)] of the deferred work
    scheduler.  The work structure is marked with the function and put on
    the queue. *)
Definition work_queue (f : worker_t) : M Z :=
  fun w =>
    (Ret OK,
     emit (EvWorkQueue f)
       (set_hpwork (hpwork w ++ [f])
          (set_dev (set_work (Build_work_s (Some f)) (g_skel w)) w))).

Section Skeleton.

(** Configuration: the number of pins of the expander and the size of the
    callback table. *)
Variable CONFIG_IOEXPANDER_NPINS : Z.
Variable CONFIG_skeleton_INT_NCALLBACKS : nat.

(** ** Register accesses the skeleton leaves open

    Each [#warning Missing logic] of the source stands for the bus
    transaction that the comment above it names. *)

(** Modelled from the spec: the missing logic of the single pin setters (set
    the pin direction, set the pin option, write the pin value): one
    delegated bus transaction whose status is the return value. *)
Definition skel_setreg (pin : Z) (v : Z) : M Z := bus_write v.

(** Modelled from the spec: the missing logic of the single pin getters (read
    the pin value, read the buffered pin level): one delegated bus
    transaction; the level of the pin is stored through [value]. *)
Definition skel_getreg (pin : Z) : M (Z * bool) :=
  r <- bus_read ;;
  ret (fst r, skel_pinbit (snd r) pin).

(** Modelled from the spec: the missing logic that reads the pinset from the
    IO-Expander hardware: one bus read that leaves its status in [ret] and
    the register contents in [pinset], also when the status is an error. *)
Definition skel_readpinset : M (Z * ioe_pinset_t) := bus_read.

(** Modelled from the spec: the missing logic that writes back the new pin
    states: one bus write of the merged pinset, whose status is [ret]. *)
Definition skel_writepinset (ps : ioe_pinset_t) : M Z := bus_write ps.

(** ** Pin control operations *)

(** [skel_direction]: set the direction of a pin.  The assertion names
    [IOEXPANDER_DIRECTION_IN] twice, as the source does. *)
Definition skel_direction (pin direction : Z) : M Z :=
  DEBUGASSERT ((pin <? CONFIG_IOEXPANDER_NPINS) &&
               ((direction =? IOEXPANDER_DIRECTION_IN) ||
                (direction =? IOEXPANDER_DIRECTION_IN))) ;;
  skel_lock ;;
  r <- skel_setreg pin direction ;;
  skel_unlock ;;
  ret r.

(** [skel_option]: set a pin option.  [ret] starts as [-ENOSYS]. *)
Definition skel_option (pin opt val : Z) : M Z :=
  DEBUGASSERT true ;;                       (* priv != NULL *)
  if opt =? IOEXPANDER_OPTION_INVERT
  then (skel_lock ;;
        r <- skel_setreg pin val ;;
        skel_unlock ;;
        ret r)
  else ret (- ENOSYS).

(** [skel_writepin]: set the level of a pin. *)
Definition skel_writepin (pin : Z) (value : bool) : M Z :=
  DEBUGASSERT (pin <? CONFIG_IOEXPANDER_NPINS) ;;
  skel_lock ;;
  r <- skel_setreg pin (Z.b2z value) ;;
  skel_unlock ;;
  ret r.

(** [skel_readpin]: read the actual level of a pin.  The result carries the
    return value and what was stored through [value]. *)
Definition skel_readpin (pin : Z) : M (Z * bool) :=
  DEBUGASSERT (pin <? CONFIG_IOEXPANDER_NPINS) ;;
  skel_lock ;;
  r <- skel_getreg pin ;;
  skel_unlock ;;
  ret r.

(** [skel_readbuf]: read the buffered level of a pin.  The source checks
    nothing before it takes the lock. *)
Definition skel_readbuf (pin : Z) : M (Z * bool) :=
  skel_lock ;;
  r <- skel_getreg pin ;;
  skel_unlock ;;
  ret r.

(** The loop of [skel_getmultibits] over [pins[i]], [i < count]; [pins] holds
    the entries that are still to come, [values] is the caller's buffer. *)
Fixpoint skel_getmultibits_loop (ps : ioe_pinset_t) (pins : list Z) (i : nat)
    (values : list bool) : Z * list bool :=
  match pins with
  | [] => (OK, values)
  | pin :: pins' =>
      if CONFIG_IOEXPANDER_NPINS <=? pin
      then (- ENXIO, values)
      else skel_getmultibits_loop ps pins' (S i)
             (<[i := skel_pinbit ps pin]> values)
  end.

(** [skel_getmultibits]: read multiple bits.  [pins] is the array of [count]
    pin numbers. *)
Definition skel_getmultibits (pins : list Z) (values : list bool)
    : M (Z * list bool) :=
  r <- skel_readpinset ;;
  ret (skel_getmultibits_loop (snd r) pins 0 values).

(** The loop of [skel_multiwritepin]: [None] is the early exit on a pin that
    is out of range, [Some] the pinset after all changes.  A [values] array
    shorter than [pins] reads as [false]. *)
Fixpoint skel_multiwritepin_loop (pins : list Z) (i : nat) (values : list bool)
    (ps : ioe_pinset_t) : option ioe_pinset_t :=
  match pins with
  | [] => Some ps
  | pin :: pins' =>
      if CONFIG_IOEXPANDER_NPINS <=? pin
      then None
      else skel_multiwritepin_loop pins' (S i) values
             (if default false (values !! i)
              then pinset_set (pinset_bits CONFIG_IOEXPANDER_NPINS) ps pin
              else pinset_clear (pinset_bits CONFIG_IOEXPANDER_NPINS) ps pin)
  end.

(** [skel_multiwritepin]: set the level of multiple pins. *)
Definition skel_multiwritepin (pins : list Z) (values : list bool) : M Z :=
  skel_lock ;;
  r <- skel_readpinset ;;
  match skel_multiwritepin_loop pins 0 values (snd r) with
  | None =>
      skel_unlock ;;
      ret (- ENXIO)
  | Some ps =>
      r' <- skel_writepinset ps ;;
      skel_unlock ;;
      ret r'
  end.

(** [skel_multireadpin]: read the actual level of multiple pins. *)
Definition skel_multireadpin (pins : list Z) (values : list bool)
    : M (Z * list bool) :=
  DEBUGASSERT (0 <? Z.of_nat (length pins)) ;;   (* count > 0 *)
  skel_lock ;;
  r <- skel_getmultibits pins values ;;
  skel_unlock ;;
  ret r.

(** [skel_multireadbuf]: read the buffered level of multiple pins. *)
Definition skel_multireadbuf (pins : list Z) (values : list bool)
    : M (Z * list bool) :=
  DEBUGASSERT (0 <? Z.of_nat (length pins)) ;;   (* count > 0 *)
  skel_lock ;;
  r <- skel_getmultibits pins values ;;
  skel_unlock ;;
  ret r.

(** ** The callback table *)

(** The loop of [skel_attach] over [i < CONFIG_skeleton_INT_NCALLBACKS]:
    [n] turns are left, [i] is the index.  There is no [break] in the
    source: the loop goes on after it has used an entry. *)
Fixpoint skel_attach_loop (n i : nat) (ps : ioe_pinset_t)
    (callback : ioe_callback_t) (t : list skel_callback_s) (r : Z)
    : list skel_callback_s * Z :=
  match n with
  | O => (t, r)
  | S n' =>
      match t !! i with
      | Some e =>
          (* Is this entry available (i.e., no callback attached) *)
          if cbfunc e =? NULL
          then skel_attach_loop n' (S i) ps callback
                 (<[i := Build_skel_callback_s ps callback]> t) OK
          else skel_attach_loop n' (S i) ps callback t r
      | None => skel_attach_loop n' (S i) ps callback t r
      end
  end.

(** [skel_attach]: attach a pin interrupt callback function. *)
Definition skel_attach (ps : ioe_pinset_t) (callback : ioe_callback_t) : M Z :=
  skel_lock ;;
  t <- gets (fun w => cb (g_skel w)) ;;
  let '(t', r) :=
    skel_attach_loop CONFIG_skeleton_INT_NCALLBACKS 0 ps callback t (- ENOSPC) in
  modify (fun w => set_dev (set_cb t' (g_skel w)) w) ;;
  skel_unlock ;;
  ret r.

(** ** Interrupt handling *)

(** The loop of [skel_irqworker] over the callback table; a callback is
    client code, its call is an event of the trace. *)
Fixpoint skel_irqworker_loop (n i : nat) (ps : ioe_pinset_t) : M unit :=
  match n with
  | O => ret tt
  | S n' =>
      t <- gets (fun w => cb (g_skel w)) ;;
      match t !! i with
      | Some e =>
          (if negb (cbfunc e =? NULL)
           then
             let m := Z.land ps (pinset e) in
             if negb (m =? 0)
             then modify (emit (EvCallback (cbfunc e) m))
             else ret tt
           else ret tt) ;;
          skel_irqworker_loop n' (S i) ps
      | None => skel_irqworker_loop n' (S i) ps
      end
  end.

(** Modelled from the spec: the missing logic that asks the interrupt
    controller to enable or disable the source of the expander. *)
Definition skel_irq_enable (on : bool) : M unit :=
  modify (fun w => emit (if on then EvIrqEnable else EvIrqDisable) (set_irq on w)).

(** [skel_irqworker]: the bottom half, run by the worker thread.  The read
    of the pinset leaves its status in [ret], which the source does not look
    at: the loop over the callbacks follows the read whatever it answered,
    with the pinset that the read left. *)
Definition skel_irqworker : M unit :=
  r <- skel_readpinset ;;
  skel_irqworker_loop CONFIG_skeleton_INT_NCALLBACKS 0 (snd r) ;;
  skel_irq_enable true.

(** [skel_interrupt]: the top half, run in the interrupt. *)
Definition skel_interrupt : M Z :=
  k <- gets (fun w => work (g_skel w)) ;;
  if work_available k
  then (skel_irq_enable false ;;
        work_queue skel_irqworker_fn ;;
        ret OK)
  else ret OK.

(** Modelled from the spec: the worker context.  It takes the oldest item
    off the queue, marks the work structure available again and runs the
    function to completion. *)
Definition work_process : M unit :=
  q <- gets hpwork ;;
  match q with
  | [] => ret tt
  | skel_irqworker_fn :: q' =>
      modify (fun w =>
        set_hpwork q' (set_dev (set_work (Build_work_s None) (g_skel w)) w)) ;;
      skel_irqworker
  end.

(** ** Initialisation *)

(** The statically allocated [g_skel] before [skel_initialize]: all zero. *)
Definition g_skel_zero : skel_dev_s :=
  Build_skel_dev_s 0 (Build_work_s None)
    (replicate CONFIG_skeleton_INT_NCALLBACKS (Build_skel_callback_s 0 NULL)).

Definition world_zero : world :=
  Build_world g_skel_zero 0 [] false [] [] [].

(** [skel_initialize]: the interrupt is attached and enabled, the semaphore
    starts at 1. *)
Definition skel_initialize : M unit :=
  skel_irq_enable true ;;
  modify (fun w => set_dev (set_exclsem 1 (g_skel w)) w).

(** ** The driver as a machine *)

(** A pin control call, with the pin indices the caller supplies. *)
Inductive pin_op : Type :=
| PDirection (pin direction : Z)
| POption (pin opt val : Z)
| PWritepin (pin : Z) (value : bool)
| PReadpin (pin : Z)
| PReadbuf (pin : Z)
| PMultiwritepin (pins : list Z) (values : list bool)
| PMultireadpin (pins : list Z) (values : list bool)
| PMultireadbuf (pins : list Z) (values : list bool).

Definition pins_of (o : pin_op) : list Z :=
  match o with
  | PDirection pin _ | POption pin _ _ | PWritepin pin _
  | PReadpin pin | PReadbuf pin => [pin]
  | PMultiwritepin pins _ | PMultireadpin pins _ | PMultireadbuf pins _ => pins
  end.

(** The call with its integer return value. *)
Definition pin_call (o : pin_op) : M Z :=
  match o with
  | PDirection pin direction => skel_direction pin direction
  | POption pin opt val => skel_option pin opt val
  | PWritepin pin value => skel_writepin pin value
  | PReadpin pin => (r <- skel_readpin pin ;; ret (fst r))
  | PReadbuf pin => (r <- skel_readbuf pin ;; ret (fst r))
  | PMultiwritepin pins values => skel_multiwritepin pins values
  | PMultireadpin pins values =>
      (r <- skel_multireadpin pins values ;; ret (fst r))
  | PMultireadbuf pins values =>
      (r <- skel_multireadbuf pins values ;; ret (fst r))
  end.

(** What can happen to the driver: a client calls a pin control operation
    or attaches a callback, the interrupt fires, the worker thread runs. *)
Inductive op : Type :=
| OpPin (o : pin_op)
| OpAttach (ps : ioe_pinset_t) (callback : ioe_callback_t)
| OpInterrupt
| OpWorker.

Definition forget {A} (c : M A) : M unit := c ;; ret tt.

Definition exec (o : op) : M unit :=
  match o with
  | OpPin o => forget (pin_call o)
  | OpAttach ps callback => forget (skel_attach ps callback)
  | OpInterrupt => forget skel_interrupt
  | OpWorker => work_process
  end.

(** The world after a call, whatever its outcome. *)
Definition after {A} (c : M A) (w : world) : world := snd (c w).
Definition result {A} (c : M A) (w : world) : outcome A := fst (c w).

(** A run of the machine: each step starts where the one before it left
    the world. *)
Definition run (os : list op) (w : world) : world :=
  fold_left (fun w o => after (exec o) w) os w.

End Skeleton.

(** ** Statements in the words of the specification *)

(** The call answers with the out-of-range error and has touched nothing:
    no event at all, so neither the lock nor the bus. *)
Definition rejected_untouched (NPINS : Z) (o : pin_op) (w : world) : Prop :=
  result (pin_call NPINS o) w = Ret (- ENXIO) /\
  trace (after (pin_call NPINS o) w) = trace w.

(** The lock can be had: [skel_lock] returns. *)
Definition lockable (w : world) : Prop := result skel_lock w = Ret tt.

(** The requested per-pin changes applied to a pinset, one after the other:
    set the bit of the pin for [true], clear it for [false]. *)
Definition apply_changes (ps : ioe_pinset_t) (changes : list (Z * bool))
    : ioe_pinset_t :=
  fold_left (fun acc (c : Z * bool) => if snd c then Z.setbit acc (fst c)
                          else Z.clearbit acc (fst c)) changes ps.

(** The level that a batch of changes asks for on bit [b], if any: the last
    request for that pin wins. *)
Definition requested (changes : list (Z * bool)) (b : Z) : option bool :=
  fold_left (fun acc (c : Z * bool) => if fst c =? b then Some (snd c) else acc)
    changes None.

(** An entry is occupied when its handler is not null. *)
Definition occupied (e : skel_callback_s) : Prop := cbfunc e <> NULL.

(** An entry is interested in the event pinset [E] when it is occupied and
    its interest meets [E]. *)
Definition interested (E : ioe_pinset_t) (e : skel_callback_s) : bool :=
  negb (cbfunc e =? NULL) && negb (Z.land E (pinset e) =? 0).

(** The call of the handler of an entry with the intersection. *)
Definition callback_of (E : ioe_pinset_t) (e : skel_callback_s) : event :=
  EvCallback (cbfunc e) (Z.land E (pinset e)).

(** The callbacks an event pinset [E] calls for, in the order of the table:
    the interested entries, each with the intersection. *)
Definition matching (E : ioe_pinset_t) (t : list skel_callback_s) : list event :=
  map (callback_of E) (List.filter (interested E) t).

(** What [skel_attach] does to one entry of the table. *)
Definition fill (ps : ioe_pinset_t) (callback : ioe_callback_t)
    (e : skel_callback_s) : skel_callback_s :=
  if cbfunc e =? NULL then Build_skel_callback_s ps callback else e.

Definition is_lock (e : event) : bool :=
  match e with EvLock => true | _ => false end.
Definition is_unlock (e : event) : bool :=
  match e with EvUnlock => true | _ => false end.
Definition is_bus (e : event) : bool :=
  match e with EvBusRead | EvBusWrite _ => true | _ => false end.

(** At most one bottom half is pending, and the marker of the work
    structure says so. *)
Definition one_pending (w : world) : Prop :=
  (worker (work (g_skel w)) = None /\ hpwork w = []) \/
  (worker (work (g_skel w)) = Some skel_irqworker_fn /\
   hpwork w = [skel_irqworker_fn]).

(** The world with the lock taken. *)
Definition locked (e : Z) (s : list (option Z)) (w : world) : world :=
  emit EvLock
    (set_dev (set_exclsem (exclsem (g_skel w) - 1) (g_skel w))
       (set_errno e (set_sem_env s w))).

(** The world after waits that did not give the lock. *)
Definition waited (e : Z) (s : list (option Z)) (w : world) : world :=
  set_errno e (set_sem_env s w).

(** The world with more events on its trace. *)
Definition emit_all (l : list event) (w : world) : world :=
  Build_world (g_skel w) (errno w) (hpwork w) (irq_enabled w) (sem_env w)
    (bus_env w) (trace w ++ l).

(** A piece of driver code keeps a relation between the world before and the
    world after, whatever its outcome. *)
Definition keeps (R : world -> world -> Prop) {A} (c : M A) : Prop :=
  forall w, R w (after c w).

(** Every occupied entry of the table is still there, unchanged. *)
Definition cb_kept (w w' : world) : Prop :=
  forall i e, cb (g_skel w) !! i = Some e -> occupied e ->
              cb (g_skel w') !! i = Some e.

(** The work structure and the work queue are as they were. *)
Definition work_kept (w w' : world) : Prop :=
  work (g_skel w') = work (g_skel w) /\ hpwork w' = hpwork w.

(** The semaphore count together with the locks and unlocks of the trace:
    every [EvLock] takes one from the count, every [EvUnlock] gives it
    back. *)
Definition balance (w : world) : Z :=
  exclsem (g_skel w) + Z.of_nat (length (List.filter is_lock (trace w)))
  - Z.of_nat (length (List.filter is_unlock (trace w))).

Definition balance_kept (w w' : world) : Prop := balance w' = balance w.

(** The operations that look at the range of their pin indices.
    [skel_option] and [skel_readbuf] do not. *)
Definition checks_range (o : pin_op) : bool :=
  match o with
  | POption _ _ _ | PReadbuf _ => false
  | _ => true
  end.

(** What an operation that checks the range does with a pin index that is
    out of range. *)
Definition out_of_range_behaviour (NPINS : Z) (o : pin_op) (w : world) : Prop :=
  match o with
  | PDirection _ _ | PWritepin _ _ | PReadpin _ =>
      (* the assertion fails before anything is touched *)
      pin_call NPINS o w = (AssertFailed, w)
  | PMultiwritepin _ _ | PMultireadpin _ _ | PMultireadbuf _ _ =>
      (* the lock is taken, the pinset is read, the error is returned with
         the lock released and nothing written *)
      result (pin_call NPINS o) w = Ret (- ENXIO) /\
      trace (after (pin_call NPINS o) w) =
        trace w ++ [EvLock; EvBusRead; EvUnlock] /\
      exclsem (g_skel (after (pin_call NPINS o) w)) = exclsem (g_skel w)
  | POption _ _ _ | PReadbuf _ => False
  end.

(** The world after a bus transaction and after the release of the lock. *)
Definition bus_done (e : event) (w : world) : world :=
  emit e (set_bus_env (tail (bus_env w)) w).
Definition unlocked (w : world) : world :=
  emit EvUnlock (set_dev (set_exclsem (exclsem (g_skel w) + 1) (g_skel w)) w).

(** The semaphore count is what it was. *)
Definition sem_kept (w w' : world) : Prop :=
  exclsem (g_skel w') = exclsem (g_skel w).

(** The number of events of a kind that a call has added to the trace. *)
Definition added (kind : event -> bool) (w w' : world) : Z :=
  Z.of_nat (length (List.filter kind (trace w'))) -
  Z.of_nat (length (List.filter kind (trace w))).

(** The world after [skel_initialize], for a table of [N] callbacks. *)
Definition skel_boot (N : nat) : world := after skel_initialize (world_zero N).

(** ** A scenario

    Eight pins, a table of two callbacks: [cbA] is interested in pins 0 and
    1, [cbB] in pins 2 and 3; the expander reports the pinset [0b10001],
    pins 0 and 4. *)
Definition cbA : ioe_callback_t := 4096.
Definition cbB : ioe_callback_t := 4097.

Definition scenario_table : list skel_callback_s :=
  [Build_skel_callback_s 3 cbA; Build_skel_callback_s 12 cbB].

Definition with_table (t : list skel_callback_s) (w : world) : world :=
  set_dev (set_cb t (g_skel w)) w.

Definition scenario_world : world :=
  set_bus_env [Build_bus_reply OK 17] (with_table scenario_table (skel_boot 2)).


(** ** More about the callback table and the pinset *)

(** The table has an entry without handler. *)
Definition has_free (t : list skel_callback_s) : bool :=
  existsb (fun e => cbfunc e =? NULL) t.

(** A table without free entry is the same table afterwards. *)
Definition table_frozen (w w' : world) : Prop :=
  Forall occupied (cb (g_skel w)) -> cb (g_skel w') = cb (g_skel w).

(** A pinset has no bit at or above the pin count. *)
Definition pinset_in_range (NPINS : Z) (ps : ioe_pinset_t) : Prop :=
  0 <= ps < 2 ^ NPINS.

(** A number is a value of the pinset type for that pin count. *)
Definition pinset_fits (NPINS : Z) (ps : Z) : Prop :=
  0 <= ps < 2 ^ pinset_bits NPINS.


(** * The interrupt controller of the EFM32 (arch/arm/src/efm32/efm32_irq.c)

    The file drives the NVIC through memory mapped registers.  The register
    addresses, the bit masks and the interrupt numbers come from headers
    (nvic.h, the irq.h of the chip) that the file includes; they are the
    parameters of the model, gathered in [Chip]. *)

Class Chip : Type := Build_Chip {
  (* interrupt numbers of the chip *)
  EFM32_IRQ_NMI : Z;
  EFM32_IRQ_MEMFAULT : Z;
  EFM32_IRQ_BUSFAULT : Z;
  EFM32_IRQ_USAGEFAULT : Z;
  EFM32_IRQ_SYSTICK : Z;
  EFM32_IRQ_INTERRUPTS : Z;        (* the first external interrupt *)
  NR_VECTORS : Z;
  NR_IRQS : Z;
  (* registers and bits of the NVIC *)
  NVIC_SYSHCON : Z;
  NVIC_SYSHCON_MEMFAULTENA : Z;
  NVIC_SYSHCON_BUSFAULTENA : Z;
  NVIC_SYSHCON_USGFAULTENA : Z;
  NVIC_SYSTICK_CTRL : Z;
  NVIC_SYSTICK_CTRL_ENABLE : Z;
  NVIC_IRQ_ENABLE : Z -> Z;        (* the macro NVIC_IRQ_ENABLE(n) *)
  NVIC_IRQ0_31_ENABLE : Z;
  NVIC_IRQ0_31_CLEAR : Z;
  NVIC_SYSH_PRIORITY : Z -> Z;     (* the macro NVIC_SYSH_PRIORITY(n) *)
  NVIC_IRQ_PRIORITY : Z -> Z;      (* the macro NVIC_IRQ_PRIORITY(n) *)
  NVIC_SYSH_PRIORITY_MIN : Z;
  NVIC_SYSH_PRIORITY_DEFAULT : Z;
  (* configuration *)
  CONFIG_EFM32_GPIO_IRQ : bool
}.

Definition EINVAL : Z := 22.

(** [uint32_t] and [uintptr_t] arithmetic wraps at 32 bits. *)
Definition wrap32 (x : Z) : Z := x mod 2 ^ 32.

(** The interrupt handlers that [up_irqinitialize] attaches. *)
Inductive handler : Type :=
| up_svcall | up_hardfault | up_memfault
| efm32_nmi | efm32_busfault | efm32_usagefault
| efm32_pendsv | efm32_dbgmonitor | efm32_reserved.

(** What the code does to the hardware and to the rest of the kernel:
    register reads and writes, and the calls into code of other files (the
    GPIO interrupt code, the interrupt table, the processor). *)
Inductive access : Type :=
| RegRead (addr : Z)
| RegWrite (addr val : Z)
| GpioIrqEnable (irq : Z)
| GpioIrqDisable (irq : Z)
| GpioIrqInitialize                      (* efm32_gpioirqinitialize() *)
| IrqAttach (irq : Z) (isr : handler)    (* irq_attach(irq, isr, NULL) *)
| StackColor                             (* up_stack_color(..) *)
| RamvecInitialize                       (* up_ramvec_initialize() *)
| ClearCurrentRegs                       (* CURRENT_REGS = NULL *)
| IrqEnableAll.                          (* up_irq_enable() *)

(** The registers, as a memory, and the accesses made so far. *)
Record nvic : Type := Build_nvic {
  regs : Z -> Z;
  accesses : list access
}.

(** [getreg32(a)] and [putreg32(v, a)]. *)
Definition getreg32 (a : Z) (s : nvic) : Z * nvic :=
  (regs s a, Build_nvic (regs s) (accesses s ++ [RegRead a])).

Definition putreg32 (v a : Z) (s : nvic) : nvic :=
  Build_nvic (<[a := v]> (regs s)) (accesses s ++ [RegWrite a v]).

Definition efm32_gpioirqenable (irq : Z) (s : nvic) : nvic :=
  Build_nvic (regs s) (accesses s ++ [GpioIrqEnable irq]).

Definition efm32_gpioirqdisable (irq : Z) (s : nvic) : nvic :=
  Build_nvic (regs s) (accesses s ++ [GpioIrqDisable irq]).

Section Efm32.
Context `{chip : Chip}.

(** [DEFPRIORITY32]: the default priority in all four bytes of a word. *)
Definition DEFPRIORITY32 : Z :=
  Z.lor (Z.lor (Z.lor (Z.shiftl NVIC_SYSH_PRIORITY_DEFAULT 24)
                      (Z.shiftl NVIC_SYSH_PRIORITY_DEFAULT 16))
               (Z.shiftl NVIC_SYSH_PRIORITY_DEFAULT 8))
        NVIC_SYSH_PRIORITY_DEFAULT.

(** [NVIC_ENA_OFFSET] and [NVIC_CLRENA_OFFSET]: from the address of an
    ENABLE register to itself and to the matching CLEAR ENABLE register. *)
Definition NVIC_ENA_OFFSET : Z := 0.
Definition NVIC_CLRENA_OFFSET : Z := NVIC_IRQ0_31_CLEAR - NVIC_IRQ0_31_ENABLE.

(** [efm32_irqinfo]: the register and the bit that enable or disable an
    interrupt.  [regaddr] and [bit] are what the variables of the caller
    hold at the call; the result is the return value with what they hold at
    the return. *)
Definition efm32_irqinfo (irq : Z) (regaddr bit : Z) (offset : Z)
    : outcome (Z * Z * Z) :=
  if negb ((EFM32_IRQ_NMI <=? irq) && (irq <? NR_IRQS))
  then AssertFailed
  else if EFM32_IRQ_INTERRUPTS <=? irq
  then
    (* an external interrupt or a second level GPIO interrupt *)
    if irq <? NR_VECTORS
    then
      let n := irq - EFM32_IRQ_INTERRUPTS in
      Ret (OK, wrap32 (NVIC_IRQ_ENABLE n + offset),
           wrap32 (Z.shiftl 1 (Z.land n 31)))
    else Ret (- EINVAL, regaddr, bit)
  else
    (* a processor exception; *regaddr is set before the number is looked at *)
    if irq =? EFM32_IRQ_MEMFAULT
    then Ret (OK, NVIC_SYSHCON, NVIC_SYSHCON_MEMFAULTENA)
    else if irq =? EFM32_IRQ_BUSFAULT
    then Ret (OK, NVIC_SYSHCON, NVIC_SYSHCON_BUSFAULTENA)
    else if irq =? EFM32_IRQ_USAGEFAULT
    then Ret (OK, NVIC_SYSHCON, NVIC_SYSHCON_USGFAULTENA)
    else if irq =? EFM32_IRQ_SYSTICK
    then Ret (OK, NVIC_SYSTICK_CTRL, NVIC_SYSTICK_CTRL_ENABLE)
    else Ret (- EINVAL, NVIC_SYSHCON, bit).

(** [up_disable_irq].  [efm32_dumpnvic] is the empty macro it is without
    CONFIG_DEBUG_IRQ_INFO; the locals [regaddr] and [bit] start as 0. *)
Definition up_disable_irq (irq : Z) (s : nvic) : outcome unit * nvic :=
  match efm32_irqinfo irq 0 0 NVIC_CLRENA_OFFSET with
  | Ret (r, regaddr, bit) =>
      if r =? 0
      then
        if EFM32_IRQ_INTERRUPTS <=? irq
        then (Ret tt, putreg32 bit regaddr s)
        else
          let '(regval, s1) := getreg32 regaddr s in
          (Ret tt,
           putreg32 (Z.land regval (wrap32 (Z.lnot bit))) regaddr s1)
      else if CONFIG_EFM32_GPIO_IRQ
      then (Ret tt, efm32_gpioirqdisable irq s)
      else (Ret tt, s)
  | AssertFailed => (AssertFailed, s)
  | Blocked => (Blocked, s)
  end.

(** [up_enable_irq]. *)
Definition up_enable_irq (irq : Z) (s : nvic) : outcome unit * nvic :=
  match efm32_irqinfo irq 0 0 NVIC_ENA_OFFSET with
  | Ret (r, regaddr, bit) =>
      if r =? 0
      then
        if EFM32_IRQ_INTERRUPTS <=? irq
        then (Ret tt, putreg32 bit regaddr s)
        else
          let '(regval, s1) := getreg32 regaddr s in
          (Ret tt, putreg32 (Z.lor regval bit) regaddr s1)
      else if CONFIG_EFM32_GPIO_IRQ
      then (Ret tt, efm32_gpioirqenable irq s)
      else (Ret tt, s)
  | AssertFailed => (AssertFailed, s)
  | Blocked => (Blocked, s)
  end.

(** The byte of a priority register that [up_prioritize_irq] rewrites:
    [regval &= ~(0xff << shift); regval |= (priority << shift)]. *)
Definition set_priority_byte (regval priority shift : Z) : Z :=
  Z.lor (Z.land regval (wrap32 (Z.lnot (Z.shiftl 255 shift))))
        (wrap32 (Z.shiftl priority shift)).

(** [up_prioritize_irq] (CONFIG_ARCH_IRQPRIO).  The second branch reads
    [else (irq < NR_VECTORS)] in the source, an [else if] without its [if].
    The result is the return value. *)
Definition up_prioritize_irq (irq priority : Z) (s : nvic)
    : outcome Z * nvic :=
  if negb ((EFM32_IRQ_MEMFAULT <=? irq) && (irq <? NR_VECTORS) &&
           (wrap32 priority <=? NVIC_SYSH_PRIORITY_MIN))
  then (AssertFailed, s)
  else
    let go (regaddr irq' : Z) :=
      let '(regval, s1) := getreg32 regaddr s in
      let shift := Z.shiftl (Z.land irq' 3) 3 in
      (Ret OK, putreg32 (set_priority_byte regval priority shift) regaddr s1) in
    if irq <? EFM32_IRQ_INTERRUPTS
    then go (NVIC_SYSH_PRIORITY irq) (irq - 4)
    else if irq <? NR_VECTORS
    then go (NVIC_IRQ_PRIORITY (irq - EFM32_IRQ_INTERRUPTS))
            (irq - EFM32_IRQ_INTERRUPTS)
    else (Ret (- EINVAL), s).

End Efm32.

(** What [up_irqinitialize] needs of the headers and of the configuration
    besides [Chip]. *)
Class Boot : Type := Build_Boot {
  NVIC_IRQ_CLEAR : Z -> Z;          (* the macro NVIC_IRQ_CLEAR(n) *)
  NVIC_VECTAB : Z;
  vectors : Z;                      (* the address of _vectors[] *)
  NVIC_SYSH4_7_PRIORITY : Z;
  NVIC_SYSH8_11_PRIORITY : Z;
  NVIC_SYSH12_15_PRIORITY : Z;
  NVIC_ICTR : Z;
  NVIC_IRQ0_3_PRIORITY : Z;
  NVIC_SYSH_PRIORITY_PR11_MASK : Z;
  NVIC_SYSH_PRIORITY_PR11_SHIFT : Z;
  NVIC_SYSH_SVCALL_PRIORITY : Z;
  EFM32_IRQ_HARDFAULT : Z;
  EFM32_IRQ_SVCALL : Z;
  EFM32_IRQ_DBGMONITOR : Z;
  EFM32_IRQ_RESERVED : Z;
  EFM32_IRQ_PENDSV : Z;
  CONFIG_STACK_COLORATION : bool;   (* and CONFIG_ARCH_INTERRUPTSTACK > 3 *)
  CONFIG_ARCH_RAMVECTORS : bool;
  CONFIG_ARMV7M_USEBASEPRI : bool;
  CONFIG_ARM_MPU : bool;
  CONFIG_DEBUG_FEATURES : bool;
  CONFIG_SUPPRESS_INTERRUPTS : bool
}.

Definition log (a : access) (s : nvic) : nvic :=
  Build_nvic (regs s) (accesses s ++ [a]).

Definition when (c : bool) (f : nvic -> nvic) (s : nvic) : nvic :=
  if c then f s else s.

Section Efm32Init.
Context `{chip : Chip} `{boot : Boot}.

(** [efm32_prioritize_syscall] (CONFIG_ARMV7M_USEBASEPRI): the priority of
    system handler 11, the SVCall. *)
Definition efm32_prioritize_syscall (priority : Z) (s : nvic) : nvic :=
  let '(regval, s1) := getreg32 NVIC_SYSH8_11_PRIORITY s in
  let regval1 := Z.land regval (wrap32 (Z.lnot NVIC_SYSH_PRIORITY_PR11_MASK)) in
  let regval2 :=
    Z.lor regval1 (wrap32 (Z.shiftl priority NVIC_SYSH_PRIORITY_PR11_SHIFT)) in
  putreg32 regval2 NVIC_SYSH8_11_PRIORITY s1.

(** The loop [for (i = 0; i < NR_VECTORS - EFM32_IRQ_INTERRUPTS; i += 32)]
    that disables all interrupts; [fuel] bounds the turns. *)
Fixpoint disable_all_loop (fuel : nat) (i : Z) (s : nvic) : nvic :=
  match fuel with
  | O => s
  | S fuel' =>
      if i <? NR_VECTORS - EFM32_IRQ_INTERRUPTS
      then disable_all_loop fuel' (i + 32)
             (putreg32 0xffffffff (NVIC_IRQ_CLEAR i) s)
      else s
  end.

(** The loop [while (num_priority_registers--)] that sets the interrupt
    lines to the default priority, four to a register. *)
Fixpoint default_priority_loop (n : nat) (regaddr : Z) (s : nvic) : nvic :=
  match n with
  | O => s
  | S n' =>
      default_priority_loop n' (wrap32 (regaddr + 4))
        (putreg32 DEFPRIORITY32 regaddr s)
  end.

(** [up_irqinitialize].  Every turn of the first loop adds 32 to [i], so
    [NR_VECTORS - EFM32_IRQ_INTERRUPTS] turns are more than it can take.
    [num_priority_registers] is an [int]; the model is of counts that are
    not negative as an [int], for which the second loop makes that many
    turns.  [efm32_dumpnvic] is the empty macro. *)
Definition up_irqinitialize (s : nvic) : outcome unit * nvic :=
  (* Disable all interrupts *)
  let s := disable_all_loop
             (Z.to_nat (NR_VECTORS - EFM32_IRQ_INTERRUPTS)) 0 s in
  let s := when CONFIG_STACK_COLORATION (log StackColor) s in
  let s := putreg32 vectors NVIC_VECTAB s in
  let s := when CONFIG_ARCH_RAMVECTORS (log RamvecInitialize) s in
  (* Set all interrupts (and exceptions) to the default priority *)
  let s := putreg32 DEFPRIORITY32 NVIC_SYSH4_7_PRIORITY s in
  let s := putreg32 DEFPRIORITY32 NVIC_SYSH8_11_PRIORITY s in
  let s := putreg32 DEFPRIORITY32 NVIC_SYSH12_15_PRIORITY s in
  let '(ictr, s) := getreg32 NVIC_ICTR s in
  let num_priority_registers := wrap32 ((ictr + 1) * 8) in
  let s := default_priority_loop (Z.to_nat num_priority_registers)
             (wrap32 NVIC_IRQ0_3_PRIORITY) s in
  let s := log ClearCurrentRegs s in
  (* Attach the SVCall and Hard Fault exception handlers *)
  let s := log (IrqAttach EFM32_IRQ_SVCALL up_svcall) s in
  let s := log (IrqAttach EFM32_IRQ_HARDFAULT up_hardfault) s in
  let s := when CONFIG_ARMV7M_USEBASEPRI
             (efm32_prioritize_syscall NVIC_SYSH_SVCALL_PRIORITY) s in
  let finish (s : nvic) : outcome unit * nvic :=
    let s :=
      when CONFIG_DEBUG_FEATURES
        (fun s =>
           let s := log (IrqAttach EFM32_IRQ_NMI efm32_nmi) s in
           let s := when (negb CONFIG_ARM_MPU)
                      (log (IrqAttach EFM32_IRQ_MEMFAULT up_memfault)) s in
           let s := log (IrqAttach EFM32_IRQ_BUSFAULT efm32_busfault) s in
           let s := log (IrqAttach EFM32_IRQ_USAGEFAULT efm32_usagefault) s in
           let s := log (IrqAttach EFM32_IRQ_PENDSV efm32_pendsv) s in
           let s := log (IrqAttach EFM32_IRQ_DBGMONITOR efm32_dbgmonitor) s in
           log (IrqAttach EFM32_IRQ_RESERVED efm32_reserved) s) s in
    let s :=
      when (negb CONFIG_SUPPRESS_INTERRUPTS)
        (fun s =>
           let s := when CONFIG_EFM32_GPIO_IRQ (log GpioIrqInitialize) s in
           (* And finally, enable interrupts *)
           log IrqEnableAll s) s in
    (Ret tt, s) in
  if CONFIG_ARM_MPU
  then
    let s := log (IrqAttach EFM32_IRQ_MEMFAULT up_memfault) s in
    match up_enable_irq EFM32_IRQ_MEMFAULT s with
    | (Ret _, s) => finish s
    | (AssertFailed, s) => (AssertFailed, s)
    | (Blocked, s) => (Blocked, s)
    end
  else finish s.

End Efm32Init.

(** The interrupt numbers are laid out as the code takes them to be: the
    exceptions it can enable are different from each other and lie between
    the NMI and the first external interrupt, and the vectors are among the
    interrupt numbers. *)
Definition chip_ok `{chip : Chip} : Prop :=
  EFM32_IRQ_NMI <= EFM32_IRQ_MEMFAULT /\
  EFM32_IRQ_MEMFAULT < EFM32_IRQ_BUSFAULT /\
  EFM32_IRQ_BUSFAULT < EFM32_IRQ_USAGEFAULT /\
  EFM32_IRQ_USAGEFAULT < EFM32_IRQ_SYSTICK /\
  EFM32_IRQ_SYSTICK < EFM32_IRQ_INTERRUPTS /\
  EFM32_IRQ_INTERRUPTS <= NR_VECTORS /\
  NR_VECTORS <= NR_IRQS.

(** A chip with the layout of the ARMv7-M NVIC and 38 external interrupts,
    to try the code on. *)
Definition chip_armv7m (gpio : bool) : Chip :=
  Build_Chip 2 4 5 6 15 16 54 (if gpio then 86 else 54)
    0xe000ed24 (Z.shiftl 1 16) (Z.shiftl 1 17) (Z.shiftl 1 18)
    0xe000e010 1
    (fun n => 0xe000e100 + 4 * Z.shiftr n 5) 0xe000e100 0xe000e180
    (fun n => 0xe000ed14 + 4 * Z.shiftr n 2)
    (fun n => 0xe000e400 + 4 * Z.shiftr n 2)
    0xf0 0x80 gpio.

(** The rest of the layout, with every option of the configuration on or
    off together. *)
Definition boot_armv7m (on : bool) : Boot :=
  Build_Boot (fun n => 0xe000e180 + 4 * Z.shiftr n 5) 0xe000ed08 0x20000000
    0xe000ed18 0xe000ed1c 0xe000ed20 0xe000e004 0xe000e400
    (Z.shiftl 255 24) 24 0x70
    3 11 12 13 14
    on on on on on (negb on).

(** A register file with all registers at zero and no access made. *)
Definition nvic_zero : nvic := Build_nvic (fun _ => 0) [].

(** The interrupts that [efm32_irqinfo] knows how to enable: the external
    interrupts with a vector and four of the processor exceptions. *)
Definition can_enable `{chip : Chip} (irq : Z) : Prop :=
  EFM32_IRQ_INTERRUPTS <= irq < NR_VECTORS \/
  irq = EFM32_IRQ_MEMFAULT \/ irq = EFM32_IRQ_BUSFAULT \/
  irq = EFM32_IRQ_USAGEFAULT \/ irq = EFM32_IRQ_SYSTICK.

(** Byte [j] of a 32-bit word. *)
Definition byte_of (x : Z) (j : Z) : Z := Z.land (Z.shiftr x (8 * j)) 255.

(** A value fits in 32 bits. *)
Definition is_uint32 (x : Z) : Prop := 0 <= x < 2 ^ 32.

(** The priority register of an interrupt and the byte of it that holds the
    priority of that interrupt, as [up_prioritize_irq] picks them. *)
Definition priority_reg `{chip : Chip} (irq : Z) : Z :=
  if irq <? EFM32_IRQ_INTERRUPTS
  then NVIC_SYSH_PRIORITY irq
  else NVIC_IRQ_PRIORITY (irq - EFM32_IRQ_INTERRUPTS).

Definition priority_lane `{chip : Chip} (irq : Z) : Z :=
  if irq <? EFM32_IRQ_INTERRUPTS
  then irq mod 4
  else (irq - EFM32_IRQ_INTERRUPTS) mod 4.

(** The accesses after are the accesses before and then some more, which
    all satisfy [P]. *)
Definition adds (P : access -> Prop) (s s' : nvic) : Prop :=
  exists l, accesses s' = accesses s ++ l /\ Forall P l.

(** Everything but the enabling of the interrupts of the processor. *)
Definition is_setup (a : access) : Prop := a <> IrqEnableAll.

(** The last steps of [up_irqinitialize], when interrupts are not
    suppressed. *)
Definition enable_interrupts `{chip : Chip} (s : nvic) : nvic :=
  log IrqEnableAll (when CONFIG_EFM32_GPIO_IRQ (log GpioIrqInitialize) s).

(** * Properties *)

(** ** The lock *)

Lemma bind_ret {A B} (c : M A) (k : A -> M B) (w w' : world) (a : A) :
  c w = (Ret a, w') -> bind c k w = k a w'.
Proof. intros H. unfold bind. by rewrite H. Qed.

Lemma bind_assert {A B} (c : M A) (k : A -> M B) (w w' : world) :
  c w = (AssertFailed, w') -> bind c k w = (AssertFailed, w').
Proof. intros H. unfold bind. by rewrite H. Qed.

Lemma bind_blocked {A B} (c : M A) (k : A -> M B) (w w' : world) :
  c w = (Blocked, w') -> bind c k w = (Blocked, w').
Proof. intros H. unfold bind. by rewrite H. Qed.

Lemma waited_waited e s e' s' (w : world) :
  waited e s (waited e' s' w) = waited e s w.
Proof. reflexivity. Qed.

Lemma locked_waited e s e' s' (w : world) :
  locked e s (waited e' s' w) = locked e s w.
Proof. reflexivity. Qed.

Lemma bind_gets {A B} (f : world -> A) (k : A -> M B) (w : world) :
  bind (gets f) k w = k (f w) w.
Proof. reflexivity. Qed.

Lemma bind_modify {B} (f : world -> world) (k : unit -> M B) (w : world) :
  bind (modify f) k w = k tt (f w).
Proof. reflexivity. Qed.

Lemma bind_pure {A B} (a : A) (k : A -> M B) (w : world) :
  bind (ret a) k w = k a w.
Proof. reflexivity. Qed.

Lemma bind_assert_true {B} (k : unit -> M B) (w : world) :
  bind (DEBUGASSERT true) k w = k tt w.
Proof. reflexivity. Qed.

Lemma bind_assert_false {B} (k : unit -> M B) (w : world) :
  bind (DEBUGASSERT false) k w = (AssertFailed, w).
Proof. reflexivity. Qed.

(** One wait: interrupted, granted, or blocked on the count. *)
Lemma sem_wait_cases (w : world) :
  (exists e rest, sem_env w = Some e :: rest /\
     sem_wait w = (Ret (-1), waited e rest w)) \/
  (exists s, (length s <= length (sem_env w))%nat /\
     (sem_wait w = (Ret 0, locked (errno w) s w) \/
      sem_wait w = (Blocked, waited (errno w) s w))).
Proof.
  unfold sem_wait.
  destruct (sem_env w) as [|[e|] rest] eqn:Hs.
  - right. exists []. split; [done|]. cbn [tail].
    destruct (0 <? exclsem (g_skel (set_sem_env [] w))); auto.
  - left. by exists e, rest.
  - right. exists rest. split; [cbn; lia|]. cbn [tail].
    destruct (0 <? exclsem (g_skel (set_sem_env rest w))); auto.
Qed.

(** Whatever the script of the semaphore, the loop of [skel_lock] ends in one
    of three ways, and only the first one changes the device state. *)
Lemma skel_lock_loop_cases fuel (w : world) :
  (length (sem_env w) < fuel)%nat ->
  exists e s,
    skel_lock_loop fuel w = (Ret tt, locked e s w) \/
    skel_lock_loop fuel w = (AssertFailed, waited e s w) \/
    skel_lock_loop fuel w = (Blocked, waited e s w).
Proof.
  revert w. induction fuel as [|fuel IH]; intros w Hlen; [lia|].
  cbn [skel_lock_loop].
  destruct (sem_wait_cases w) as [(e & rest & Hs & Hw) | (s & _ & [Hw | Hw])].
  - (* an interrupted wait *)
    rewrite (bind_ret _ _ _ _ _ Hw). cbn beta.
    change (-1 <? 0) with true. cbn iota.
    rewrite (bind_ret _ _ (waited e rest w) (waited e rest w) e)
      by reflexivity.
    unfold DEBUGASSERT at 1.
    destruct (e =? EINTR) eqn:He.
    + rewrite (bind_ret _ _ (waited e rest w) (waited e rest w) tt)
        by reflexivity.
      destruct (IH (waited e rest w)) as (e' & s' & Hr).
      { rewrite Hs in Hlen. cbn in *. lia. }
      exists e', s'.
      rewrite !locked_waited, !waited_waited in Hr. exact Hr.
    + exists e, rest. right; left.
      by rewrite (bind_assert _ _ (waited e rest w) (waited e rest w)).
  - exists (errno w), s. left. by rewrite (bind_ret _ _ _ _ _ Hw).
  - exists (errno w), s. right; right. by rewrite (bind_blocked _ _ _ _ Hw).
Qed.

Lemma skel_lock_cases (w : world) :
  exists e s,
    skel_lock w = (Ret tt, locked e s w) \/
    skel_lock w = (AssertFailed, waited e s w) \/
    skel_lock w = (Blocked, waited e s w).
Proof. unfold skel_lock. apply skel_lock_loop_cases. lia. Qed.

Lemma lockable_locked (w : world) :
  lockable w -> exists e s, skel_lock w = (Ret tt, locked e s w).
Proof.
  unfold lockable, result. intros H.
  destruct (skel_lock_cases w) as (e & s & [Hr | [Hr | Hr]]);
    rewrite Hr in H; try discriminate.
  by exists e, s.
Qed.

(** [n] interrupted waits and then a granted one: the loop takes the lock. *)
Lemma skel_lock_loop_retries n : forall fuel rest (w : world),
  (n < fuel)%nat ->
  sem_env w = replicate n (Some EINTR) ++ None :: rest ->
  0 < exclsem (g_skel w) ->
  skel_lock_loop fuel w =
    (Ret tt, locked (if n is O then errno w else EINTR) rest w).
Proof.
  induction n as [|n IH]; intros fuel rest w Hf Hs Hc;
    (destruct fuel as [|fuel]; [lia|]); cbn [skel_lock_loop].
  - assert (Hw : sem_wait w = (Ret 0, locked (errno w) rest w)).
    { unfold sem_wait. rewrite Hs. cbn.
      apply Z.ltb_lt in Hc. by rewrite Hc. }
    by rewrite (bind_ret _ _ _ _ _ Hw).
  - assert (Hw : sem_wait w =
                 (Ret (-1), waited EINTR (replicate n (Some EINTR) ++ None :: rest) w)).
    { unfold sem_wait. by rewrite Hs. }
    rewrite (bind_ret _ _ _ _ _ Hw). cbn beta.
    change (-1 <? 0) with true. cbn iota.
    rewrite bind_gets. change (errno (waited EINTR _ w)) with EINTR.
    change (EINTR =? EINTR) with true. rewrite bind_assert_true.
    rewrite (IH fuel rest); [|lia|done|done].
    rewrite locked_waited. by destruct n.
Qed.

(** [n] interrupted waits and then a failure that is not [EINTR]: the
    assertion of the loop fails and the lock is not taken. *)
Lemma skel_lock_loop_asserts n : forall fuel e rest (w : world),
  (n < fuel)%nat ->
  sem_env w = replicate n (Some EINTR) ++ Some e :: rest ->
  e <> EINTR ->
  skel_lock_loop fuel w = (AssertFailed, waited e rest w).
Proof.
  induction n as [|n IH]; intros fuel e rest w Hf Hs He;
    (destruct fuel as [|fuel]; [lia|]); cbn [skel_lock_loop].
  - assert (Hw : sem_wait w = (Ret (-1), waited e rest w)).
    { unfold sem_wait. by rewrite Hs. }
    rewrite (bind_ret _ _ _ _ _ Hw). cbn beta.
    change (-1 <? 0) with true. cbn iota.
    rewrite bind_gets. change (errno (waited e rest w)) with e.
    apply Z.eqb_neq in He. rewrite He. by rewrite bind_assert_false.
  - assert (Hw : sem_wait w =
                 (Ret (-1), waited EINTR (replicate n (Some EINTR) ++ Some e :: rest) w)).
    { unfold sem_wait. by rewrite Hs. }
    rewrite (bind_ret _ _ _ _ _ Hw). cbn beta.
    change (-1 <? 0) with true. cbn iota.
    rewrite bind_gets. change (errno (waited EINTR _ w)) with EINTR.
    change (EINTR =? EINTR) with true. rewrite bind_assert_true.
    rewrite (IH fuel e rest); [|lia|done|done].
    by rewrite waited_waited.
Qed.

(** ** Relations kept by driver code *)

Section Keeps.
Variable R : world -> world -> Prop.
Hypothesis R_refl : forall w, R w w.
Hypothesis R_trans : forall w1 w2 w3, R w1 w2 -> R w2 w3 -> R w1 w3.

Lemma keeps_bind {A B} (c : M A) (k : A -> M B) :
  keeps R c -> (forall a, keeps R (k a)) -> keeps R (bind c k).
Proof.
  intros Hc Hk w. specialize (Hc w). unfold after, bind in *.
  destruct (c w) as [[a| |] w'] eqn:E; cbn in *; auto.
  eapply R_trans; [exact Hc|]. apply (Hk a w').
Qed.

Lemma keeps_ret {A} (a : A) : keeps R (ret a).
Proof. intros w. apply R_refl. Qed.

Lemma keeps_gets {A} (f : world -> A) : keeps R (gets f).
Proof. intros w. apply R_refl. Qed.

Lemma keeps_assert (c : bool) : keeps R (DEBUGASSERT c).
Proof. intros w. unfold after, DEBUGASSERT. destruct c; apply R_refl. Qed.

(** What is left to show for the calls to the collaborators. *)
Hypothesis R_waited : forall e s w, R w (waited e s w).
Hypothesis R_locked : forall e s w, R w (locked e s w).
Hypothesis R_post : keeps R sem_post.
Hypothesis R_bus : forall b e w,
  is_bus e = true -> R w (emit e (set_bus_env b w)).

Lemma keeps_lock : keeps R skel_lock.
Proof.
  intros w. unfold after.
  destruct (skel_lock_cases w) as (e & s & [-> | [-> | ->]]); cbn; auto.
Qed.

Lemma keeps_bus_read : keeps R bus_read.
Proof. intros w. by apply R_bus. Qed.

Lemma keeps_bus_write v : keeps R (bus_write v).
Proof. intros w. by apply R_bus. Qed.

Lemma keeps_getmultibits NPINS pins values :
  keeps R (skel_getmultibits NPINS pins values).
Proof.
  apply keeps_bind; [apply keeps_bus_read | intros a; apply keeps_ret].
Qed.

(** The pin control operations are made of these calls only. *)
Lemma keeps_pin_call NPINS o : keeps R (pin_call NPINS o).
Proof.
  destruct o; cbn [pin_call];
    unfold skel_direction, skel_option, skel_writepin, skel_readpin,
      skel_readbuf, skel_multiwritepin, skel_multireadpin,
      skel_multireadbuf, skel_setreg, skel_getreg, skel_readpinset,
      skel_writepinset, skel_unlock;
    repeat first
      [ apply keeps_ret | apply keeps_assert | apply keeps_lock
      | apply keeps_bus_read | apply keeps_bus_write | apply R_post
      | apply keeps_getmultibits
      | apply keeps_bind; [|intros ?]
      | case_match ].
Qed.
End Keeps.

(** ** The loop of [skel_attach] *)

Lemma fill_free ps callback e :
  cbfunc e = NULL -> fill ps callback e = Build_skel_callback_s ps callback.
Proof. intros H. unfold fill. by rewrite H. Qed.

Lemma fill_occupied ps callback e : occupied e -> fill ps callback e = e.
Proof.
  unfold occupied, fill. intros H. apply Z.eqb_neq in H. by rewrite H.
Qed.

(** Entry by entry: the loop fills the free entries among the [n] entries
    from index [i] on and leaves all others alone. *)
Lemma skel_attach_loop_lookup n : forall i ps callback t r j,
  fst (skel_attach_loop n i ps callback t r) !! j =
    if bool_decide (i <= j < i + n)%nat
    then fill ps callback <$> t !! j
    else t !! j.
Proof.
  induction n as [|n IH]; intros i ps callback t r j; cbn [skel_attach_loop].
  - rewrite bool_decide_eq_false_2 by lia. done.
  - destruct (t !! i) as [e|] eqn:Hi.
    + destruct (cbfunc e =? NULL) eqn:He.
      * rewrite IH. destruct (decide (j = i)) as [->|Hne].
        -- rewrite bool_decide_eq_false_2 by lia.
           rewrite bool_decide_eq_true_2 by lia.
           rewrite list_lookup_insert_eq by (by eapply lookup_lt_Some).
           rewrite Hi. cbn. apply Z.eqb_eq in He. by rewrite fill_free.
        -- rewrite list_lookup_insert_ne by done.
           destruct (decide (S i <= j < S i + n)%nat).
           ++ rewrite !bool_decide_eq_true_2 by lia. done.
           ++ rewrite !bool_decide_eq_false_2 by lia. done.
      * rewrite IH. destruct (decide (j = i)) as [->|Hne].
        -- rewrite bool_decide_eq_false_2 by lia.
           rewrite bool_decide_eq_true_2 by lia.
           rewrite Hi. cbn. apply Z.eqb_neq in He. by rewrite fill_occupied.
        -- destruct (decide (S i <= j < S i + n)%nat).
           ++ rewrite !bool_decide_eq_true_2 by lia. done.
           ++ rewrite !bool_decide_eq_false_2 by lia. done.
    + rewrite IH. destruct (decide (j = i)) as [->|Hne].
      * rewrite bool_decide_eq_false_2 by lia.
        rewrite bool_decide_eq_true_2 by lia. by rewrite Hi.
      * destruct (decide (S i <= j < S i + n)%nat).
        -- rewrite !bool_decide_eq_true_2 by lia. done.
        -- rewrite !bool_decide_eq_false_2 by lia. done.
Qed.

(** On a table of at most [n] entries the loop is [fill] on every entry. *)
Lemma skel_attach_loop_table n ps callback t r :
  (length t <= n)%nat ->
  fst (skel_attach_loop n 0 ps callback t r) = fill ps callback <$> t.
Proof.
  intros Hlen. apply list_eq. intros j.
  rewrite skel_attach_loop_lookup, list_lookup_fmap.
  case_bool_decide as Hj; [done|].
  rewrite (lookup_ge_None_2 t j) by lia. done.
Qed.

(** The return value is [OK] once it was set to [OK]. *)
Lemma skel_attach_loop_ret_ok n : forall i ps callback t,
  snd (skel_attach_loop n i ps callback t OK) = OK.
Proof.
  induction n as [|n IH]; intros i ps callback t; cbn [skel_attach_loop];
    [done|].
  destruct (t !! i) as [e|]; [destruct (cbfunc e =? NULL)|]; apply IH.
Qed.

(** With a free entry in the range the loop returns [OK]. *)
Lemma skel_attach_loop_ret_free n : forall i ps callback t r j e,
  (i <= j < i + n)%nat -> t !! j = Some e -> cbfunc e = NULL ->
  snd (skel_attach_loop n i ps callback t r) = OK.
Proof.
  induction n as [|n IH]; intros i ps callback t r j e Hj Hl He; [lia|].
  cbn [skel_attach_loop].
  destruct (t !! i) as [e'|] eqn:Hi.
  - destruct (cbfunc e' =? NULL) eqn:He'.
    + apply skel_attach_loop_ret_ok.
    + assert (j <> i).
      { intros ->. rewrite Hi in Hl. injection Hl as ->.
        apply Z.eqb_neq in He'. done. }
      apply (IH _ _ _ _ _ j e); [lia|done|done].
  - assert (j <> i) by (intros ->; congruence).
    apply (IH _ _ _ _ _ j e); [lia|done|done].
Qed.

(** Without a free entry in the range the loop changes nothing: the table
    and the return value it was given come back. *)
Lemma skel_attach_loop_full n : forall i ps callback t r,
  (forall j e, (i <= j < i + n)%nat -> t !! j = Some e -> occupied e) ->
  skel_attach_loop n i ps callback t r = (t, r).
Proof.
  induction n as [|n IH]; intros i ps callback t r Hocc; [done|].
  cbn [skel_attach_loop].
  destruct (t !! i) as [e|] eqn:Hi.
  - assert (He : occupied e) by (apply (Hocc i); [lia|done]).
    apply Z.eqb_neq in He. rewrite He.
    apply IH. intros j e' Hj. apply Hocc. lia.
  - apply IH. intros j e' Hj. apply Hocc. lia.
Qed.

(** ** The loop of [skel_irqworker] *)

Lemma emit_all_nil (w : world) : emit_all [] w = w.
Proof. destruct w. unfold emit_all. cbn. by rewrite app_nil_r. Qed.

Lemma emit_all_emit e l (w : world) :
  emit_all l (emit e w) = emit_all (e :: l) w.
Proof. unfold emit_all, emit. cbn. by rewrite <- app_assoc. Qed.

Lemma matching_cons E e t :
  matching E (e :: t) =
    (if interested E e then [callback_of E e] else []) ++ matching E t.
Proof. unfold matching. cbn. by destruct (interested E e). Qed.

(** The loop calls, in the order of the table, what [matching] lists for
    the [n] entries from index [i] on, and does nothing else. *)
Lemma skel_irqworker_loop_spec n : forall i ps (w : world),
  skel_irqworker_loop n i ps w =
    (Ret tt, emit_all (matching ps (take n (drop i (cb (g_skel w))))) w).
Proof.
  induction n as [|n IH]; intros i ps w; cbn [skel_irqworker_loop].
  - cbn. by rewrite emit_all_nil.
  - rewrite bind_gets.
    destruct (cb (g_skel w) !! i) as [e|] eqn:Hi.
    + rewrite (drop_S _ _ _ Hi). cbn [take]. rewrite matching_cons.
      unfold interested, callback_of.
      destruct (negb (cbfunc e =? NULL)) eqn:Hocc; cbn [andb].
      * destruct (negb (Z.land ps (pinset e) =? 0)) eqn:Hm.
        -- rewrite bind_modify, IH. cbn [g_skel emit].
           by rewrite emit_all_emit.
        -- rewrite bind_pure, IH. reflexivity.
      * rewrite bind_pure, IH. reflexivity.
    + rewrite IH. apply lookup_ge_None in Hi.
      rewrite !drop_ge by lia. by rewrite !take_nil.
Qed.

(** ** The bottom half *)

Lemma interested_spec E e :
  interested E e = true <-> occupied e /\ Z.land E (pinset e) <> 0.
Proof.
  unfold interested, occupied.
  rewrite andb_true_iff, !negb_true_iff, !Z.eqb_neq. done.
Qed.

(** The bottom half: the read, the callbacks that match what the read left
    in the pinset, the re-enable.  The status of the read plays no part. *)
Lemma skel_irqworker_eq N (w : world) :
  skel_irqworker N w =
    (Ret tt,
     set_irq true
       (emit_all
          (EvBusRead ::
           matching (data (next_reply w)) (take N (cb (g_skel w))) ++
           [EvIrqEnable])
          (set_bus_env (tail (bus_env w)) w))).
Proof.
  unfold skel_irqworker, skel_readpinset.
  unfold bind at 1. unfold bus_read at 1. cbn [fst snd].
  unfold bind at 1.
  rewrite skel_irqworker_loop_spec. cbn [g_skel emit set_bus_env].
  rewrite drop_0. unfold skel_irq_enable, modify, emit_all, emit, set_irq.
  cbn. do 2 f_equal. by rewrite <- !app_assoc.
Qed.

(** The bottom half when the status read succeeds. *)
Lemma skel_irqworker_read_ok N (w : world) :
  0 <= rc (next_reply w) ->
  skel_irqworker N w =
    (Ret tt,
     set_irq true
       (emit_all
          (EvBusRead ::
           matching (data (next_reply w)) (take N (cb (g_skel w))) ++
           [EvIrqEnable])
          (set_bus_env (tail (bus_env w)) w))).
Proof. intros _. apply skel_irqworker_eq. Qed.

(** The bottom half when the status read fails: the same. *)
Lemma skel_irqworker_read_failed N (w : world) :
  rc (next_reply w) < 0 ->
  skel_irqworker N w =
    (Ret tt,
     set_irq true
       (emit_all
          (EvBusRead ::
           matching (data (next_reply w)) (take N (cb (g_skel w))) ++
           [EvIrqEnable])
          (set_bus_env (tail (bus_env w)) w))).
Proof. intros _. apply skel_irqworker_eq. Qed.

(** C4.  For every event pinset [E] that the status read delivers and every
    table of callbacks, the bottom half calls, between the read and the
    re-enable and in the order of the table, exactly the occupied entries
    whose interest meets [E], each with the intersection of [E] and its
    interest: the call of an occupied entry is on the trace if and only if
    that intersection is not zero, and every call made carries the
    intersection of some interested entry. *)
Theorem skel_irqworker_calls_matching N (w : world) (E : ioe_pinset_t) :
  length (cb (g_skel w)) = N ->
  0 <= rc (next_reply w) ->
  data (next_reply w) = E ->
  result (skel_irqworker N) w = Ret tt /\
  trace (after (skel_irqworker N) w) =
    trace w ++ [EvBusRead] ++
    map (fun e => EvCallback (cbfunc e) (Z.land E (pinset e)))
      (List.filter
         (fun e => negb (cbfunc e =? NULL) && negb (Z.land E (pinset e) =? 0))
         (cb (g_skel w))) ++
    [EvIrqEnable] /\
  (forall k e, cb (g_skel w) !! k = Some e -> occupied e ->
     (In (EvCallback (cbfunc e) (Z.land E (pinset e)))
         (matching E (cb (g_skel w))) <->
      Z.land E (pinset e) <> 0)) /\
  (forall f m, In (EvCallback f m) (matching E (cb (g_skel w))) ->
     exists k e, cb (g_skel w) !! k = Some e /\ occupied e /\
                 f = cbfunc e /\ m = Z.land E (pinset e) /\ m <> 0).
Proof.
  intros Hlen Hrc HE. unfold result, after.
  rewrite (skel_irqworker_read_ok N w Hrc). cbn [fst snd].
  rewrite HE, <- Hlen, firstn_all.
  split; [done|]. split; [reflexivity|]. split.
  - intros k e Hk Hocc. unfold matching. rewrite in_map_iff. split.
    + intros (e' & Heq & Hin). apply filter_In in Hin as [_ Hint].
      apply interested_spec in Hint as [_ Hm].
      unfold callback_of in Heq. injection Heq as _ Hmm. congruence.
    + intros Hm. exists e. split; [done|]. apply filter_In. split.
      * apply list_elem_of_In. by eapply list_elem_of_lookup_2.
      * by apply interested_spec.
  - intros f m Hin. unfold matching in Hin. apply in_map_iff in Hin.
    destruct Hin as (e & Heq & Hin). apply filter_In in Hin as [Hin Hint].
    apply interested_spec in Hint as [Hocc Hm].
    apply list_elem_of_In, list_elem_of_lookup in Hin as [k Hk].
    unfold callback_of in Heq. injection Heq as <- <-.
    by exists k, e.
Qed.


(** ** Pin control operations *)

(** C8.  For every option other than the polarity inversion, [skel_option]
    returns [-ENOSYS] and leaves the world as it was: no lock, no bus
    transaction, no change of the device state.  The polarity inversion
    option is the one that enters the locked region: lock, register access,
    unlock. *)
Theorem skel_option_unsupported (pin opt val : Z) (w : world) :
  (opt <> IOEXPANDER_OPTION_INVERT ->
   skel_option pin opt val w = (Ret (- ENOSYS), w)) /\
  (opt = IOEXPANDER_OPTION_INVERT -> lockable w ->
   trace (after (skel_option pin opt val) w) =
     trace w ++ [EvLock; EvBusWrite val; EvUnlock] /\
   exclsem (g_skel (after (skel_option pin opt val) w)) = exclsem (g_skel w)).
Proof.
  unfold after, skel_option. rewrite !bind_assert_true. split.
  - intros Hopt. apply Z.eqb_neq in Hopt. by rewrite Hopt.
  - intros -> Hlock. change (_ =? _) with true. cbn iota.
    destruct (lockable_locked w Hlock) as (e & s & Hl).
    rewrite (bind_ret _ _ _ _ _ Hl).
    cbn. rewrite <- !app_assoc. split; [done|lia].
Qed.

(** ** The pinset and the [int] shift *)

Lemma pinset_in_range_bits NPINS ps :
  0 <= NPINS ->
  pinset_in_range NPINS ps <->
  (forall b, 0 <= b -> Z.testbit ps b = (b <? NPINS) && Z.testbit ps b).
Proof.
  intros Hn. unfold pinset_in_range. split.
  - intros Hps b Hb. rewrite <- Z.testbit_mod_pow2 by done.
    by rewrite Z.mod_small.
  - intros Hbits.
    assert (Hmod : ps mod 2 ^ NPINS = ps).
    { apply Z.bits_inj'. intros b Hb.
      rewrite Z.testbit_mod_pow2 by done. symmetry. by apply Hbits. }
    rewrite <- Hmod. apply Z.mod_pos_bound. by apply Z.pow_pos_nonneg.
Qed.

Lemma int_shl1_low pin : 0 <= pin < 31 -> int_shl1 pin = 2 ^ pin.
Proof.
  intros Hp. unfold int_shl1, to_int. rewrite Z.shiftl_1_l.
  assert (0 < 2 ^ pin) by (apply Z.pow_pos_nonneg; lia).
  assert (2 ^ pin <= 2 ^ 30) by (apply Z.pow_le_mono_r; lia).
  rewrite Z.mod_small by lia. lia.
Qed.

Lemma int_shl1_31 : int_shl1 31 = Z.lnot (Z.ones 31).
Proof. reflexivity. Qed.

(** The bits of [1 << pin]: the bit of the pin, and at pin 31 the bits
    above it too, which are the sign. *)
Lemma int_shl1_bits pin i :
  0 <= pin < 32 -> 0 <= i ->
  Z.testbit (int_shl1 pin) i = (i =? pin) || ((pin =? 31) && (31 <=? i)).
Proof.
  intros Hp Hi. destruct (Z.eq_dec pin 31) as [->|Hne].
  - rewrite int_shl1_31, Z.lnot_spec, Z.testbit_ones_nonneg by lia.
    destruct (Z.eqb_spec i 31), (Z.leb_spec 31 i), (Z.ltb_spec i 31);
      cbn; (reflexivity || lia).
  - rewrite int_shl1_low, Z.pow2_bits_eqb by lia.
    rewrite (proj2 (Z.eqb_neq pin 31)) by done. cbn [andb].
    rewrite orb_false_r. apply Z.eqb_sym.
Qed.

Lemma pinset_bits_bounds NPINS :
  8 <= pinset_bits NPINS <= 64 /\
  (NPINS <= 64 -> NPINS <= pinset_bits NPINS) /\
  (NPINS <= 32 -> pinset_bits NPINS <= 32).
Proof.
  unfold pinset_bits.
  destruct (Z.leb_spec NPINS 8), (Z.leb_spec NPINS 16), (Z.leb_spec NPINS 32);
    lia.
Qed.

(** Whatever the change, its result is a value of the pinset type. *)
Lemma pinset_set_fits NPINS ps pin :
  pinset_fits NPINS (pinset_set (pinset_bits NPINS) ps pin).
Proof.
  unfold pinset_fits, pinset_set, to_pinset. apply Z.mod_pos_bound.
  apply Z.pow_pos_nonneg; [lia|]. pose proof (pinset_bits_bounds NPINS). lia.
Qed.

Lemma pinset_clear_fits NPINS ps pin :
  pinset_fits NPINS (pinset_clear (pinset_bits NPINS) ps pin).
Proof.
  unfold pinset_fits, pinset_clear, to_pinset. apply Z.mod_pos_bound.
  apply Z.pow_pos_nonneg; [lia|]. pose proof (pinset_bits_bounds NPINS). lia.
Qed.

Lemma pinset_in_range_fits NPINS ps :
  NPINS <= 64 -> pinset_in_range NPINS ps -> pinset_fits NPINS ps.
Proof.
  unfold pinset_in_range, pinset_fits. intros Hn Hps.
  destruct (Z_lt_le_dec NPINS 0) as [Hneg|Hpos].
  { rewrite Z.pow_neg_r in Hps by done. lia. }
  pose proof (pinset_bits_bounds NPINS) as (_ & Hle & _).
  assert (2 ^ NPINS <= 2 ^ pinset_bits NPINS)
    by (apply Z.pow_le_mono_r; lia).
  lia.
Qed.

(** Up to 32 pins the pinset has at most 32 bits, and the [int] shift sets
    and clears the bit of the pin and nothing else. *)
Lemma pinset_set_setbit NPINS ps pin :
  NPINS <= 32 -> 0 <= pin < NPINS -> pinset_fits NPINS ps ->
  pinset_set (pinset_bits NPINS) ps pin = Z.setbit ps pin.
Proof.
  intros Hn Hp Hps. unfold pinset_set, to_pinset.
  pose proof (pinset_bits_bounds NPINS) as (Hb8 & Hge & Hle).
  apply Z.bits_inj'. intros i Hi.
  rewrite Z.testbit_mod_pow2, Z.lor_spec, int_shl1_bits by lia.
  rewrite Z.setbit_eqb by lia.
  pose proof (proj1 (pinset_in_range_bits (pinset_bits NPINS) ps ltac:(lia))
                Hps i Hi) as Hbit.
  rewrite Hbit.
  destruct (Z.ltb_spec i (pinset_bits NPINS)), (Z.eqb_spec i pin),
    (Z.eqb_spec pin i), (Z.eqb_spec pin 31), (Z.leb_spec 31 i),
    (Z.testbit ps i); cbn; (reflexivity || lia).
Qed.

Lemma pinset_clear_clearbit NPINS ps pin :
  NPINS <= 32 -> 0 <= pin < NPINS -> pinset_fits NPINS ps ->
  pinset_clear (pinset_bits NPINS) ps pin = Z.clearbit ps pin.
Proof.
  intros Hn Hp Hps. unfold pinset_clear, to_pinset.
  pose proof (pinset_bits_bounds NPINS) as (Hb8 & Hge & Hle).
  apply Z.bits_inj'. intros i Hi.
  rewrite Z.testbit_mod_pow2, Z.land_spec, Z.lnot_spec, int_shl1_bits by lia.
  rewrite Z.clearbit_eqb.
  pose proof (proj1 (pinset_in_range_bits (pinset_bits NPINS) ps ltac:(lia))
                Hps i Hi) as Hbit.
  rewrite Hbit.
  destruct (Z.ltb_spec i (pinset_bits NPINS)), (Z.eqb_spec i pin),
    (Z.eqb_spec pin i), (Z.eqb_spec pin 31), (Z.leb_spec 31 i),
    (Z.testbit ps i); cbn; (reflexivity || lia).
Qed.

(** With all pins in range the loop of [skel_multiwritepin] comes to its
    end, with a value of the pinset type when it started from one. *)
Lemma skel_multiwritepin_loop_some NPINS pins : forall i values ps,
  Forall (fun p => p < NPINS) pins ->
  exists ps', skel_multiwritepin_loop NPINS pins i values ps = Some ps'.
Proof.
  induction pins as [|pin pins IH]; intros i values ps Hr;
    cbn [skel_multiwritepin_loop]; [by eexists|].
  apply Forall_cons in Hr as [Hp Hr].
  apply Z.leb_gt in Hp. rewrite Hp. by apply IH.
Qed.

Lemma skel_multiwritepin_loop_fits NPINS pins : forall i values ps ps',
  pinset_fits NPINS ps ->
  skel_multiwritepin_loop NPINS pins i values ps = Some ps' ->
  pinset_fits NPINS ps'.
Proof.
  induction pins as [|pin pins IH]; intros i values ps ps' Hps;
    cbn [skel_multiwritepin_loop].
  - by intros [= <-].
  - destruct (NPINS <=? pin); [done|]. apply IH.
    destruct (default false (values !! i));
      [apply pinset_set_fits|apply pinset_clear_fits].
Qed.

(** Up to 32 pins and with all pins in range the loop of
    [skel_multiwritepin] applies the requested changes one after the
    other. *)
Lemma skel_multiwritepin_loop_in_range NPINS pins : forall i values ps,
  NPINS <= 32 ->
  Forall (fun p => 0 <= p < NPINS) pins ->
  (i + length pins <= length values)%nat ->
  pinset_fits NPINS ps ->
  skel_multiwritepin_loop NPINS pins i values ps =
    Some (apply_changes ps (zip pins (drop i values))).
Proof.
  induction pins as [|pin pins IH]; intros i values ps Hn Hr Hlen Hps;
    cbn [skel_multiwritepin_loop]; [done|].
  apply Forall_cons in Hr as [Hp Hr].
  rewrite (proj2 (Z.leb_gt NPINS pin)) by lia.
  destruct (lookup_lt_is_Some_2 values i) as [v Hv]; [cbn in Hlen; lia|].
  rewrite Hv, (drop_S _ _ _ Hv). cbn [default zip zip_with].
  rewrite IH; [|done|done|cbn in Hlen; lia|].
  - unfold apply_changes. cbn [fold_left fst snd].
    by rewrite pinset_set_setbit, pinset_clear_clearbit.
  - destruct v; [apply pinset_set_fits|apply pinset_clear_fits].
Qed.

(** A pin out of range makes both loops leave early. *)
Lemma skel_multiwritepin_loop_out_of_range NPINS pins : forall i values ps,
  Exists (fun p => NPINS <= p) pins ->
  skel_multiwritepin_loop NPINS pins i values ps = None.
Proof.
  induction pins as [|pin pins IH]; intros i values ps Hex;
    cbn [skel_multiwritepin_loop].
  - by apply Exists_nil in Hex.
  - destruct (NPINS <=? pin) eqn:Hp; [done|].
    apply IH. apply Exists_cons in Hex as [Hex|Hex]; [|done].
    apply Z.leb_gt in Hp. lia.
Qed.

Lemma skel_getmultibits_loop_out_of_range NPINS ps pins : forall i values,
  Exists (fun p => NPINS <= p) pins ->
  fst (skel_getmultibits_loop NPINS ps pins i values) = - ENXIO.
Proof.
  induction pins as [|pin pins IH]; intros i values Hex;
    cbn [skel_getmultibits_loop].
  - by apply Exists_nil in Hex.
  - destruct (NPINS <=? pin) eqn:Hp; [done|].
    apply IH. apply Exists_cons in Hex as [Hex|Hex]; [|done].
    apply Z.leb_gt in Hp. lia.
Qed.

(** The loop of [skel_getmultibits] up to the first pin that is out of
    range: the entries of the buffer before that position are written. *)
Lemma skel_getmultibits_loop_partial NPINS ps p rest good :
  forall pre vs post,
  Forall (fun q => q < NPINS) good ->
  NPINS <= p ->
  length vs = length good ->
  skel_getmultibits_loop NPINS ps (good ++ p :: rest) (length pre)
    (pre ++ vs ++ post) =
  (- ENXIO, pre ++ (skel_pinbit ps <$> good) ++ post).
Proof.
  induction good as [|g good IH]; intros pre vs post Hr Hp Hlen;
    cbn [app skel_getmultibits_loop].
  - apply Z.leb_le in Hp. rewrite Hp.
    destruct vs; [done|discriminate].
  - apply Forall_cons in Hr as [Hg Hr].
    apply Z.leb_gt in Hg. rewrite Hg.
    destruct vs as [|v vs]; [discriminate|].
    rewrite insert_app_r_alt by lia. rewrite Nat.sub_diag. cbn [app].
    change (<[0%nat:=skel_pinbit ps g]> (v :: vs ++ post))
      with (skel_pinbit ps g :: vs ++ post).
    replace (S (length pre)) with (length (pre ++ [skel_pinbit ps g]))
      by (rewrite length_app; cbn; lia).
    rewrite (cons_middle (skel_pinbit ps g) pre (vs ++ post)), app_assoc.
    rewrite IH; [|done|done|by injection Hlen].
    rewrite fmap_cons. by rewrite <- app_assoc.
Qed.

(** One bit of the merged pinset: the level last requested for that pin, or
    the level that was read when the batch does not name the pin. *)
Lemma requested_cons c l b :
  requested (c :: l) b =
    match requested l b with
    | Some v => Some v
    | None => if fst c =? b then Some (snd c) else None
    end.
Proof.
  unfold requested. cbn [fold_left].
  generalize (if fst c =? b then Some (snd c) else None) as o.
  induction l as [|d l IH]; intros o; cbn [fold_left].
  - by destruct o.
  - rewrite IH. rewrite (IH (if fst d =? b then _ else _)).
    destruct (fold_left _ l None); [done|].
    by destruct (fst d =? b).
Qed.

Lemma apply_changes_cons ps c l :
  apply_changes ps (c :: l) =
    apply_changes (if snd c then Z.setbit ps (fst c)
                   else Z.clearbit ps (fst c)) l.
Proof. reflexivity. Qed.

Lemma apply_changes_testbit changes : forall ps b,
  0 <= b ->
  Forall (fun c => 0 <= fst c) changes ->
  Z.testbit (apply_changes ps changes) b =
    default (Z.testbit ps b) (requested changes b).
Proof.
  induction changes as [|c l IH]; intros ps b Hb Hr; [done|].
  apply Forall_cons in Hr as [Hc Hr].
  rewrite requested_cons, apply_changes_cons.
  rewrite IH by done.
  destruct (requested l b) as [v|]; [done|]. cbn [default].
  destruct (snd c) eqn:Hv.
  - rewrite Z.setbit_eqb by done. destruct (fst c =? b); reflexivity.
  - rewrite Z.clearbit_eqb. destruct (fst c =? b); cbn [negb default].
    + apply andb_false_r.
    + apply andb_true_r.
Qed.

Lemma next_reply_locked e s (w : world) :
  next_reply (locked e s w) = next_reply w.
Proof. reflexivity. Qed.

Lemma bus_read_eq (w : world) :
  bus_read w = (Ret (rc (next_reply w), data (next_reply w)),
                bus_done EvBusRead w).
Proof. reflexivity. Qed.

Lemma bus_write_eq v (w : world) :
  bus_write v w = (Ret (rc (next_reply w)), bus_done (EvBusWrite v) w).
Proof. reflexivity. Qed.

Lemma skel_unlock_eq (w : world) : skel_unlock w = (Ret 0, unlocked w).
Proof. reflexivity. Qed.

(** [skel_multiwritepin] once the lock is taken. *)
Lemma skel_multiwritepin_locked NPINS pins values (w wl : world) :
  skel_lock w = (Ret tt, wl) ->
  skel_multiwritepin NPINS pins values w =
    match skel_multiwritepin_loop NPINS pins 0 values (data (next_reply wl)) with
    | None => (Ret (- ENXIO), unlocked (bus_done EvBusRead wl))
    | Some ps =>
        (Ret (rc (next_reply (bus_done EvBusRead wl))),
         unlocked (bus_done (EvBusWrite ps) (bus_done EvBusRead wl)))
    end.
Proof.
  intros Hl. unfold skel_multiwritepin.
  rewrite (bind_ret _ _ _ _ _ Hl).
  unfold skel_readpinset. rewrite (bind_ret _ _ _ _ _ (bus_read_eq wl)).
  cbn [snd]. destruct (skel_multiwritepin_loop _ _ _ _ _) as [ps|].
  - unfold skel_writepinset.
    rewrite (bind_ret _ _ _ _ _ (bus_write_eq ps _)).
    by rewrite (bind_ret _ _ _ _ _ (skel_unlock_eq _)).
  - by rewrite (bind_ret _ _ _ _ _ (skel_unlock_eq _)).
Qed.

(** [skel_getmultibits] under the lock, as both multi-pin reads call it. *)
Lemma skel_multiread_locked NPINS pins values (w wl : world) :
  skel_lock w = (Ret tt, wl) ->
  pins <> [] ->
  skel_multireadpin NPINS pins values w =
    (Ret (skel_getmultibits_loop NPINS (data (next_reply wl)) pins 0 values),
     unlocked (bus_done EvBusRead wl)) /\
  skel_multireadbuf NPINS pins values w =
    (Ret (skel_getmultibits_loop NPINS (data (next_reply wl)) pins 0 values),
     unlocked (bus_done EvBusRead wl)).
Proof.
  intros Hl Hne. unfold skel_multireadpin, skel_multireadbuf.
  assert (Hc : (0 <? Z.of_nat (length pins)) = true).
  { apply Z.ltb_lt. destruct pins; [done|cbn; lia]. }
  rewrite Hc, !bind_assert_true, !(bind_ret _ _ _ _ _ Hl).
  unfold skel_getmultibits, skel_readpinset.
  assert (Hg : bind bus_read
                 (fun r => ret (skel_getmultibits_loop NPINS (snd r) pins 0 values))
                 wl =
               (Ret (skel_getmultibits_loop NPINS (data (next_reply wl)) pins 0 values),
                bus_done EvBusRead wl)).
  { by rewrite (bind_ret _ _ _ _ _ (bus_read_eq wl)). }
  rewrite !(bind_ret _ _ _ _ _ Hg).
  by rewrite !(bind_ret _ _ _ _ _ (skel_unlock_eq _)).
Qed.

(** [skel_multiwritepin] with all pins in range, whatever the pin count:
    inside the lock one read of the pinset, then one write of the pinset
    that the loop has made of it, and no other transaction. *)
Lemma skel_multiwritepin_run
    (NPINS : Z) (pins : list Z) (values : list bool) (w : world) :
  lockable w ->
  Forall (fun p => p < NPINS) pins ->
  exists merged,
    skel_multiwritepin_loop NPINS pins 0 values (data (next_reply w)) =
      Some merged /\
    result (skel_multiwritepin NPINS pins values) w =
      Ret (rc (next_reply (set_bus_env (tail (bus_env w)) w))) /\
    trace (after (skel_multiwritepin NPINS pins values) w) =
      trace w ++ [EvLock; EvBusRead; EvBusWrite merged; EvUnlock] /\
    added is_bus w (after (skel_multiwritepin NPINS pins values) w) = 2.
Proof.
  intros Hlock Hr.
  destruct (lockable_locked w Hlock) as (e & s & Hl).
  destruct (skel_multiwritepin_loop_some NPINS pins 0 values
              (data (next_reply w)) Hr) as [merged Hm].
  exists merged. split; [exact Hm|].
  unfold result, after.
  rewrite (skel_multiwritepin_locked _ _ _ _ _ Hl), next_reply_locked, Hm.
  cbn [fst snd].
  assert (Htr :
    trace (unlocked
             (bus_done (EvBusWrite merged)
                (bus_done EvBusRead (locked e s w)))) =
    trace w ++ [EvLock; EvBusRead; EvBusWrite merged; EvUnlock])
    by (cbn; by rewrite <- !app_assoc).
  split; [done|]. split; [exact Htr|].
  unfold added. rewrite Htr, List.filter_app, length_app. cbn. lia.
Qed.

(** C6, on the code.  With 64 pins the pinset has 64 bits, and the loop of
    [skel_multiwritepin] still shifts in [int].  Asked to raise pins 0 and
    31 of a pinset that reads all low, the call makes its one read and its
    one write, but the pinset it writes has the bits 31 to 63 raised, where
    the requested changes applied to the pinset read raise pin 31 alone.
    No other [int] would do better: whatever number of 32 bits stands for
    [1 << pin], joined to a pinset that is all low it does not give the bit
    of a pin from 31 on. *)
Theorem skel_multiwritepin_shifts_in_int :
  Forall (fun p => 0 <= p < 64) [0; 31] /\
  trace (after (skel_multiwritepin 64 [0; 31] [true; true]) (skel_boot 2)) =
    trace (skel_boot 2) ++
    [EvLock; EvBusRead; EvBusWrite 0xFFFFFFFF80000001; EvUnlock] /\
  apply_changes (data (next_reply (skel_boot 2))) (zip [0; 31] [true; true]) =
    0x80000001 /\
  (forall x pin, - 2 ^ 31 <= x < 2 ^ 31 -> 31 <= pin < 64 ->
     to_pinset (pinset_bits 64) (Z.lor 0 x) <> Z.setbit 0 pin).
Proof.
  split; [repeat constructor; lia|].
  split; [vm_compute; reflexivity|].
  split; [vm_compute; reflexivity|].
  intros x pin Hx Hpin. unfold to_pinset. rewrite Z.lor_0_l.
  change (pinset_bits 64) with 64.
  rewrite Z.setbit_spec', Z.lor_0_l.
  assert (2 ^ 31 <= 2 ^ pin) by (apply Z.pow_le_mono_r; lia).
  assert (2 ^ pin <= 2 ^ 63) by (apply Z.pow_le_mono_r; lia).
  destruct (Z_lt_le_dec x 0) as [Hneg|Hpos].
  - rewrite <- (Z_mod_plus_full x 1 (2 ^ 64)).
    rewrite Z.mod_small by lia. lia.
  - rewrite Z.mod_small by lia. lia.
Qed.

(** X23.  Up to 32 pins, for every batch of pins in range (of any size)
    and a pinset read that is a value of the pinset type,
    [skel_multiwritepin] makes exactly two bus transactions inside the
    lock: one read of the current pinset and one write of the merged
    pinset, which is the pinset read with the requested change of each pin
    applied to it.  Bit by bit, the pinset written has the level last
    requested for a pin of the batch and the level read for every other
    pin. *)
Theorem skel_multiwritepin_one_read_one_write
    (NPINS : Z) (pins : list Z) (values : list bool) (w : world) :
  NPINS <= 32 ->
  lockable w ->
  Forall (fun p => 0 <= p < NPINS) pins ->
  length values = length pins ->
  pinset_fits NPINS (data (next_reply w)) ->
  result (skel_multiwritepin NPINS pins values) w =
    Ret (rc (next_reply (set_bus_env (tail (bus_env w)) w))) /\
  trace (after (skel_multiwritepin NPINS pins values) w) =
    trace w ++
    [EvLock; EvBusRead;
     EvBusWrite (apply_changes (data (next_reply w)) (zip pins values));
     EvUnlock] /\
  added is_bus w (after (skel_multiwritepin NPINS pins values) w) = 2 /\
  (forall b, 0 <= b ->
     Z.testbit (apply_changes (data (next_reply w)) (zip pins values)) b =
       default (Z.testbit (data (next_reply w)) b)
         (requested (zip pins values) b)).
Proof.
  intros Hn Hlock Hr Hlen Hps.
  destruct (skel_multiwritepin_run NPINS pins values w Hlock)
    as (merged & Hm & Hres & Htr & Hadd).
  { eapply Forall_impl; [exact Hr|cbn; lia]. }
  rewrite skel_multiwritepin_loop_in_range in Hm by (done || cbn; lia).
  rewrite drop_0 in Hm. injection Hm as <-.
  split; [done|]. split; [done|]. split; [done|].
  intros b Hb. apply apply_changes_testbit; [done|].
  clear -Hr. revert values.
  induction Hr as [|p pins Hp Hr IH]; intros [|v values]; cbn;
    try apply Forall_nil_2.
  apply Forall_cons. split; [cbn; lia|apply IH].
Qed.

Lemma Exists_nonempty {A} (P : A -> Prop) (l : list A) : Exists P l -> l <> [].
Proof. intros H ->. by apply Exists_nil in H. Qed.

(** C2, as the code has it.  For a pin index at or above the pin count:
    direction-set, single pin write and single pin read-actual stop on their
    assertion before the lock is taken and before any bus transaction, and
    return no error code; multi-pin write, read-actual and read-buffered take
    the lock, read the pinset, return [-ENXIO] without writing anything to
    the bus, and have released the lock when they return.  ([skel_option]
    and [skel_readbuf] check no range and are not part of the statement.) *)
Theorem out_of_range_pin_handling (NPINS : Z) (o : pin_op) (w : world) :
  checks_range o = true ->
  Exists (fun p => NPINS <= p) (pins_of o) ->
  lockable w ->
  out_of_range_behaviour NPINS o w.
Proof.
  intros Hchk Hex Hlock.
  destruct (lockable_locked w Hlock) as (e & s & Hl).
  destruct o as [pin d|pin opt val|pin v|pin|pin|pins values|pins values
                |pins values]; cbn [out_of_range_behaviour pin_call pins_of] in *;
    try discriminate Hchk.
  - (* skel_direction *)
    apply Exists_cons in Hex as [Hp|Hp]; [|by apply Exists_nil in Hp].
    unfold skel_direction. apply Z.ltb_ge in Hp. rewrite Hp. done.
  - (* skel_writepin *)
    apply Exists_cons in Hex as [Hp|Hp]; [|by apply Exists_nil in Hp].
    unfold skel_writepin. apply Z.ltb_ge in Hp. rewrite Hp. done.
  - (* skel_readpin *)
    apply Exists_cons in Hex as [Hp|Hp]; [|by apply Exists_nil in Hp].
    unfold skel_readpin. apply Z.ltb_ge in Hp. rewrite Hp. done.
  - (* skel_multiwritepin *)
    unfold result, after.
    rewrite (skel_multiwritepin_locked _ _ _ _ _ Hl).
    rewrite skel_multiwritepin_loop_out_of_range by done.
    cbn. rewrite <- !app_assoc. split; [done|]. split; [done|lia].
  - (* skel_multireadpin *)
    destruct (skel_multiread_locked NPINS pins values w _ Hl
                (Exists_nonempty _ _ Hex)) as [Hrun _].
    unfold result, after. rewrite (bind_ret _ _ _ _ _ Hrun).
    cbn [fst snd ret]. rewrite skel_getmultibits_loop_out_of_range by done.
    cbn. rewrite <- !app_assoc. split; [done|]. split; [done|lia].
  - (* skel_multireadbuf *)
    destruct (skel_multiread_locked NPINS pins values w _ Hl
                (Exists_nonempty _ _ Hex)) as [_ Hrun].
    unfold result, after. rewrite (bind_ret _ _ _ _ _ Hrun).
    cbn [fst snd ret]. rewrite skel_getmultibits_loop_out_of_range by done.
    cbn. rewrite <- !app_assoc. split; [done|]. split; [done|lia].
Qed.

(** C10.  When the first pin of the list that is out of range stands at
    position [i], both multi-pin reads return [-ENXIO], and the buffer they
    hand back has its entries before position [i] overwritten with the
    levels of the pins that were read, whatever they held before; the
    entries from position [i] on are as the caller left them. *)
Theorem skel_multiread_error_overwrites_prefix
    (NPINS : Z) (pins : list Z) (values : list bool) (w : world)
    (i : nat) (p : Z) :
  lockable w ->
  length values = length pins ->
  pins !! i = Some p ->
  NPINS <= p ->
  (forall j q, (j < i)%nat -> pins !! j = Some q -> q < NPINS) ->
  result (skel_multireadpin NPINS pins values) w =
    Ret (- ENXIO,
         (skel_pinbit (data (next_reply w)) <$> take i pins) ++ drop i values) /\
  result (skel_multireadbuf NPINS pins values) w =
    Ret (- ENXIO,
         (skel_pinbit (data (next_reply w)) <$> take i pins) ++ drop i values).
Proof.
  intros Hlock Hlen Hi Hp Hgood.
  destruct (lockable_locked w Hlock) as (e & s & Hl).
  assert (Hne : pins <> []) by (intros ->; discriminate).
  destruct (skel_multiread_locked NPINS pins values w _ Hl Hne) as [H1 H2].
  unfold result. rewrite H1, H2. cbn [fst]. rewrite next_reply_locked.
  assert (Hloop :
    skel_getmultibits_loop NPINS (data (next_reply w)) pins 0 values =
    (- ENXIO,
     (skel_pinbit (data (next_reply w)) <$> take i pins) ++ drop i values)).
  { rewrite <- (take_drop_middle pins i p Hi) at 1.
    rewrite <- (take_drop i values) at 1.
    apply (skel_getmultibits_loop_partial NPINS _ p _ (take i pins) []).
    - apply Forall_lookup_2. intros j q Hj.
      apply lookup_take_Some in Hj as [Hj Hlt]. by apply (Hgood j).
    - done.
    - rewrite !length_take. apply lookup_lt_Some in Hi. lia. }
  by rewrite Hloop.
Qed.

(** ** Relations kept by the whole driver *)

(** [skel_attach] once the lock is taken. *)
Lemma skel_attach_locked N ps callback (w wl : world) :
  skel_lock w = (Ret tt, wl) ->
  skel_attach N ps callback w =
    (Ret (snd (skel_attach_loop N 0 ps callback (cb (g_skel wl)) (- ENOSPC))),
     unlocked
       (set_dev
          (set_cb (fst (skel_attach_loop N 0 ps callback (cb (g_skel wl))
                          (- ENOSPC)))
             (g_skel wl))
          wl)).
Proof.
  intros Hl. unfold skel_attach.
  rewrite (bind_ret _ _ _ _ _ Hl), bind_gets.
  by destruct (skel_attach_loop N 0 ps callback (cb (g_skel wl)) (- ENOSPC)).
Qed.

(** The loop of [skel_attach] leaves every occupied entry as it is. *)
Lemma skel_attach_loop_occupied N ps callback t r i e :
  t !! i = Some e -> occupied e ->
  fst (skel_attach_loop N 0 ps callback t r) !! i = Some e.
Proof.
  intros Hi Hocc. rewrite skel_attach_loop_lookup, Hi.
  case_bool_decide; [|done]. cbn. by rewrite fill_occupied.
Qed.

Section KeepsAll.
Variable R : world -> world -> Prop.
Hypothesis R_refl : forall w, R w w.
Hypothesis R_trans : forall w1 w2 w3, R w1 w2 -> R w2 w3 -> R w1 w3.
Hypothesis R_waited : forall e s w, R w (waited e s w).
Hypothesis R_locked : forall e s w, R w (locked e s w).
Hypothesis R_post : keeps R sem_post.
Hypothesis R_bus : forall b e w,
  is_bus e = true -> R w (emit e (set_bus_env b w)).

(** What is left to show for the callback table, the interrupt source and
    the work queue. *)
Hypothesis R_table : forall t w,
  (forall i e, cb (g_skel w) !! i = Some e -> occupied e -> t !! i = Some e) ->
  R w (set_dev (set_cb t (g_skel w)) w).
Hypothesis R_event : forall e w,
  is_lock e = false -> is_unlock e = false -> R w (emit e w).
Hypothesis R_irq : forall b w, R w (set_irq b w).
Hypothesis R_work : forall q k w,
  R w (set_hpwork q (set_dev (set_work k (g_skel w)) w)).

Lemma keeps_attach N ps callback : keeps R (skel_attach N ps callback).
Proof using R_trans R_waited R_locked R_post R_table.
  intros w. unfold after.
  destruct (skel_lock_cases w) as (e & s & [Hl | [Hl | Hl]]).
  - rewrite (skel_attach_locked _ _ _ _ _ Hl). cbn [snd].
    eapply R_trans; [apply (R_locked e s)|].
    eapply R_trans; [|apply (R_post _)].
    apply R_table. intros i e0. apply skel_attach_loop_occupied.
  - unfold skel_attach. rewrite (bind_assert _ _ _ _ Hl). apply R_waited.
  - unfold skel_attach. rewrite (bind_blocked _ _ _ _ Hl). apply R_waited.
Qed.

Lemma keeps_irq_enable on : keeps R (skel_irq_enable on).
Proof using R_trans R_event R_irq.
  intros w. unfold after, skel_irq_enable, modify. cbn [snd].
  eapply R_trans; [apply (R_irq on)|]. apply R_event; by destruct on.
Qed.

Lemma keeps_irqworker_loop n : forall i ps,
  keeps R (skel_irqworker_loop n i ps).
Proof using R_refl R_trans R_event.
  induction n as [|n IH]; intros i ps; cbn [skel_irqworker_loop].
  - by apply keeps_ret.
  - apply keeps_bind; [assumption|by apply keeps_gets|intros t].
    destruct (t !! i) as [e|]; [|apply IH].
    apply keeps_bind; [assumption| |intros _; apply IH].
    repeat case_match; try by apply keeps_ret.
    intros w. by apply R_event.
Qed.

Lemma keeps_irqworker N : keeps R (skel_irqworker N).
Proof using R_refl R_trans R_bus R_event R_irq.
  unfold skel_irqworker, skel_readpinset.
  apply keeps_bind; [assumption|by apply keeps_bus_read|intros r].
  apply keeps_bind;
    [assumption|apply keeps_irqworker_loop|intros _; apply keeps_irq_enable].
Qed.

Lemma keeps_interrupt : keeps R skel_interrupt.
Proof using R_refl R_trans R_event R_irq R_work.
  unfold skel_interrupt.
  apply keeps_bind; [assumption|by apply keeps_gets|intros k].
  case_match; [|by apply keeps_ret].
  apply keeps_bind; [assumption|apply keeps_irq_enable|intros _].
  apply keeps_bind; [assumption| |intros _; by apply keeps_ret].
  intros w. unfold after, work_queue. cbn [snd].
  eapply R_trans; [apply R_work|]. by apply R_event.
Qed.

Lemma keeps_work_process N : keeps R (work_process N).
Proof using R_refl R_trans R_bus R_event R_irq R_work.
  unfold work_process.
  apply keeps_bind; [assumption|by apply keeps_gets|intros q].
  destruct q as [|[] q]; [by apply keeps_ret|].
  apply keeps_bind; [assumption| |intros _; apply keeps_irqworker].
  intros w. apply R_work.
Qed.

Lemma keeps_forget {A} (c : M A) : keeps R c -> keeps R (forget c).
Proof using R_refl R_trans.
  intros Hc. apply keeps_bind; [assumption|done|intros _; by apply keeps_ret].
Qed.

(** Every step of the machine keeps the relation, and so does every run. *)
Lemma keeps_exec NPINS N o : keeps R (exec NPINS N o).
Proof using All.
  destruct o; cbn [exec].
  - by apply keeps_forget, keeps_pin_call.
  - apply keeps_forget, keeps_attach.
  - apply keeps_forget, keeps_interrupt.
  - apply keeps_work_process.
Qed.

Lemma keeps_run NPINS N os : forall w, R w (run NPINS N os w).
Proof using All.
  induction os as [|o os IH]; intros w; cbn [run fold_left]; [done|].
  eapply R_trans; [apply (keeps_exec NPINS N o w)|apply IH].
Qed.
End KeepsAll.

(** *** The occupied entries of the callback table *)

Lemma cb_kept_refl w : cb_kept w w.
Proof. by intros i e. Qed.

Lemma cb_kept_trans w1 w2 w3 : cb_kept w1 w2 -> cb_kept w2 w3 -> cb_kept w1 w3.
Proof. intros H12 H23 i e Hi Hocc. apply H23; [|done]. by apply H12. Qed.

Lemma cb_kept_same (w w' : world) :
  cb (g_skel w') = cb (g_skel w) -> cb_kept w w'.
Proof. intros Heq i e Hi _. by rewrite Heq. Qed.

Lemma cb_kept_run NPINS N os w : cb_kept w (run NPINS N os w).
Proof.
  apply (keeps_run cb_kept); clear.
  - apply cb_kept_refl.
  - apply cb_kept_trans.
  - intros e s w. by apply cb_kept_same.
  - intros e s w. by apply cb_kept_same.
  - intros w. by apply cb_kept_same.
  - intros b e w _. by apply cb_kept_same.
  - intros t w Ht i e Hi Hocc. cbn. by apply Ht.
  - intros e w _ _. by apply cb_kept_same.
  - intros b w. by apply cb_kept_same.
  - intros q k w. by apply cb_kept_same.
Qed.

(** *** The balance of the semaphore *)

Lemma balance_emit e (w : world) :
  balance (emit e w) =
    balance w + (if is_lock e then 1 else 0) - (if is_unlock e then 1 else 0).
Proof.
  unfold balance, emit. cbn [g_skel trace].
  rewrite !List.filter_app, !length_app. cbn [List.filter].
  destruct (is_lock e), (is_unlock e); cbn [length]; lia.
Qed.

Lemma balance_kept_run NPINS N os w : balance_kept w (run NPINS N os w).
Proof.
  apply (keeps_run balance_kept); clear; unfold balance_kept.
  - done.
  - intros w1 w2 w3 H12 H23. by rewrite H23.
  - done.
  - intros e s w. unfold locked. rewrite balance_emit.
    unfold balance. cbn. lia.
  - intros w. unfold after, sem_post. cbn [snd]. rewrite balance_emit.
    unfold balance. cbn. lia.
  - intros b e w He. rewrite balance_emit.
    destruct e; try discriminate; cbn; unfold balance; cbn; lia.
  - done.
  - intros e w Hl Hu. rewrite balance_emit, Hl, Hu. lia.
  - done.
  - done.
Qed.

(** *** The lock is released on every path *)

Ltac lock_paths w :=
  let e := fresh "e" in
  let s := fresh "s" in
  let Hl := fresh "Hl" in
  destruct (skel_lock_cases w) as (e & s & [Hl | [Hl | Hl]]);
  [ rewrite ?(bind_ret _ _ _ _ _ Hl)
  | rewrite ?(bind_assert _ _ _ _ Hl)
  | rewrite ?(bind_blocked _ _ _ _ Hl) ].

Ltac assert_paths :=
  repeat match goal with
  | |- context [DEBUGASSERT ?c] =>
      lazymatch c with
      | true => rewrite ?bind_assert_true
      | false => rewrite ?bind_assert_false
      | _ => destruct c
      end
  end.

(** Whatever the outcome of a pin control call, the semaphore count is what
    it was before the call. *)
Lemma pin_call_releases NPINS o (w : world) :
  exclsem (g_skel (after (pin_call NPINS o) w)) = exclsem (g_skel w).
Proof.
  unfold after.
  destruct o as [pin d|pin opt val|pin v|pin|pin|pins values|pins values
                |pins values]; cbn [pin_call].
  - unfold skel_direction. assert_paths; [|done].
    lock_paths w; cbn; lia.
  - unfold skel_option. assert_paths.
    destruct (opt =? IOEXPANDER_OPTION_INVERT); [|done].
    lock_paths w; cbn; lia.
  - unfold skel_writepin. assert_paths; [|done].
    lock_paths w; cbn; lia.
  - unfold bind at 1, skel_readpin. assert_paths; [|done].
    lock_paths w; cbn; lia.
  - unfold bind at 1, skel_readbuf.
    lock_paths w; cbn; lia.
  - unfold skel_multiwritepin.
    lock_paths w; [|cbn; lia..].
    unfold skel_readpinset. rewrite (bind_ret _ _ _ _ _ (bus_read_eq _)).
    destruct (skel_multiwritepin_loop _ _ _ _ _); cbn; lia.
  - unfold bind at 1, skel_multireadpin. assert_paths; [|done].
    lock_paths w; cbn; lia.
  - unfold bind at 1, skel_multireadbuf. assert_paths; [|done].
    lock_paths w; cbn; lia.
Qed.

Lemma skel_attach_releases N ps callback (w : world) :
  sem_kept w (after (skel_attach N ps callback) w).
Proof.
  unfold sem_kept, after, skel_attach.
  lock_paths w; [|cbn; lia..].
  rewrite bind_gets.
  destruct (skel_attach_loop _ _ _ _ _ _); cbn; lia.
Qed.

Lemma after_forget {A} (c : M A) (w : world) : after (forget c) w = after c w.
Proof. unfold after, forget, bind. by destruct (c w) as [[a| |] w']. Qed.

(** Every step of the machine leaves the semaphore count as it found it. *)
Lemma exec_releases NPINS N o (w : world) :
  sem_kept w (after (exec NPINS N o) w).
Proof.
  destruct o as [o|ps callback| |]; cbn [exec]; rewrite ?after_forget.
  - apply pin_call_releases.
  - apply skel_attach_releases.
  - apply (keeps_interrupt sem_kept); unfold sem_kept; try done; congruence.
  - apply (keeps_work_process sem_kept); unfold sem_kept; try done; congruence.
Qed.

(** C7.  [skel_lock] tries again after every wait that was interrupted
    ([EINTR]) and takes the lock when the wait is granted; a wait that fails
    with any other error stops on the assertion, with the lock not taken.
    And every operation leaves the semaphore count as it found it, whatever
    its outcome, with as many unlocks as locks added to the trace: what is
    acquired is released on every exit path, error returns included. *)
Theorem skel_lock_retries_and_is_released (NPINS : Z) (N : nat) :
  (forall n rest (w : world),
     sem_env w = replicate n (Some EINTR) ++ None :: rest ->
     0 < exclsem (g_skel w) ->
     skel_lock w =
       (Ret tt, locked (if n is O then errno w else EINTR) rest w)) /\
  (forall n e rest (w : world),
     sem_env w = replicate n (Some EINTR) ++ Some e :: rest ->
     e <> EINTR ->
     skel_lock w = (AssertFailed, waited e rest w)) /\
  (forall o (w : world),
     exclsem (g_skel (after (exec NPINS N o) w)) = exclsem (g_skel w) /\
     added is_lock w (after (exec NPINS N o) w) =
       added is_unlock w (after (exec NPINS N o) w)).
Proof.
  split; [|split].
  - intros n rest w Hs Hc. unfold skel_lock.
    apply (skel_lock_loop_retries n); [|done|done].
    rewrite Hs, length_app, length_replicate. cbn. lia.
  - intros n e rest w Hs He. unfold skel_lock.
    apply (skel_lock_loop_asserts n); [|done|done].
    rewrite Hs, length_app, length_replicate. cbn. lia.
  - intros o w. pose proof (exec_releases NPINS N o w) as Hsem.
    split; [exact Hsem|].
    pose proof (balance_kept_run NPINS N [o] w) as Hbal.
    cbn [run fold_left] in Hbal.
    unfold balance_kept, balance, sem_kept, added in *. lia.
Qed.

(** ** The callback table *)

(** [skel_attach] on a table of [N] entries: every free entry is filled. *)
Lemma skel_attach_table N ps callback (w : world) :
  lockable w ->
  length (cb (g_skel w)) = N ->
  cb (g_skel (after (skel_attach N ps callback) w)) =
    fill ps callback <$> cb (g_skel w).
Proof.
  intros Hlock Hlen. destruct (lockable_locked w Hlock) as (e & s & Hl).
  unfold after. rewrite (skel_attach_locked _ _ _ _ _ Hl). cbn.
  apply skel_attach_loop_table. lia.
Qed.

(** After an attach of a callback that is not null no entry is free. *)
Lemma skel_attach_leaves_no_free_slot N ps callback (w : world) :
  lockable w ->
  length (cb (g_skel w)) = N ->
  callback <> NULL ->
  Forall occupied (cb (g_skel (after (skel_attach N ps callback) w))).
Proof.
  intros Hlock Hlen Hcb. rewrite skel_attach_table by done.
  apply Forall_fmap, Forall_forall. intros e _. unfold fill. cbn.
  destruct (cbfunc e =? NULL) eqn:He; [done|]. by apply Z.eqb_neq.
Qed.

(** An attach on a full table fails and changes no entry. *)
Lemma skel_attach_full N ps callback (w : world) :
  lockable w ->
  Forall occupied (cb (g_skel w)) ->
  result (skel_attach N ps callback) w = Ret (- ENOSPC) /\
  cb (g_skel (after (skel_attach N ps callback) w)) = cb (g_skel w).
Proof.
  intros Hlock Hfull. destruct (lockable_locked w Hlock) as (e & s & Hl).
  unfold result, after. rewrite (skel_attach_locked _ _ _ _ _ Hl).
  cbn [fst snd]. rewrite skel_attach_loop_full; [done|].
  intros j e' _ Hj. cbn in Hj.
  by eapply (Forall_lookup_1 _ _ _ _ Hfull).
Qed.

(** C1, on the code.  On a table of two free entries the first attach takes
    both entries, not one, and the second attach already fails with
    [-ENOSPC], leaving the table as the first one made it. *)
Theorem skel_attach_takes_every_free_entry :
  result (skel_attach 2 3 4096) (skel_boot 2) = Ret OK /\
  cb (g_skel (after (skel_attach 2 3 4096) (skel_boot 2))) =
    [Build_skel_callback_s 3 4096; Build_skel_callback_s 3 4096] /\
  result (skel_attach 2 12 4097) (after (skel_attach 2 3 4096) (skel_boot 2)) =
    Ret (- ENOSPC) /\
  cb (g_skel (after (skel_attach 2 12 4097)
                (after (skel_attach 2 3 4096) (skel_boot 2)))) =
    [Build_skel_callback_s 3 4096; Build_skel_callback_s 3 4096].
Proof. repeat split; reflexivity. Qed.

(** C9.  No step of the machine frees an occupied entry of the callback
    table: whatever was attached with a handler that is not null is found
    unchanged at the same index after every run.  An attach with a null
    callback detaches nothing: when the table has a free entry it returns
    [OK], writes the pinset and the null handler into the free entries and
    leaves every occupied entry as it is. *)
Theorem occupied_entries_are_never_freed (NPINS : Z) (N : nat) :
  (forall os (w : world) i e,
     cb (g_skel w) !! i = Some e -> occupied e ->
     cb (g_skel (run NPINS N os w)) !! i = Some e) /\
  (forall ps (w : world) k,
     lockable w ->
     length (cb (g_skel w)) = N ->
     (exists e, cb (g_skel w) !! k = Some e /\ cbfunc e = NULL) ->
     result (skel_attach N ps NULL) w = Ret OK /\
     forall i e, cb (g_skel w) !! i = Some e ->
       (occupied e ->
        cb (g_skel (after (skel_attach N ps NULL) w)) !! i = Some e) /\
       (cbfunc e = NULL ->
        cb (g_skel (after (skel_attach N ps NULL) w)) !! i =
          Some (Build_skel_callback_s ps NULL))).
Proof.
  split.
  - intros os w i e. apply cb_kept_run.
  - intros ps w k Hlock Hlen (e & Hk & He). split.
    + destruct (lockable_locked w Hlock) as (e' & s & Hl).
      unfold result. rewrite (skel_attach_locked _ _ _ _ _ Hl). cbn [fst].
      f_equal. apply (skel_attach_loop_ret_free _ _ _ _ _ _ k e); [|done|done].
      apply lookup_lt_Some in Hk. cbn in Hk. lia.
    + intros i e0 Hi. rewrite skel_attach_table by done.
      rewrite list_lookup_fmap, Hi. cbn. split; intros H.
      * by rewrite fill_occupied.
      * by rewrite fill_free.
Qed.

(** ** The top half and the pending bottom half *)

Lemma work_kept_refl w : work_kept w w.
Proof. by split. Qed.

Lemma work_kept_trans w1 w2 w3 :
  work_kept w1 w2 -> work_kept w2 w3 -> work_kept w1 w3.
Proof. intros [H1 H2] [H3 H4]. split; congruence. Qed.

Lemma one_pending_work_kept (w w' : world) :
  work_kept w w' -> one_pending w -> one_pending w'.
Proof. intros [Hw Hq]. unfold one_pending. by rewrite Hw, Hq. Qed.

(** Client calls do not touch the work structure or the queue. *)
Lemma work_kept_pin_call NPINS o : keeps work_kept (pin_call NPINS o).
Proof.
  apply keeps_pin_call;
    first [apply work_kept_refl | apply work_kept_trans | done].
Qed.

Lemma work_kept_attach N ps callback : keeps work_kept (skel_attach N ps callback).
Proof.
  apply keeps_attach;
    first [apply work_kept_refl | apply work_kept_trans | done].
Qed.

Lemma work_kept_irqworker N : keeps work_kept (skel_irqworker N).
Proof.
  apply keeps_irqworker;
    first [apply work_kept_refl | apply work_kept_trans | done].
Qed.

(** With a bottom half pending the top half does nothing at all. *)
Lemma skel_interrupt_pending (w : world) :
  work_available (work (g_skel w)) = false -> skel_interrupt w = (Ret OK, w).
Proof. intros H. unfold skel_interrupt. by rewrite bind_gets, H. Qed.

(** With none pending the top half masks the source and queues one. *)
Lemma skel_interrupt_available (w : world) :
  work_available (work (g_skel w)) = true ->
  skel_interrupt w =
    (Ret OK,
     emit (EvWorkQueue skel_irqworker_fn)
       (set_hpwork (hpwork w ++ [skel_irqworker_fn])
          (set_dev (set_work (Build_work_s (Some skel_irqworker_fn)) (g_skel w))
             (emit EvIrqDisable (set_irq false w))))).
Proof. intros H. unfold skel_interrupt. by rewrite bind_gets, H. Qed.

(** Every step of the machine keeps at most one bottom half pending. *)
Lemma one_pending_exec NPINS N o (w : world) :
  one_pending w -> one_pending (after (exec NPINS N o) w).
Proof.
  intros Hinv. destruct o as [o|ps callback| |]; cbn [exec];
    rewrite ?after_forget.
  - apply (one_pending_work_kept w); [apply work_kept_pin_call|done].
  - apply (one_pending_work_kept w); [apply work_kept_attach|done].
  - unfold after.
    destruct Hinv as [[Hw Hq] | [Hw Hq]].
    + rewrite skel_interrupt_available
        by (unfold work_available; by rewrite Hw).
      right. cbn. by rewrite Hq.
    + rewrite skel_interrupt_pending
        by (unfold work_available; by rewrite Hw).
      by right.
  - unfold after, work_process. rewrite bind_gets.
    destruct Hinv as [[Hw Hq] | [Hw Hq]]; rewrite Hq; cbn iota.
    + by left.
    + rewrite bind_modify.
      apply (one_pending_work_kept _ _ (work_kept_irqworker N _)).
      by left.
Qed.

Lemma one_pending_run NPINS N os : forall w,
  one_pending w -> one_pending (run NPINS N os w).
Proof.
  induction os as [|o os IH]; intros w Hinv; cbn [run fold_left]; [done|].
  by apply IH, one_pending_exec.
Qed.

(** C3.  While a bottom half is pending the top half returns without
    queueing a second one and without changing anything: the world after
    the call is the world before it.  In every state the machine reaches
    from initialisation at most one bottom half is on the queue, and the
    marker of the work structure is set exactly when one is; a top half that
    finds none pending queues exactly one. *)
Theorem skel_interrupt_queues_at_most_one (NPINS : Z) (N : nat) :
  (forall w : world,
     work_available (work (g_skel w)) = false ->
     skel_interrupt w = (Ret OK, w)) /\
  (forall os,
     one_pending (run NPINS N os (skel_boot N)) /\
     (length (hpwork (run NPINS N os (skel_boot N))) <= 1)%nat /\
     (work_available (work (g_skel (run NPINS N os (skel_boot N)))) = false <->
      hpwork (run NPINS N os (skel_boot N)) = [skel_irqworker_fn])) /\
  (forall os,
     work_available (work (g_skel (run NPINS N os (skel_boot N)))) = true ->
     hpwork (after skel_interrupt (run NPINS N os (skel_boot N))) =
       [skel_irqworker_fn]).
Proof.
  assert (Hinv : forall os, one_pending (run NPINS N os (skel_boot N))).
  { intros os. apply one_pending_run. by left. }
  split; [exact skel_interrupt_pending|]. split.
  - intros os. split; [apply Hinv|].
    destruct (Hinv os) as [[Hw Hq] | [Hw Hq]];
      unfold work_available; rewrite Hw, Hq; cbn; split; try lia; done.
  - intros os Hav. unfold after. rewrite skel_interrupt_available by done.
    destruct (Hinv os) as [[Hw Hq] | [Hw Hq]].
    + cbn [snd emit set_hpwork set_dev set_irq hpwork]. by rewrite Hq.
    + unfold work_available in Hav. by rewrite Hw in Hav.
Qed.

(** ** The scenario of the specification, and the theorems at work *)

(** C2 as the specification states it does not hold: with pin 8 of 8 pins,
    the multi-pin write returns [-ENXIO] but has taken the lock and read the
    bus, and the direction setter returns no error code at all. *)
Lemma out_of_range_is_not_rejected_untouched :
  Exists (fun p => 8 <= p) (pins_of (PMultiwritepin [8] [true])) /\
  trace (after (pin_call 8 (PMultiwritepin [8] [true])) (skel_boot 2)) =
    trace (skel_boot 2) ++ [EvLock; EvBusRead; EvUnlock] /\
  ~ rejected_untouched 8 (PMultiwritepin [8] [true]) (skel_boot 2) /\
  Exists (fun p => 8 <= p) (pins_of (PDirection 8 IOEXPANDER_DIRECTION_IN)) /\
  result (pin_call 8 (PDirection 8 IOEXPANDER_DIRECTION_IN)) (skel_boot 2) =
    AssertFailed /\
  ~ rejected_untouched 8 (PDirection 8 IOEXPANDER_DIRECTION_IN) (skel_boot 2).
Proof.
  split; [by apply Exists_cons_hd|].
  split; [reflexivity|].
  split; [intros [_ Htr]; vm_compute in Htr; discriminate|].
  split; [by apply Exists_cons_hd|].
  split; [reflexivity|].
  intros [Hres _]. vm_compute in Hres. discriminate.
Qed.

Lemma out_of_range_pin_handling_witness :
  out_of_range_behaviour 8 (PMultiwritepin [8] [true]) (skel_boot 2) /\
  out_of_range_behaviour 8 (PDirection 8 IOEXPANDER_DIRECTION_IN) (skel_boot 2).
Proof.
  split.
  - apply (out_of_range_pin_handling 8 (PMultiwritepin [8] [true]) (skel_boot 2)).
    + reflexivity.
    + apply Exists_cons_hd. lia.
    + reflexivity.
  - apply (out_of_range_pin_handling 8 (PDirection 8 IOEXPANDER_DIRECTION_IN)
             (skel_boot 2)).
    + reflexivity.
    + apply Exists_cons_hd. lia.
    + reflexivity.
Defined.

(** The two operations without a range check, at pin 8 of 8 pins: the
    buffered read goes through the locked region and returns the status of
    the bus, the option setter answers as for any other pin. *)
Lemma unchecked_pin_operations :
  skel_readbuf 8 (skel_boot 2) =
    (Ret (OK, false), emit_all [EvLock; EvBusRead; EvUnlock] (skel_boot 2)) /\
  skel_option 8 2 0 (skel_boot 2) = (Ret (- ENOSYS), skel_boot 2).
Proof. split; reflexivity. Qed.

(** A second interrupt while the first bottom half is pending. *)
Lemma skel_interrupt_queues_at_most_one_witness :
  skel_interrupt (run 8 2 [OpInterrupt] (skel_boot 2)) =
    (Ret OK, run 8 2 [OpInterrupt] (skel_boot 2)) /\
  hpwork (run 8 2 [OpInterrupt; OpInterrupt; OpInterrupt] (skel_boot 2)) =
    [skel_irqworker_fn].
Proof.
  split.
  - apply (proj1 (skel_interrupt_queues_at_most_one 8 2)). reflexivity.
  - apply (proj2 (proj2 (proj1 (proj2 (skel_interrupt_queues_at_most_one 8 2))
                           [OpInterrupt; OpInterrupt; OpInterrupt]))).
    reflexivity.
Defined.

(** The scenario: [cbA] is called with [0b00001], [cbB] is not called. *)
Lemma skel_irqworker_calls_matching_witness :
  trace (after (skel_irqworker 2) scenario_world) =
    trace scenario_world ++ [EvBusRead; EvCallback cbA 1; EvIrqEnable].
Proof.
  etransitivity.
  - refine (proj1 (proj2 (skel_irqworker_calls_matching 2 scenario_world 17
                            _ _ _))).
    + reflexivity.
    + apply Z.leb_le. reflexivity.
    + reflexivity.
  - vm_compute. reflexivity.
Defined.



(** Three changes on pins 1, 3 and 1 again of the pinset [0b10001]: one
    read, one write of [0b11001]. *)
Lemma skel_multiwritepin_one_read_one_write_witness :
  trace (after (skel_multiwritepin 8 [1; 3; 1] [true; true; false])
           scenario_world) =
    trace scenario_world ++ [EvLock; EvBusRead; EvBusWrite 25; EvUnlock].
Proof.
  etransitivity.
  - refine (proj1 (proj2 (skel_multiwritepin_one_read_one_write 8 [1; 3; 1]
                            [true; true; false] scenario_world _ _ _ _ _))).
    + apply Z.leb_le. reflexivity.
    + reflexivity.
    + repeat constructor; lia.
    + reflexivity.
    + vm_compute. split; [discriminate|reflexivity].
  - vm_compute. reflexivity.
Defined.

(** Two interrupted waits, then the lock; one interrupted wait, then an
    error that is not [EINTR]. *)
Lemma skel_lock_retries_and_is_released_witness :
  skel_lock (set_sem_env [Some EINTR; Some EINTR; None] (skel_boot 2)) =
    (Ret tt, locked EINTR [] (skel_boot 2)) /\
  result skel_lock (set_sem_env [Some EINTR; Some 5] (skel_boot 2)) =
    AssertFailed.
Proof.
  split.
  - apply (proj1 (skel_lock_retries_and_is_released 8 2) 2%nat []
             (set_sem_env [Some EINTR; Some EINTR; None] (skel_boot 2))).
    + reflexivity.
    + apply Z.ltb_lt. reflexivity.
  - unfold result.
    rewrite (proj1 (proj2 (skel_lock_retries_and_is_released 8 2)) 1%nat 5 []
               (set_sem_env [Some EINTR; Some 5] (skel_boot 2))).
    + reflexivity.
    + reflexivity.
    + discriminate.
Defined.

Lemma skel_option_unsupported_witness :
  skel_option 3 2 0 (skel_boot 2) = (Ret (- ENOSYS), skel_boot 2).
Proof.
  apply (proj1 (skel_option_unsupported 3 2 0 (skel_boot 2))). discriminate.
Defined.

(** Attaching a null callback and then another callback leaves [cbA] in
    place. *)
Lemma occupied_entries_are_never_freed_witness :
  cb (g_skel (run 8 2 [OpAttach 12 NULL; OpAttach 5 cbB]
                (with_table [Build_skel_callback_s 3 cbA;
                             Build_skel_callback_s 0 NULL] (skel_boot 2))))
    !! 0%nat = Some (Build_skel_callback_s 3 cbA).
Proof.
  apply (proj1 (occupied_entries_are_never_freed 8 2)).
  - reflexivity.
  - discriminate.
Defined.

(** Pin 9 at position 2 of the list: the first two entries of the buffer
    are overwritten, the call fails. *)
Lemma skel_multiread_error_overwrites_prefix_witness :
  result (skel_multireadpin 8 [0; 2; 9; 1] [false; true; false; true])
    scenario_world =
    Ret (- ENXIO, [true; false; false; true]).
Proof.
  etransitivity.
  - refine (proj1 (skel_multiread_error_overwrites_prefix 8 [0; 2; 9; 1]
                     [false; true; false; true] scenario_world 2 9 _ _ _ _ _)).
    + reflexivity.
    + reflexivity.
    + reflexivity.
    + lia.
    + intros [|[|j]] q Hj Hq; cbn in Hq; try lia; injection Hq as <-; lia.
  - vm_compute. reflexivity.
Defined.

(** * Further properties of the driver *)

(** ** [skel_attach] as a function of the table *)

Lemma has_free_true t :
  has_free t = true -> exists k e, t !! k = Some e /\ cbfunc e = NULL.
Proof.
  unfold has_free. rewrite existsb_exists. intros (e & Hin & He).
  apply list_elem_of_In, list_elem_of_lookup in Hin as [k Hk].
  exists k, e. split; [done|]. by apply Z.eqb_eq.
Qed.

Lemma has_free_false t : has_free t = false -> Forall occupied t.
Proof.
  unfold has_free. intros H. apply Forall_forall. intros e Hin He.
  apply list_elem_of_In in Hin.
  assert (existsb (fun e => cbfunc e =? NULL) t = true); [|congruence].
  apply existsb_exists. exists e. split; [done|]. by apply Z.eqb_eq.
Qed.

(** X1.  On a table of [N] entries [skel_attach] returns [OK] when the table
    has a free entry and [-ENOSPC] when it has none, and the table after the
    call is the table before it with every free entry replaced by the new
    pinset and callback (so unchanged when there was none). *)
Theorem skel_attach_result (N : nat) (ps : ioe_pinset_t)
    (callback : ioe_callback_t) (w : world) :
  lockable w ->
  length (cb (g_skel w)) = N ->
  result (skel_attach N ps callback) w =
    Ret (if has_free (cb (g_skel w)) then OK else - ENOSPC) /\
  cb (g_skel (after (skel_attach N ps callback) w)) =
    fill ps callback <$> cb (g_skel w) /\
  (has_free (cb (g_skel w)) = false ->
   cb (g_skel (after (skel_attach N ps callback) w)) = cb (g_skel w)).
Proof.
  intros Hlock Hlen. split; [|split].
  - destruct (lockable_locked w Hlock) as (e & s & Hl).
    unfold result. rewrite (skel_attach_locked _ _ _ _ _ Hl). cbn [fst].
    f_equal. change (cb (g_skel (locked e s w))) with (cb (g_skel w)).
    destruct (has_free (cb (g_skel w))) eqn:Hf.
    + apply has_free_true in Hf as (k & e0 & Hk & He).
      apply (skel_attach_loop_ret_free _ _ _ _ _ _ k e0); [|done|done].
      apply lookup_lt_Some in Hk. lia.
    + apply has_free_false in Hf. rewrite skel_attach_loop_full; [done|].
      intros j e' _ Hj. by eapply (Forall_lookup_1 _ _ _ _ Hf).
  - by apply skel_attach_table.
  - intros Hf. apply has_free_false in Hf.
    by apply skel_attach_full.
Qed.

Lemma skel_attach_result_witness :
  result (skel_attach 2 12 cbB)
    (with_table [Build_skel_callback_s 3 cbA; Build_skel_callback_s 0 NULL]
       (skel_boot 2)) = Ret OK /\
  result (skel_attach 2 12 cbB) (with_table scenario_table (skel_boot 2)) =
    Ret (- ENOSPC).
Proof.
  split.
  - etransitivity.
    + refine (proj1 (skel_attach_result 2 12 cbB _ _ _)); reflexivity.
    + reflexivity.
  - etransitivity.
    + refine (proj1 (skel_attach_result 2 12 cbB _ _ _)); reflexivity.
    + reflexivity.
Defined.

(** ** A full table *)

Lemma table_frozen_same (w w' : world) :
  cb (g_skel w') = cb (g_skel w) -> table_frozen w w'.
Proof. by intros H _. Qed.

Lemma table_frozen_trans w1 w2 w3 :
  table_frozen w1 w2 -> table_frozen w2 w3 -> table_frozen w1 w3.
Proof.
  intros H12 H23 Hfull. rewrite <- (H12 Hfull). apply H23.
  by rewrite (H12 Hfull).
Qed.

Lemma table_frozen_attach N ps callback : keeps table_frozen (skel_attach N ps callback).
Proof.
  intros w Hfull. unfold after.
  destruct (skel_lock_cases w) as (e & s & [Hl | [Hl | Hl]]).
  - rewrite (skel_attach_locked _ _ _ _ _ Hl). cbn [snd].
    change (cb (g_skel (locked e s w))) with (cb (g_skel w)).
    rewrite skel_attach_loop_full; [done|].
    intros j e' _ Hj. by eapply (Forall_lookup_1 _ _ _ _ Hfull).
  - unfold skel_attach. by rewrite (bind_assert _ _ _ _ Hl).
  - unfold skel_attach. by rewrite (bind_blocked _ _ _ _ Hl).
Qed.

Lemma table_frozen_exec NPINS N o : keeps table_frozen (exec NPINS N o).
Proof.
  destruct o as [o|ps callback| |]; cbn [exec].
  - apply keeps_forget; [by intros w _|apply table_frozen_trans|].
    apply keeps_pin_call;
      first [apply table_frozen_trans
            | unfold keeps; intros; by apply table_frozen_same].
  - apply keeps_forget; [by intros w _|apply table_frozen_trans|].
    apply table_frozen_attach.
  - apply keeps_forget; [by intros w _|apply table_frozen_trans|].
    apply keeps_interrupt;
      first [apply table_frozen_trans
            | unfold keeps; intros; by apply table_frozen_same].
  - apply keeps_work_process;
      first [apply table_frozen_trans
            | unfold keeps; intros; by apply table_frozen_same].
Qed.

Lemma table_frozen_run NPINS N os : forall w, table_frozen w (run NPINS N os w).
Proof.
  induction os as [|o os IH]; intros w; cbn [run fold_left]; [by intros _|].
  eapply table_frozen_trans; [apply (table_frozen_exec NPINS N o w)|apply IH].
Qed.

(** X2.  One attach of a callback that is not null uses up the whole table:
    after it every entry is occupied, no run of the driver changes the table
    any more, and every later attach, whatever it asks for, returns
    [-ENOSPC]. *)
Theorem skel_attach_once_fills_for_ever (NPINS : Z) (N : nat)
    (ps : ioe_pinset_t) (callback : ioe_callback_t) (w : world) :
  lockable w ->
  length (cb (g_skel w)) = N ->
  callback <> NULL ->
  Forall occupied (cb (g_skel (after (skel_attach N ps callback) w))) /\
  forall os,
    cb (g_skel (run NPINS N os (after (skel_attach N ps callback) w))) =
      cb (g_skel (after (skel_attach N ps callback) w)) /\
    forall ps' callback',
      lockable (run NPINS N os (after (skel_attach N ps callback) w)) ->
      result (skel_attach N ps' callback')
        (run NPINS N os (after (skel_attach N ps callback) w)) =
        Ret (- ENOSPC).
Proof.
  intros Hlock Hlen Hcb.
  pose proof (skel_attach_leaves_no_free_slot N ps callback w Hlock Hlen Hcb)
    as Hfull.
  split; [exact Hfull|]. intros os.
  pose proof (table_frozen_run NPINS N os _ Hfull) as Hsame.
  split; [exact Hsame|]. intros ps' callback' Hlock'.
  apply skel_attach_full; [done|]. by rewrite Hsame.
Qed.

Lemma skel_attach_once_fills_for_ever_witness :
  result (skel_attach 2 12 cbB)
    (run 8 2 [OpInterrupt; OpWorker; OpAttach 5 NULL]
       (after (skel_attach 2 3 cbA) (skel_boot 2))) = Ret (- ENOSPC).
Proof.
  refine (proj2 (proj2 (skel_attach_once_fills_for_ever 8 2 3 cbA (skel_boot 2)
                          _ _ _) [OpInterrupt; OpWorker; OpAttach 5 NULL])
            12 cbB _).
  - reflexivity.
  - reflexivity.
  - discriminate.
  - reflexivity.
Defined.

(** ** The top half on its own *)

(** Firing again right after the top half has run changes nothing. *)
Lemma skel_interrupt_again (w : world) :
  after skel_interrupt (after skel_interrupt w) = after skel_interrupt w.
Proof.
  unfold after.
  destruct (work_available (work (g_skel w))) eqn:Hav.
  - rewrite (skel_interrupt_available w Hav). cbn [snd].
    by rewrite skel_interrupt_pending by reflexivity.
  - rewrite (skel_interrupt_pending w Hav). cbn [snd].
    by rewrite (skel_interrupt_pending w Hav).
Qed.

(** X3.  The top half always returns [OK]; it never touches the semaphore,
    the bus or the callback table; and it is idempotent: firing again right
    after it has run changes nothing. *)
Theorem skel_interrupt_idempotent (w : world) :
  result skel_interrupt w = Ret OK /\
  after skel_interrupt (after skel_interrupt w) = after skel_interrupt w /\
  exclsem (g_skel (after skel_interrupt w)) = exclsem (g_skel w) /\
  cb (g_skel (after skel_interrupt w)) = cb (g_skel w) /\
  sem_env (after skel_interrupt w) = sem_env w /\
  bus_env (after skel_interrupt w) = bus_env w /\
  added is_lock w (after skel_interrupt w) = 0 /\
  added is_bus w (after skel_interrupt w) = 0.
Proof.
  unfold result, after, added.
  destruct (work_available (work (g_skel w))) eqn:Hav.
  - rewrite (skel_interrupt_available w Hav). cbn [fst snd].
    rewrite skel_interrupt_pending by reflexivity.
    cbn. rewrite <- !app_assoc, !List.filter_app. cbn.
    rewrite !app_nil_r. repeat split; lia.
  - rewrite (skel_interrupt_pending w Hav). cbn [fst snd].
    rewrite (skel_interrupt_pending w Hav). cbn [snd].
    repeat split; lia.
Qed.

Lemma run_app NPINS N os1 os2 (w : world) :
  run NPINS N (os1 ++ os2) w = run NPINS N os2 (run NPINS N os1 w).
Proof. unfold run. apply fold_left_app. Qed.

Lemma run_interrupts NPINS N k : forall w : world,
  run NPINS N (replicate (S k) OpInterrupt) w = after skel_interrupt w.
Proof.
  induction k as [|k IH]; intros w.
  - cbn. apply after_forget.
  - change (replicate (S (S k)) OpInterrupt)
      with ([OpInterrupt] ++ replicate (S k) OpInterrupt).
    rewrite run_app, IH. cbn [run fold_left exec]. rewrite after_forget.
    apply skel_interrupt_again.
Qed.

(** X4.  With nothing pending, any number of interrupts before the worker
    runs gives one bottom half: they leave the world as the first one did,
    with the source masked and one item queued; the run of the worker then
    empties the queue, marks the work structure available and leaves the
    source enabled again. *)
Theorem interrupt_storm_runs_one_bottom_half (NPINS : Z) (N k : nat)
    (w : world) :
  worker (work (g_skel w)) = None ->
  hpwork w = [] ->
  run NPINS N (replicate (S k) OpInterrupt) w = after skel_interrupt w /\
  irq_enabled (after skel_interrupt w) = false /\
  hpwork (after skel_interrupt w) = [skel_irqworker_fn] /\
  hpwork (run NPINS N (replicate (S k) OpInterrupt ++ [OpWorker]) w) = [] /\
  worker (work (g_skel
    (run NPINS N (replicate (S k) OpInterrupt ++ [OpWorker]) w))) = None /\
  irq_enabled (run NPINS N (replicate (S k) OpInterrupt ++ [OpWorker]) w) =
    true.
Proof.
  intros Hw Hq.
  assert (Hav : work_available (work (g_skel w)) = true)
    by (unfold work_available; by rewrite Hw).
  split; [apply run_interrupts|].
  rewrite run_app, run_interrupts. unfold after at 1 2.
  rewrite (skel_interrupt_available w Hav). cbn [snd].
  split; [reflexivity|]. split; [cbn; by rewrite Hq|].
  cbn [run fold_left exec]. unfold after, work_process.
  rewrite skel_interrupt_available by done. cbn [snd].
  rewrite bind_gets. cbn [hpwork emit set_hpwork]. rewrite Hq. cbn [app].
  rewrite bind_modify.
  match goal with
  | |- context [skel_irqworker N ?w1] =>
      pose proof (work_kept_irqworker N w1) as [Hwork Hhp];
      unfold after in Hwork, Hhp; rewrite Hwork, Hhp;
      destruct (Z_lt_le_dec (rc (next_reply w1)) 0) as [Hrc|Hrc];
      [rewrite (skel_irqworker_read_failed N w1 Hrc)
      |rewrite (skel_irqworker_read_ok N w1 Hrc)]
  end; done.
Qed.

Lemma interrupt_storm_runs_one_bottom_half_witness :
  trace (run 8 2 (replicate 3 OpInterrupt ++ [OpWorker]) scenario_world) =
    trace scenario_world ++
    [EvIrqDisable; EvWorkQueue skel_irqworker_fn; EvBusRead;
     EvCallback cbA 1; EvIrqEnable] /\
  irq_enabled (run 8 2 (replicate 3 OpInterrupt ++ [OpWorker]) scenario_world) =
    true.
Proof.
  split; [reflexivity|].
  refine (proj2 (proj2 (proj2 (proj2 (proj2
    (interrupt_storm_runs_one_bottom_half 8 2 2 scenario_world _ _)))))).
  - reflexivity.
  - reflexivity.
Defined.

(** ** The single pin operations *)

(** X5.  [skel_direction] accepts the input direction only: its assertion
    names [IOEXPANDER_DIRECTION_IN] twice, so every other direction, the
    output direction included, fails the assertion before the lock is taken,
    whatever the pin.  With the input direction and a pin in range the call
    goes through the locked region. *)
Theorem skel_direction_accepts_input_only (NPINS pin direction : Z)
    (w : world) :
  (direction <> IOEXPANDER_DIRECTION_IN ->
   skel_direction NPINS pin direction w = (AssertFailed, w)) /\
  (direction = IOEXPANDER_DIRECTION_IN -> pin < NPINS -> lockable w ->
   result (skel_direction NPINS pin direction) w = Ret (rc (next_reply w)) /\
   trace (after (skel_direction NPINS pin direction) w) =
     trace w ++ [EvLock; EvBusWrite direction; EvUnlock]).
Proof.
  unfold skel_direction. split.
  - intros Hd. apply Z.eqb_neq in Hd. rewrite Hd.
    by rewrite andb_false_r.
  - intros -> Hp Hlock. apply Z.ltb_lt in Hp.
    unfold result, after. rewrite Hp. cbn [andb orb].
    change (IOEXPANDER_DIRECTION_IN =? IOEXPANDER_DIRECTION_IN) with true.
    cbn [orb]. rewrite !bind_assert_true.
    destruct (lockable_locked w Hlock) as (e & s & Hl).
    rewrite !(bind_ret _ _ _ _ _ Hl). cbn. by rewrite <- !app_assoc.
Qed.

Lemma skel_direction_accepts_input_only_witness :
  skel_direction 8 3 IOEXPANDER_DIRECTION_OUT (skel_boot 2) =
    (AssertFailed, skel_boot 2) /\
  trace (after (skel_direction 8 3 IOEXPANDER_DIRECTION_IN) (skel_boot 2)) =
    trace (skel_boot 2) ++ [EvLock; EvBusWrite 0; EvUnlock].
Proof.
  split.
  - apply (proj1 (skel_direction_accepts_input_only 8 3
                    IOEXPANDER_DIRECTION_OUT (skel_boot 2))).
    discriminate.
  - refine (proj2 (proj2 (skel_direction_accepts_input_only 8 3
                            IOEXPANDER_DIRECTION_IN (skel_boot 2)) _ _ _)).
    + reflexivity.
    + reflexivity.
    + reflexivity.
Defined.

(** X6.  [skel_readbuf] looks at no range: for every pin index, also one at
    or above the pin count, it takes the lock, makes its register read,
    releases the lock and returns the status of the read, where
    [skel_readpin] stops on its assertion. *)
Theorem skel_readbuf_checks_no_range (NPINS pin : Z) (w : world) :
  lockable w ->
  (exists level,
     result (skel_readbuf pin) w = Ret (rc (next_reply w), level)) /\
  trace (after (skel_readbuf pin) w) =
    trace w ++ [EvLock; EvBusRead; EvUnlock] /\
  exclsem (g_skel (after (skel_readbuf pin) w)) = exclsem (g_skel w) /\
  (NPINS <= pin -> skel_readpin NPINS pin w = (AssertFailed, w)).
Proof.
  intros Hlock. destruct (lockable_locked w Hlock) as (e & s & Hl).
  unfold result, after, skel_readbuf, skel_readpin.
  rewrite !(bind_ret _ _ _ _ _ Hl). cbn.
  split; [by eexists|]. split; [by rewrite <- !app_assoc|]. split; [lia|].
  intros Hp. apply Z.ltb_ge in Hp. by rewrite Hp.
Qed.

Lemma skel_readbuf_checks_no_range_witness :
  trace (after (skel_readbuf 200) (skel_boot 2)) =
    trace (skel_boot 2) ++ [EvLock; EvBusRead; EvUnlock] /\
  skel_readpin 8 200 (skel_boot 2) = (AssertFailed, skel_boot 2).
Proof.
  split.
  - refine (proj1 (proj2 (skel_readbuf_checks_no_range 8 200 (skel_boot 2) _))).
    reflexivity.
  - refine (proj2 (proj2 (proj2
      (skel_readbuf_checks_no_range 8 200 (skel_boot 2) _))) _).
    + reflexivity.
    + lia.
Defined.

(** ** Multi-pin reads that succeed *)

(** With all pins in range the loop of [skel_getmultibits] writes the whole
    window of the buffer. *)
Lemma skel_getmultibits_loop_all NPINS ps pins :
  forall pre vs post,
  Forall (fun q => q < NPINS) pins ->
  length vs = length pins ->
  skel_getmultibits_loop NPINS ps pins (length pre) (pre ++ vs ++ post) =
  (OK, pre ++ (skel_pinbit ps <$> pins) ++ post).
Proof.
  induction pins as [|g pins IH]; intros pre vs post Hr Hlen;
    cbn [skel_getmultibits_loop].
  - by destruct vs.
  - apply Forall_cons in Hr as [Hg Hr].
    apply Z.leb_gt in Hg. rewrite Hg.
    destruct vs as [|v vs]; [discriminate|].
    rewrite insert_app_r_alt by lia. rewrite Nat.sub_diag. cbn [app].
    change (<[0%nat:=skel_pinbit ps g]> (v :: vs ++ post))
      with (skel_pinbit ps g :: vs ++ post).
    replace (S (length pre)) with (length (pre ++ [skel_pinbit ps g]))
      by (rewrite length_app; cbn; lia).
    rewrite (cons_middle (skel_pinbit ps g) pre (vs ++ post)), app_assoc.
    rewrite IH; [|done|by injection Hlen].
    rewrite fmap_cons. by rewrite <- app_assoc.
Qed.

(** X7.  With a list of pins that are all in range and a buffer of the same
    length, both multi-pin reads return [OK] after one register read inside
    the lock, and every entry of the buffer is written: entry [j] holds what
    the store in the loop of [skel_getmultibits] makes of the pinset read
    and [pins[j]], and nothing of what the caller had put there is left. *)
Theorem skel_multiread_fills_buffer (NPINS : Z) (pins : list Z)
    (values : list bool) (w : world) :
  lockable w ->
  pins <> [] ->
  Forall (fun p => p < NPINS) pins ->
  length values = length pins ->
  result (skel_multireadpin NPINS pins values) w =
    Ret (OK, skel_pinbit (data (next_reply w)) <$> pins) /\
  result (skel_multireadbuf NPINS pins values) w =
    Ret (OK, skel_pinbit (data (next_reply w)) <$> pins) /\
  trace (after (skel_multireadpin NPINS pins values) w) =
    trace w ++ [EvLock; EvBusRead; EvUnlock] /\
  trace (after (skel_multireadbuf NPINS pins values) w) =
    trace w ++ [EvLock; EvBusRead; EvUnlock].
Proof.
  intros Hlock Hne Hr Hlen.
  destruct (lockable_locked w Hlock) as (e & s & Hl).
  destruct (skel_multiread_locked NPINS pins values w _ Hl Hne) as [H1 H2].
  unfold result, after. rewrite H1, H2. cbn [fst snd].
  rewrite next_reply_locked.
  assert (Hloop :
    skel_getmultibits_loop NPINS (data (next_reply w)) pins 0 values =
    (OK, skel_pinbit (data (next_reply w)) <$> pins)).
  { pose proof (skel_getmultibits_loop_all NPINS (data (next_reply w)) pins
                  [] values []) as Hall.
    cbn [app length] in Hall. rewrite !app_nil_r in Hall.
    by rewrite Hall. }
  rewrite Hloop. cbn. by rewrite <- !app_assoc.
Qed.

Lemma skel_multiread_fills_buffer_witness :
  result (skel_multireadpin 8 [0; 2; 4] [false; true; false]) scenario_world =
    Ret (OK, skel_pinbit (data (next_reply scenario_world)) <$> [0; 2; 4]).
Proof.
  refine (proj1 (skel_multiread_fills_buffer 8 [0; 2; 4] [false; true; false]
                   scenario_world _ _ _ _)).
  - reflexivity.
  - discriminate.
  - repeat constructor; lia.
  - reflexivity.
Defined.

(** ** The pinset that a multi-pin write merges *)

Lemma requested_none changes b :
  Forall (fun c : Z * bool => fst c <> b) changes -> requested changes b = None.
Proof.
  induction changes as [|c l IH]; intros Hr; [done|].
  apply Forall_cons in Hr as [Hc Hr].
  rewrite requested_cons, IH by done.
  apply Z.eqb_neq in Hc. by rewrite Hc.
Qed.

(** X8.  Up to 32 pins, a batch of changes to pins in range keeps the
    pinset in range: when the pinset read has no bit at or above the pin
    count, the pinset that the loop of [skel_multiwritepin] hands to the
    write has none either. *)
Theorem skel_multiwritepin_loop_in_pin_count (NPINS : Z) (pins : list Z)
    (values : list bool) (ps : ioe_pinset_t) :
  NPINS <= 32 ->
  Forall (fun p => 0 <= p < NPINS) pins ->
  length values = length pins ->
  pinset_in_range NPINS ps ->
  exists ps', skel_multiwritepin_loop NPINS pins 0 values ps = Some ps' /\
              pinset_in_range NPINS ps'.
Proof.
  intros Hle Hr Hlen Hps.
  assert (Hn : 0 <= NPINS).
  { destruct (Z_lt_le_dec NPINS 0) as [Hneg|]; [|done].
    unfold pinset_in_range in Hps. rewrite Z.pow_neg_r in Hps by done. lia. }
  eexists. split.
  - rewrite skel_multiwritepin_loop_in_range;
      [|done|done|cbn; lia|apply pinset_in_range_fits; [lia|done]].
    by rewrite drop_0.
  - apply pinset_in_range_bits; [done|]. intros b Hb.
    assert (Hch : Forall (fun c : Z * bool => 0 <= fst c < NPINS) (zip pins values)).
    { clear -Hr. revert values.
      induction Hr as [|p pins Hp Hr IH]; intros [|v values]; cbn;
        try apply Forall_nil_2.
      apply Forall_cons. split; [done|apply IH]. }
    rewrite apply_changes_testbit;
      [|done|eapply Forall_impl; [exact Hch|cbn; lia]].
    destruct (b <? NPINS) eqn:Hlt; [done|]. cbn [andb].
    assert (Hge : NPINS <= b) by (by apply Z.ltb_ge).
    rewrite requested_none
      by (eapply Forall_impl; [exact Hch|cbn; lia]).
    cbn [default].
    pose proof (proj1 (pinset_in_range_bits NPINS ps Hn) Hps b Hb) as Hbit.
    rewrite Hbit, Hlt. done.
Qed.

Lemma skel_multiwritepin_loop_in_pin_count_witness :
  exists ps', skel_multiwritepin_loop 8 [1; 7; 1] 0 [true; true; false] 17 =
                Some ps' /\ pinset_in_range 8 ps'.
Proof.
  apply (skel_multiwritepin_loop_in_pin_count 8 [1; 7; 1] [true; true; false] 17).
  - apply Z.leb_le. reflexivity.
  - repeat constructor; lia.
  - reflexivity.
  - unfold pinset_in_range. lia.
Defined.

Lemma zip_in_range NPINS pins : forall values : list bool,
  Forall (fun p => 0 <= p < NPINS) pins ->
  Forall (fun c : Z * bool => 0 <= fst c) (zip pins values).
Proof.
  induction pins as [|p pins IH]; intros [|v values] Hr; cbn;
    try apply Forall_nil_2.
  apply Forall_cons in Hr as [Hp Hr].
  apply Forall_cons. split; [cbn; lia|by apply IH].
Qed.

Lemma skel_multiwritepin_loop_changes NPINS pins values ps :
  NPINS <= 32 ->
  Forall (fun p => 0 <= p < NPINS) pins ->
  length values = length pins ->
  pinset_fits NPINS ps ->
  skel_multiwritepin_loop NPINS pins 0 values ps =
    Some (apply_changes ps (zip pins values)).
Proof.
  intros Hn Hr Hlen Hps.
  rewrite skel_multiwritepin_loop_in_range by (done || cbn; lia).
  by rewrite drop_0.
Qed.

(** X9.  Up to 32 pins the merge of a batch is idempotent: applying the
    same batch of in-range changes to the pinset it has produced gives that
    pinset again. *)
Theorem skel_multiwritepin_loop_idempotent (NPINS : Z) (pins : list Z)
    (values : list bool) (ps : ioe_pinset_t) :
  NPINS <= 32 ->
  Forall (fun p => 0 <= p < NPINS) pins ->
  length values = length pins ->
  pinset_fits NPINS ps ->
  exists ps',
    skel_multiwritepin_loop NPINS pins 0 values ps = Some ps' /\
    skel_multiwritepin_loop NPINS pins 0 values ps' = Some ps'.
Proof.
  intros Hn Hr Hlen Hps.
  pose proof (skel_multiwritepin_loop_changes NPINS pins values ps
                Hn Hr Hlen Hps) as Hfirst.
  eexists. split; [exact Hfirst|].
  rewrite skel_multiwritepin_loop_changes;
    [|done|done|done|by eapply skel_multiwritepin_loop_fits].
  f_equal. apply Z.bits_inj'. intros b Hb.
  pose proof (zip_in_range NPINS pins values Hr) as Hch.
  rewrite !apply_changes_testbit by done.
  by destruct (requested (zip pins values) b).
Qed.

Lemma skel_multiwritepin_loop_idempotent_witness :
  exists ps',
    skel_multiwritepin_loop 8 [1; 3; 1] 0 [true; true; false] 17 = Some ps' /\
    skel_multiwritepin_loop 8 [1; 3; 1] 0 [true; true; false] ps' = Some ps'.
Proof.
  apply (skel_multiwritepin_loop_idempotent 8 [1; 3; 1] [true; true; false] 17).
  - apply Z.leb_le. reflexivity.
  - repeat constructor; lia.
  - reflexivity.
  - vm_compute. split; [discriminate|reflexivity].
Defined.

Lemma requested_Some_In changes b v :
  requested changes b = Some v -> In (b, v) changes.
Proof.
  induction changes as [|c l IH]; [done|].
  rewrite requested_cons. destruct (requested l b) as [v'|].
  - intros [= ->]. right. by apply IH.
  - destruct (Z.eqb_spec (fst c) b) as [<-|]; [|done].
    intros [= <-]. left. by destruct c.
Qed.

Lemma In_requested changes b v :
  NoDup (fst <$> changes) -> In (b, v) changes -> requested changes b = Some v.
Proof.
  induction changes as [|c l IH]; [done|].
  rewrite fmap_cons, NoDup_cons. intros [Hc Hnd] Hin.
  rewrite requested_cons. destruct Hin as [-> | Hin].
  - destruct (requested l b) as [v'|] eqn:Hreq.
    + exfalso. apply Hc. apply requested_Some_In in Hreq.
      apply list_elem_of_fmap. exists (b, v').
      split; [done|by apply list_elem_of_In].
    + cbn. by rewrite Z.eqb_refl.
  - by rewrite (IH Hnd Hin).
Qed.

Lemma requested_Permutation l1 l2 b :
  NoDup (fst <$> l1) -> l1 ≡ₚ l2 -> requested l1 b = requested l2 b.
Proof.
  intros Hnd Hp.
  assert (Hnd2 : NoDup (fst <$> l2)) by (by rewrite <- Hp).
  destruct (requested l1 b) as [v|] eqn:H1.
  - symmetry. apply In_requested; [done|].
    apply requested_Some_In in H1.
    apply list_elem_of_In. rewrite <- Hp. by apply list_elem_of_In.
  - destruct (requested l2 b) as [v|] eqn:H2; [|done].
    apply requested_Some_In in H2.
    rewrite (In_requested l1 b v) in H1; [done|done|].
    apply list_elem_of_In. rewrite Hp. by apply list_elem_of_In.
Qed.

(** X10.  Up to 32 pins, for pins that are all different the order of the
    batch does not matter: two batches of in-range changes that ask for the
    same levels on the same pins, listed in any order, merge into the same
    pinset. *)
Theorem skel_multiwritepin_loop_order (NPINS : Z) (pins pins' : list Z)
    (values values' : list bool) (ps : ioe_pinset_t) :
  NPINS <= 32 ->
  pinset_fits NPINS ps ->
  Forall (fun p => 0 <= p < NPINS) pins ->
  Forall (fun p => 0 <= p < NPINS) pins' ->
  length values = length pins ->
  length values' = length pins' ->
  NoDup pins ->
  zip pins values ≡ₚ zip pins' values' ->
  skel_multiwritepin_loop NPINS pins 0 values ps =
    skel_multiwritepin_loop NPINS pins' 0 values' ps /\
  exists ps', skel_multiwritepin_loop NPINS pins 0 values ps = Some ps'.
Proof.
  intros Hn Hps Hr Hr' Hlen Hlen' Hnd Hp.
  rewrite !skel_multiwritepin_loop_changes by done.
  split; [|by eexists]. f_equal.
  apply Z.bits_inj'. intros b Hb.
  rewrite !apply_changes_testbit by (done || by eapply zip_in_range).
  rewrite (requested_Permutation (zip pins values) (zip pins' values') b);
    [done| |done].
  rewrite fst_zip by lia. done.
Qed.

Lemma skel_multiwritepin_loop_order_witness :
  skel_multiwritepin_loop 8 [1; 3; 0] 0 [true; true; false] 17 =
    skel_multiwritepin_loop 8 [0; 1; 3] 0 [false; true; true] 17.
Proof.
  refine (proj1 (skel_multiwritepin_loop_order 8 [1; 3; 0] [0; 1; 3]
                   [true; true; false] [false; true; true] 17 _ _ _ _ _ _ _ _)).
  - apply Z.leb_le. reflexivity.
  - vm_compute. split; [discriminate|reflexivity].
  - repeat constructor; lia.
  - repeat constructor; lia.
  - reflexivity.
  - reflexivity.
  - by apply (bool_decide_unpack _).
  - cbn. rewrite (Permutation_swap (0, false) (3, true)).
    rewrite (Permutation_swap (0, false) (1, true)). done.
Defined.

(** ** The semaphore between operations *)

Lemma sem_kept_run NPINS N os : forall w,
  sem_kept w (run NPINS N os w).
Proof.
  induction os as [|o os IH]; intros w; [done|].
  change (run NPINS N (o :: os) w)
    with (run NPINS N os (after (exec NPINS N o) w)).
  unfold sem_kept in *. rewrite IH. apply exec_releases.
Qed.

(** X11.  In every state that the driver reaches from initialisation the
    semaphore count is 1: no operation returns, fails or blocks with the
    lock held, so the next operation finds the lock free unless its wait is
    interrupted. *)
Theorem semaphore_free_between_operations (NPINS : Z) (N : nat)
    (os : list op) :
  exclsem (g_skel (run NPINS N os (skel_boot N))) = 1 /\
  lockable (set_sem_env [] (run NPINS N os (skel_boot N))).
Proof.
  assert (Hsem : exclsem (g_skel (run NPINS N os (skel_boot N))) = 1).
  { by rewrite (sem_kept_run NPINS N os (skel_boot N)). }
  split; [exact Hsem|].
  unfold lockable, result, skel_lock. cbn [sem_env set_sem_env length].
  cbn [skel_lock_loop]. unfold bind, sem_wait.
  cbn [sem_env set_sem_env tail g_skel]. by rewrite Hsem.
Qed.

(** * Properties of the interrupt controller code *)

Section Efm32Properties.
Context `{chip : Chip}.

(** ** [efm32_irqinfo] *)

Lemma wrap32_range x : is_uint32 (wrap32 x).
Proof. apply Z.mod_pos_bound. lia. Qed.

Lemma wrap32_small x : is_uint32 x -> wrap32 x = x.
Proof. intros H. by apply Z.mod_small. Qed.

Lemma land_31_mod n : Z.land n 31 = n mod 32.
Proof. change 31 with (Z.ones 5). by rewrite Z.land_ones. Qed.

(** The bit of an external interrupt: one bit, inside 32 bits. *)
Lemma irq_bit n :
  wrap32 (Z.shiftl 1 (Z.land n 31)) = 2 ^ (n mod 32) /\
  1 <= 2 ^ (n mod 32) < 2 ^ 32.
Proof.
  rewrite land_31_mod, Z.shiftl_1_l.
  pose proof (Z.mod_pos_bound n 32 ltac:(lia)) as Hm.
  assert (Hr : 1 <= 2 ^ (n mod 32) < 2 ^ 32).
  { split.
    - apply (Z.pow_le_mono_r 2 0); lia.
    - apply Z.pow_lt_mono_r; lia. }
  split; [|done]. apply wrap32_small. unfold is_uint32. lia.
Qed.

(** X12.  [efm32_irqinfo] fails its assertion outside the interrupt numbers
    and otherwise returns [OK] exactly for the interrupts it can enable: an
    external interrupt with a vector gets the ENABLE register of its group
    of 32, moved by the offset, and the single bit of its number modulo 32;
    every other number gets [-EINVAL], with [*bit] untouched and [*regaddr]
    either untouched or already set to the system handler control
    register. *)
Theorem efm32_irqinfo_classifies (irq regaddr bit offset : Z) :
  chip_ok ->
  match efm32_irqinfo irq regaddr bit offset with
  | AssertFailed => irq < EFM32_IRQ_NMI \/ NR_IRQS <= irq
  | Blocked => False
  | Ret (r, ra, b) =>
      EFM32_IRQ_NMI <= irq < NR_IRQS /\
      ((r = OK /\ can_enable irq /\
        (EFM32_IRQ_INTERRUPTS <= irq ->
         ra = wrap32 (NVIC_IRQ_ENABLE (irq - EFM32_IRQ_INTERRUPTS) + offset) /\
         b = 2 ^ ((irq - EFM32_IRQ_INTERRUPTS) mod 32) /\
         1 <= b < 2 ^ 32)) \/
       (r = - EINVAL /\ ~ can_enable irq /\ b = bit /\
        (ra = regaddr \/ ra = NVIC_SYSHCON)))
  end.
Proof.
  intros (H1 & H2 & H3 & H4 & H5 & H6 & H7).
  unfold efm32_irqinfo, can_enable.
  destruct (EFM32_IRQ_NMI <=? irq) eqn:Hlo; cbn [andb negb];
    [|apply Z.leb_gt in Hlo; by left].
  destruct (irq <? NR_IRQS) eqn:Hhi; cbn [negb];
    [|apply Z.ltb_ge in Hhi; by right].
  apply Z.leb_le in Hlo. apply Z.ltb_lt in Hhi.
  destruct (EFM32_IRQ_INTERRUPTS <=? irq) eqn:Hext.
  - apply Z.leb_le in Hext.
    destruct (irq <? NR_VECTORS) eqn:Hvec.
    + apply Z.ltb_lt in Hvec. split; [lia|]. left.
      split; [done|]. split; [lia|]. intros _.
      destruct (irq_bit (irq - EFM32_IRQ_INTERRUPTS)) as [Hb Hr].
      by rewrite Hb.
    + apply Z.ltb_ge in Hvec. split; [lia|]. right.
      split; [done|]. split; [lia|]. split; [done|by left].
  - apply Z.leb_gt in Hext.
    destruct (Z.eqb_spec irq EFM32_IRQ_MEMFAULT);
      [split; [lia|]; left; split; [done|]; split; [lia|]; lia|].
    destruct (Z.eqb_spec irq EFM32_IRQ_BUSFAULT);
      [split; [lia|]; left; split; [done|]; split; [lia|]; lia|].
    destruct (Z.eqb_spec irq EFM32_IRQ_USAGEFAULT);
      [split; [lia|]; left; split; [done|]; split; [lia|]; lia|].
    destruct (Z.eqb_spec irq EFM32_IRQ_SYSTICK);
      [split; [lia|]; left; split; [done|]; split; [lia|]; lia|].
    split; [lia|]. right. split; [done|]. split; [lia|].
    split; [done|by right].
Qed.

End Efm32Properties.

Lemma chip_armv7m_ok gpio : @chip_ok (chip_armv7m gpio).
Proof. unfold chip_ok. destruct gpio; cbn; lia. Qed.

(** Interrupt 53, the 38th external one: second ENABLE register, bit 5;
    interrupt 11, the SVCall, cannot be enabled. *)
Lemma efm32_irqinfo_classifies_witness :
  @efm32_irqinfo (chip_armv7m false) 53 0 0 0 = Ret (OK, 0xe000e104, 32) /\
  @efm32_irqinfo (chip_armv7m false) 11 7 9 0 = Ret (- EINVAL, 0xe000ed24, 9) /\
  @can_enable (chip_armv7m false) 53 /\
  ~ @can_enable (chip_armv7m false) 11.
Proof.
  split; [reflexivity|]. split; [reflexivity|].
  pose proof (@efm32_irqinfo_classifies (chip_armv7m false) 53 0 0 0
                (chip_armv7m_ok false)) as H53.
  pose proof (@efm32_irqinfo_classifies (chip_armv7m false) 11 7 9 0
                (chip_armv7m_ok false)) as H11.
  change (@efm32_irqinfo (chip_armv7m false) 53 0 0 0)
    with (@Ret (Z * Z * Z) (OK, 0xe000e104, 32)) in H53.
  change (@efm32_irqinfo (chip_armv7m false) 11 7 9 0)
    with (@Ret (Z * Z * Z) (- EINVAL, 0xe000ed24, 9)) in H11.
  cbv iota beta in H53, H11.
  destruct H53 as [_ [(_ & Hc & _) | (Hr & _)]]; [|discriminate Hr].
  destruct H11 as [_ [(Hr & _) | (_ & Hn & _)]]; [discriminate Hr|].
  by split.
Defined.

(** ** 32-bit words, bit by bit *)

Lemma uint32_bits x :
  is_uint32 x <->
  (forall b, 0 <= b -> Z.testbit x b = (b <? 32) && Z.testbit x b).
Proof. apply (pinset_in_range_bits 32 x). lia. Qed.

Lemma uint32_high x b : is_uint32 x -> 32 <= b -> Z.testbit x b = false.
Proof.
  intros Hx Hb. rewrite (proj1 (uint32_bits x) Hx b) by lia.
  apply Z.ltb_ge in Hb. by rewrite Hb.
Qed.

Lemma wrap32_bits x b :
  0 <= b -> Z.testbit (wrap32 x) b = (b <? 32) && Z.testbit x b.
Proof. intros Hb. unfold wrap32. by rewrite Z.testbit_mod_pow2. Qed.

(** [regval & ~bit] in 32 bits clears the bits of [bit]. *)
Lemma land_wrap_lnot v bit :
  is_uint32 v -> Z.land v (wrap32 (Z.lnot bit)) = Z.ldiff v bit.
Proof.
  intros Hv. apply Z.bits_inj'. intros b Hb.
  rewrite Z.land_spec, Z.ldiff_spec, wrap32_bits, Z.lnot_spec by done.
  destruct (b <? 32) eqn:Hlt; [done|].
  apply Z.ltb_ge in Hlt. rewrite (uint32_high v b Hv Hlt). done.
Qed.

Lemma uint32_lor a b : is_uint32 a -> is_uint32 b -> is_uint32 (Z.lor a b).
Proof.
  intros Ha Hb. apply uint32_bits. intros i Hi. rewrite Z.lor_spec.
  destruct (i <? 32) eqn:Hlt; [done|]. apply Z.ltb_ge in Hlt.
  by rewrite (uint32_high a i Ha Hlt), (uint32_high b i Hb Hlt).
Qed.

Lemma uint32_ldiff a b : is_uint32 a -> is_uint32 (Z.ldiff a b).
Proof.
  intros Ha. apply uint32_bits. intros i Hi. rewrite Z.ldiff_spec.
  destruct (i <? 32) eqn:Hlt; [done|]. apply Z.ltb_ge in Hlt.
  by rewrite (uint32_high a i Ha Hlt).
Qed.

Lemma ldiff_lor_same v bit : Z.ldiff (Z.lor v bit) bit = Z.ldiff v bit.
Proof.
  apply Z.bits_inj'. intros b Hb. rewrite !Z.ldiff_spec, Z.lor_spec.
  by destruct (Z.testbit v b), (Z.testbit bit b).
Qed.

Lemma lor_ldiff_same v bit : Z.lor (Z.ldiff v bit) bit = Z.lor v bit.
Proof.
  apply Z.bits_inj'. intros b Hb. rewrite !Z.lor_spec, Z.ldiff_spec.
  by destruct (Z.testbit v b), (Z.testbit bit b).
Qed.

Section Efm32EnableDisable.
Context `{chip : Chip}.

(** [efm32_irqinfo] on an external interrupt with a vector. *)
Lemma efm32_irqinfo_external irq regaddr bit offset :
  chip_ok ->
  EFM32_IRQ_INTERRUPTS <= irq < NR_VECTORS ->
  efm32_irqinfo irq regaddr bit offset =
    Ret (OK, wrap32 (NVIC_IRQ_ENABLE (irq - EFM32_IRQ_INTERRUPTS) + offset),
         2 ^ ((irq - EFM32_IRQ_INTERRUPTS) mod 32)).
Proof.
  intros (H1 & H2 & H3 & H4 & H5 & H6 & H7) Hirq. unfold efm32_irqinfo.
  rewrite (proj2 (Z.leb_le EFM32_IRQ_NMI irq)) by lia.
  rewrite (proj2 (Z.ltb_lt irq NR_IRQS)) by lia. cbn [andb negb].
  rewrite (proj2 (Z.leb_le EFM32_IRQ_INTERRUPTS irq)) by lia.
  rewrite (proj2 (Z.ltb_lt irq NR_VECTORS)) by lia.
  by rewrite (proj1 (irq_bit (irq - EFM32_IRQ_INTERRUPTS))).
Qed.

(** [efm32_irqinfo] on a number it cannot enable. *)
Lemma efm32_irqinfo_unsupported irq regaddr bit offset :
  chip_ok ->
  EFM32_IRQ_NMI <= irq < NR_IRQS ->
  ~ can_enable irq ->
  exists ra, efm32_irqinfo irq regaddr bit offset = Ret (- EINVAL, ra, bit).
Proof.
  intros (H1 & H2 & H3 & H4 & H5 & H6 & H7) Hirq Hno.
  unfold can_enable in Hno. unfold efm32_irqinfo.
  rewrite (proj2 (Z.leb_le EFM32_IRQ_NMI irq)) by lia.
  rewrite (proj2 (Z.ltb_lt irq NR_IRQS)) by lia. cbn [andb negb].
  destruct (EFM32_IRQ_INTERRUPTS <=? irq) eqn:Hext.
  - apply Z.leb_le in Hext.
    rewrite (proj2 (Z.ltb_ge irq NR_VECTORS)) by lia. by eexists.
  - rewrite (proj2 (Z.eqb_neq irq EFM32_IRQ_MEMFAULT)) by lia.
    rewrite (proj2 (Z.eqb_neq irq EFM32_IRQ_BUSFAULT)) by lia.
    rewrite (proj2 (Z.eqb_neq irq EFM32_IRQ_USAGEFAULT)) by lia.
    rewrite (proj2 (Z.eqb_neq irq EFM32_IRQ_SYSTICK)) by lia.
    by eexists.
Qed.

(** For a processor exception the offset plays no part. *)
Lemma efm32_irqinfo_exception_offset irq regaddr bit offset offset' :
  irq < EFM32_IRQ_INTERRUPTS ->
  efm32_irqinfo irq regaddr bit offset = efm32_irqinfo irq regaddr bit offset'.
Proof.
  intros Hirq. unfold efm32_irqinfo.
  by rewrite (proj2 (Z.leb_gt EFM32_IRQ_INTERRUPTS irq)) by lia.
Qed.

(** X13.  To enable or disable an external interrupt the code makes one
    register write and no read: the single bit of the interrupt goes to the
    ENABLE register of its group of 32 to enable it and to the register at
    the CLEAR ENABLE offset from it to disable it, so the state of the other
    31 interrupts of the group is neither read nor rewritten. *)
Theorem up_enable_disable_external (irq : Z) (s : nvic) :
  chip_ok ->
  EFM32_IRQ_INTERRUPTS <= irq < NR_VECTORS ->
  up_enable_irq irq s =
    (Ret tt,
     putreg32 (2 ^ ((irq - EFM32_IRQ_INTERRUPTS) mod 32))
       (wrap32 (NVIC_IRQ_ENABLE (irq - EFM32_IRQ_INTERRUPTS) + 0)) s) /\
  up_disable_irq irq s =
    (Ret tt,
     putreg32 (2 ^ ((irq - EFM32_IRQ_INTERRUPTS) mod 32))
       (wrap32 (NVIC_IRQ_ENABLE (irq - EFM32_IRQ_INTERRUPTS) +
                (NVIC_IRQ0_31_CLEAR - NVIC_IRQ0_31_ENABLE))) s) /\
  accesses (snd (up_enable_irq irq s)) =
    accesses s ++
    [RegWrite (wrap32 (NVIC_IRQ_ENABLE (irq - EFM32_IRQ_INTERRUPTS) + 0))
       (2 ^ ((irq - EFM32_IRQ_INTERRUPTS) mod 32))].
Proof.
  intros Hok Hirq. unfold up_enable_irq, up_disable_irq.
  rewrite !efm32_irqinfo_external by done.
  change (OK =? 0) with true. cbn iota.
  rewrite (proj2 (Z.leb_le EFM32_IRQ_INTERRUPTS irq)) by lia.
  done.
Qed.

(** X14.  For a processor exception that can be enabled the code reads the
    control register, sets the bit to enable and clears it to disable, and
    writes the register back; no other register changes.  Disabling after
    enabling leaves the register as disabling alone does, and enabling after
    disabling as enabling alone does. *)
Theorem up_enable_disable_exception (irq ra bit : Z) (s : nvic) :
  irq < EFM32_IRQ_INTERRUPTS ->
  efm32_irqinfo irq 0 0 NVIC_ENA_OFFSET = Ret (OK, ra, bit) ->
  is_uint32 bit ->
  is_uint32 (regs s ra) ->
  up_enable_irq irq s =
    (Ret tt, putreg32 (Z.lor (regs s ra) bit) ra (snd (getreg32 ra s))) /\
  up_disable_irq irq s =
    (Ret tt, putreg32 (Z.ldiff (regs s ra) bit) ra (snd (getreg32 ra s))) /\
  regs (snd (up_disable_irq irq (snd (up_enable_irq irq s)))) ra =
    Z.ldiff (regs s ra) bit /\
  regs (snd (up_enable_irq irq (snd (up_disable_irq irq s)))) ra =
    Z.lor (regs s ra) bit /\
  (forall a, a <> ra ->
     regs (snd (up_disable_irq irq (snd (up_enable_irq irq s)))) a = regs s a /\
     regs (snd (up_enable_irq irq (snd (up_disable_irq irq s)))) a = regs s a).
Proof.
  intros Hirq Hinfo Hbit Hv.
  assert (Hen : forall s', up_enable_irq irq s' =
    (Ret tt, putreg32 (Z.lor (regs s' ra) bit) ra (snd (getreg32 ra s')))).
  { intros s'. unfold up_enable_irq. rewrite Hinfo.
    change (OK =? 0) with true. cbn iota.
    by rewrite (proj2 (Z.leb_gt EFM32_IRQ_INTERRUPTS irq)) by lia. }
  assert (Hdis : forall s', is_uint32 (regs s' ra) -> up_disable_irq irq s' =
    (Ret tt, putreg32 (Z.ldiff (regs s' ra) bit) ra (snd (getreg32 ra s')))).
  { intros s' Hv'. unfold up_disable_irq.
    rewrite (efm32_irqinfo_exception_offset irq 0 0 _ NVIC_ENA_OFFSET Hirq).
    rewrite Hinfo. change (OK =? 0) with true. cbn iota.
    rewrite (proj2 (Z.leb_gt EFM32_IRQ_INTERRUPTS irq)) by lia.
    cbn [getreg32 snd]. by rewrite land_wrap_lnot. }
  split; [apply Hen|]. split; [by apply Hdis|].
  rewrite Hen, (Hdis s Hv). cbn [snd].
  rewrite Hdis, Hen; cbn [snd putreg32 getreg32 regs];
    rewrite ?fn_lookup_insert; [|by apply uint32_lor].
  split; [apply ldiff_lor_same|]. split; [apply lor_ldiff_same|].
  intros a Ha. by rewrite !fn_lookup_insert_ne.
Qed.

(** X15.  For a number it cannot enable (an exception such as the NMI or the
    SVCall, or a number past the vectors) the code touches no register:
    without the GPIO interrupt code nothing happens at all; with it the
    number is handed to the GPIO code, the processor exceptions included. *)
Theorem up_enable_disable_unsupported (irq : Z) (s : nvic) :
  chip_ok ->
  EFM32_IRQ_NMI <= irq < NR_IRQS ->
  ~ can_enable irq ->
  up_enable_irq irq s =
    (Ret tt, if CONFIG_EFM32_GPIO_IRQ then efm32_gpioirqenable irq s else s) /\
  up_disable_irq irq s =
    (Ret tt, if CONFIG_EFM32_GPIO_IRQ then efm32_gpioirqdisable irq s else s) /\
  regs (snd (up_enable_irq irq s)) = regs s /\
  regs (snd (up_disable_irq irq s)) = regs s.
Proof.
  intros Hok Hirq Hno. unfold up_enable_irq, up_disable_irq.
  destruct (efm32_irqinfo_unsupported irq 0 0 NVIC_ENA_OFFSET Hok Hirq Hno)
    as [ra ->].
  destruct (efm32_irqinfo_unsupported irq 0 0 NVIC_CLRENA_OFFSET Hok Hirq Hno)
    as [ra' ->].
  change (- EINVAL =? 0) with false. cbn iota.
  by destruct CONFIG_EFM32_GPIO_IRQ.
Qed.

End Efm32EnableDisable.

Lemma up_enable_disable_external_witness :
  accesses (snd (@up_enable_irq (chip_armv7m false) 53 nvic_zero)) =
    [RegWrite 0xe000e104 32] /\
  accesses (snd (@up_disable_irq (chip_armv7m false) 53 nvic_zero)) =
    [RegWrite 0xe000e184 32].
Proof.
  pose proof (@up_enable_disable_external (chip_armv7m false) 53 nvic_zero
                (chip_armv7m_ok false)) as H.
  destruct H as (Hen & Hdis & _); [cbn; lia|].
  rewrite Hen, Hdis. split; reflexivity.
Defined.

(** The memory fault exception, with the bus fault already enabled. *)
Lemma up_enable_disable_exception_witness :
  regs (snd (@up_disable_irq (chip_armv7m false) 4
          (snd (@up_enable_irq (chip_armv7m false) 4
             (putreg32 (2 ^ 17) 0xe000ed24 nvic_zero)))))
    0xe000ed24 = 2 ^ 17.
Proof.
  etransitivity.
  - refine (proj1 (proj2 (proj2
      (@up_enable_disable_exception (chip_armv7m false) 4 0xe000ed24 (2 ^ 16)
         (putreg32 (2 ^ 17) 0xe000ed24 nvic_zero) _ _ _ _)))).
    + cbn. lia.
    + reflexivity.
    + unfold is_uint32. lia.
    + unfold is_uint32. cbn. rewrite fn_lookup_insert. lia.
  - cbn. rewrite fn_lookup_insert. reflexivity.
Defined.

(** The SVCall cannot be enabled; with the GPIO interrupt code configured it
    is handed to that code. *)
Lemma up_enable_disable_unsupported_witness :
  accesses (snd (@up_enable_irq (chip_armv7m true) 11 nvic_zero)) =
    [GpioIrqEnable 11] /\
  accesses (snd (@up_enable_irq (chip_armv7m false) 11 nvic_zero)) = [].
Proof.
  assert (Hno : forall gpio, ~ @can_enable (chip_armv7m gpio) 11).
  { intros gpio. unfold can_enable. destruct gpio; cbn; lia. }
  split.
  - rewrite (proj1 (@up_enable_disable_unsupported (chip_armv7m true) 11
                      nvic_zero (chip_armv7m_ok true) ltac:(cbn; lia)
                      (Hno true))).
    reflexivity.
  - rewrite (proj1 (@up_enable_disable_unsupported (chip_armv7m false) 11
                      nvic_zero (chip_armv7m_ok false) ltac:(cbn; lia)
                      (Hno false))).
    reflexivity.
Defined.

(** ** Priorities *)

Lemma byte_high d x : 0 <= d < 256 -> x < 0 \/ 8 <= x -> Z.testbit d x = false.
Proof.
  intros Hd [Hx|Hx]; [by apply Z.testbit_neg_r|].
  assert (Hm : d mod 2 ^ 8 = d) by (apply Z.mod_small; lia).
  rewrite <- Hm, Z.testbit_mod_pow2 by lia.
  by rewrite (proj2 (Z.ltb_ge x 8)) by lia.
Qed.

Lemma testbit_255 i : Z.testbit 255 i = (0 <=? i) && (i <? 8).
Proof. change 255 with (Z.ones 8). apply Z.testbit_ones. lia. Qed.

Lemma byte_of_bits x j i :
  0 <= j -> 0 <= i ->
  Z.testbit (byte_of x j) i = (i <? 8) && Z.testbit x (i + 8 * j).
Proof.
  intros Hj Hi. unfold byte_of.
  rewrite Z.land_spec, Z.shiftr_spec, testbit_255 by done.
  rewrite (proj2 (Z.leb_le 0 i)) by done. cbn [andb]. apply andb_comm.
Qed.

(** Bit by bit, [set_priority_byte] puts the priority into the byte at
    [shift] and keeps the other bits of the word. *)
Lemma set_priority_byte_bits v p k b :
  is_uint32 v -> 0 <= p < 256 -> 0 <= k < 4 -> 0 <= b ->
  Z.testbit (set_priority_byte v p (8 * k)) b =
    if (8 * k <=? b) && (b <? 8 * k + 8)
    then Z.testbit p (b - 8 * k)
    else Z.testbit v b.
Proof.
  intros Hv Hp Hk Hb. unfold set_priority_byte.
  rewrite Z.lor_spec, Z.land_spec, !wrap32_bits, Z.lnot_spec by done.
  rewrite !Z.shiftl_spec, testbit_255 by done.
  destruct (Z.leb_spec (8 * k) b) as [Hlo|Hlo];
    destruct (Z.ltb_spec b (8 * k + 8)) as [Hhi|Hhi]; cbn [andb].
  - rewrite (proj2 (Z.ltb_lt b 32)) by lia.
    rewrite (proj2 (Z.leb_le 0 (b - 8 * k))) by lia.
    rewrite (proj2 (Z.ltb_lt (b - 8 * k) 8)) by lia.
    cbn. by rewrite andb_false_r.
  - rewrite (byte_high p (b - 8 * k)) by lia.
    rewrite (proj2 (Z.ltb_ge (b - 8 * k) 8)) by lia.
    rewrite !andb_false_r, orb_false_r. cbn [negb].
    destruct (b <? 32) eqn:Hlt; cbn [andb]; [by rewrite andb_true_r|].
    apply Z.ltb_ge in Hlt. by rewrite (uint32_high v b Hv Hlt).
  - rewrite (byte_high p (b - 8 * k)) by lia.
    rewrite (proj2 (Z.leb_gt 0 (b - 8 * k))) by lia.
    rewrite !andb_false_r, orb_false_r. cbn [andb negb].
    rewrite (proj2 (Z.ltb_lt b 32)) by lia. by rewrite andb_true_r.
  - lia.
Qed.

(** Byte by byte. *)
Lemma set_priority_byte_lanes v p k :
  is_uint32 v -> 0 <= p < 256 -> 0 <= k < 4 ->
  byte_of (set_priority_byte v p (8 * k)) k = p /\
  (forall j, 0 <= j < 4 -> j <> k ->
     byte_of (set_priority_byte v p (8 * k)) j = byte_of v j) /\
  is_uint32 (set_priority_byte v p (8 * k)).
Proof.
  intros Hv Hp Hk. split; [|split].
  - apply Z.bits_inj'. intros i Hi.
    rewrite byte_of_bits, set_priority_byte_bits by (assumption || lia).
    rewrite (proj2 (Z.leb_le (8 * k) (i + 8 * k))) by lia. cbn [andb].
    destruct (Z.ltb_spec i 8) as [Hlt|Hge].
    + rewrite (proj2 (Z.ltb_lt (i + 8 * k) (8 * k + 8))) by lia.
      cbn [andb]. f_equal. lia.
    + cbn [andb]. symmetry. apply byte_high; lia.
  - intros j Hj Hne. apply Z.bits_inj'. intros i Hi.
    rewrite !byte_of_bits, set_priority_byte_bits by (assumption || lia).
    destruct (Z.ltb_spec i 8) as [Hlt|Hge]; [|done]. cbn [andb].
    destruct (Z.leb_spec (8 * k) (i + 8 * j)) as [Hlo|Hlo]; [|done].
    rewrite (proj2 (Z.ltb_ge (i + 8 * j) (8 * k + 8))) by lia. done.
  - apply uint32_bits. intros b Hb.
    rewrite set_priority_byte_bits by done.
    destruct (Z.ltb_spec b 32) as [Hlt|Hge]; [done|]. cbn [andb].
    rewrite (proj2 (Z.ltb_ge b (8 * k + 8))) by lia.
    rewrite andb_false_r. by apply uint32_high.
Qed.

Lemma land_3_mod n : Z.land n 3 = n mod 4.
Proof. change 3 with (Z.ones 2). by rewrite Z.land_ones. Qed.

Section Efm32Priority.
Context `{chip : Chip}.

(** [up_prioritize_irq] when its assertion holds. *)
Lemma up_prioritize_irq_run irq priority (s : nvic) :
  EFM32_IRQ_MEMFAULT <= irq < NR_VECTORS ->
  0 <= priority <= NVIC_SYSH_PRIORITY_MIN ->
  NVIC_SYSH_PRIORITY_MIN < 256 ->
  up_prioritize_irq irq priority s =
    (Ret OK,
     putreg32
       (set_priority_byte (regs s (priority_reg irq)) priority
          (8 * priority_lane irq))
       (priority_reg irq) (snd (getreg32 (priority_reg irq) s))).
Proof.
  intros Hirq Hp Hmin. unfold up_prioritize_irq, priority_reg, priority_lane.
  rewrite (proj2 (Z.leb_le EFM32_IRQ_MEMFAULT irq)) by lia.
  rewrite (proj2 (Z.ltb_lt irq NR_VECTORS)) by lia.
  rewrite (wrap32_small priority) by (unfold is_uint32; lia).
  rewrite (proj2 (Z.leb_le priority NVIC_SYSH_PRIORITY_MIN)) by lia.
  cbn [andb negb].
  destruct (irq <? EFM32_IRQ_INTERRUPTS); cbn [getreg32 snd].
  - rewrite land_3_mod, Z.shiftl_mul_pow2 by lia.
    replace ((irq - 4) mod 4) with (irq mod 4)
      by (rewrite <- (Z.mod_add (irq - 4) 1 4) by lia; f_equal; lia).
    do 3 f_equal. lia.
  - rewrite land_3_mod, Z.shiftl_mul_pow2 by lia.
    do 3 f_equal. lia.
Qed.

(** X16.  When its assertion holds [up_prioritize_irq] returns [OK], never
    [-EINVAL], after one read and one write of the priority register of the
    interrupt: the byte of the interrupt (its number modulo 4, counted from
    the first external interrupt for those) holds the new priority, the
    other three bytes of the register and all other registers are as they
    were. *)
Theorem up_prioritize_irq_sets_one_byte (irq priority : Z) (s : nvic) :
  EFM32_IRQ_MEMFAULT <= irq < NR_VECTORS ->
  0 <= priority <= NVIC_SYSH_PRIORITY_MIN ->
  NVIC_SYSH_PRIORITY_MIN < 256 ->
  is_uint32 (regs s (priority_reg irq)) ->
  fst (up_prioritize_irq irq priority s) = Ret OK /\
  byte_of (regs (snd (up_prioritize_irq irq priority s)) (priority_reg irq))
    (priority_lane irq) = priority /\
  (forall j, 0 <= j < 4 -> j <> priority_lane irq ->
     byte_of (regs (snd (up_prioritize_irq irq priority s)) (priority_reg irq)) j =
     byte_of (regs s (priority_reg irq)) j) /\
  (forall a, a <> priority_reg irq ->
     regs (snd (up_prioritize_irq irq priority s)) a = regs s a) /\
  accesses (snd (up_prioritize_irq irq priority s)) =
    accesses s ++
    [RegRead (priority_reg irq);
     RegWrite (priority_reg irq)
       (regs (snd (up_prioritize_irq irq priority s)) (priority_reg irq))].
Proof.
  intros Hirq Hp Hmin Hv.
  rewrite (up_prioritize_irq_run irq priority s Hirq Hp Hmin).
  cbn [fst snd putreg32 getreg32 regs accesses].
  rewrite !fn_lookup_insert.
  assert (Hk : 0 <= priority_lane irq < 4).
  { unfold priority_lane. destruct (irq <? EFM32_IRQ_INTERRUPTS);
      apply Z.mod_pos_bound; lia. }
  destruct (set_priority_byte_lanes (regs s (priority_reg irq)) priority
              (priority_lane irq) Hv ltac:(lia) Hk) as (Hb & Hothers & _).
  split; [done|]. split; [exact Hb|]. split; [exact Hothers|].
  split; [intros a Ha; by rewrite fn_lookup_insert_ne|].
  by rewrite <- app_assoc.
Qed.

End Efm32Priority.

(** External interrupt 2 (number 18) gets priority 0x40: the third byte of
    the first priority register changes, the others keep 0x80. *)
Lemma up_prioritize_irq_sets_one_byte_witness :
  regs (snd (@up_prioritize_irq (chip_armv7m false) 18 0x40
               (putreg32 0x80808080 0xe000e400 nvic_zero))) 0xe000e400 =
    0x80408080 /\
  byte_of (regs (snd (@up_prioritize_irq (chip_armv7m false) 18 0x40
                        (putreg32 0x80808080 0xe000e400 nvic_zero)))
             0xe000e400) 2 = 0x40.
Proof.
  split.
  - vm_compute. reflexivity.
  - refine (proj1 (proj2 (@up_prioritize_irq_sets_one_byte (chip_armv7m false)
                            18 0x40 (putreg32 0x80808080 0xe000e400 nvic_zero)
                            _ _ _ _))).
    + cbn. lia.
    + cbn. lia.
    + cbn. lia.
    + vm_compute. split; [discriminate|reflexivity].
Defined.

Section Efm32DefaultPriority.
Context `{chip : Chip}.

(** Bit [b] of [DEFPRIORITY32] is bit [b mod 8] of the default priority. *)
Lemma DEFPRIORITY32_bits b :
  0 <= NVIC_SYSH_PRIORITY_DEFAULT < 256 -> 0 <= b ->
  Z.testbit DEFPRIORITY32 b =
    (b <? 32) && Z.testbit NVIC_SYSH_PRIORITY_DEFAULT (b mod 8).
Proof.
  intros Hd Hb. unfold DEFPRIORITY32.
  rewrite !Z.lor_spec, !Z.shiftl_spec by done.
  destruct (Z_lt_le_dec b 8) as [H8|H8];
    [|destruct (Z_lt_le_dec b 16) as [H16|H16];
      [|destruct (Z_lt_le_dec b 24) as [H24|H24];
        [|destruct (Z_lt_le_dec b 32) as [H32|H32]]]].
  - rewrite (Z.mod_small b 8) by lia.
    rewrite !(byte_high _ (b - _)) by (done || lia).
    by rewrite (proj2 (Z.ltb_lt b 32)) by lia.
  - replace (b mod 8) with (b - 8)
      by (apply (Z.mod_unique b 8 1); lia).
    rewrite (byte_high _ (b - 24)), (byte_high _ (b - 16)),
      (byte_high _ b) by (done || lia).
    rewrite (proj2 (Z.ltb_lt b 32)) by lia. cbn. by rewrite orb_false_r.
  - replace (b mod 8) with (b - 16)
      by (apply (Z.mod_unique b 8 2); lia).
    rewrite (byte_high _ (b - 24)), (byte_high _ (b - 8)),
      (byte_high _ b) by (done || lia).
    rewrite (proj2 (Z.ltb_lt b 32)) by lia. cbn. by rewrite !orb_false_r.
  - replace (b mod 8) with (b - 24)
      by (apply (Z.mod_unique b 8 3); lia).
    rewrite (byte_high _ (b - 16)), (byte_high _ (b - 8)),
      (byte_high _ b) by (done || lia).
    rewrite (proj2 (Z.ltb_lt b 32)) by lia. cbn. by rewrite !orb_false_r.
  - rewrite !(byte_high _ (b - _)), (byte_high _ b) by (done || lia).
    by rewrite (proj2 (Z.ltb_ge b 32)) by lia.
Qed.

(** X17.  With a default priority of one byte, [DEFPRIORITY32] is a 32-bit
    word that holds the default priority in each of its four bytes; so when
    a priority register holds [DEFPRIORITY32], giving an interrupt of that
    register the default priority with [up_prioritize_irq] writes the same
    word back. *)
Theorem DEFPRIORITY32_bytes (irq : Z) (s : nvic) :
  0 <= NVIC_SYSH_PRIORITY_DEFAULT <= NVIC_SYSH_PRIORITY_MIN ->
  NVIC_SYSH_PRIORITY_MIN < 256 ->
  is_uint32 DEFPRIORITY32 /\
  (forall j, 0 <= j < 4 -> byte_of DEFPRIORITY32 j = NVIC_SYSH_PRIORITY_DEFAULT) /\
  (EFM32_IRQ_MEMFAULT <= irq < NR_VECTORS ->
   regs s (priority_reg irq) = DEFPRIORITY32 ->
   regs (snd (up_prioritize_irq irq NVIC_SYSH_PRIORITY_DEFAULT s))
     (priority_reg irq) = DEFPRIORITY32).
Proof.
  intros Hd Hmin.
  assert (Hd' : 0 <= NVIC_SYSH_PRIORITY_DEFAULT < 256) by lia.
  assert (Hu : is_uint32 DEFPRIORITY32).
  { apply uint32_bits. intros b Hb. rewrite DEFPRIORITY32_bits by done.
    by destruct (b <? 32). }
  split; [exact Hu|]. split.
  - intros j Hj. apply Z.bits_inj'. intros i Hi.
    rewrite byte_of_bits, DEFPRIORITY32_bits by lia.
    destruct (Z.ltb_spec i 8) as [Hlt|Hge]; cbn [andb].
    + rewrite (proj2 (Z.ltb_lt (i + 8 * j) 32)) by lia. cbn [andb].
      f_equal. symmetry. apply (Z.mod_unique (i + 8 * j) 8 j); lia.
    + symmetry. apply byte_high; lia.
  - intros Hirq Hreg.
    rewrite (up_prioritize_irq_run irq _ s Hirq Hd Hmin).
    cbn [snd putreg32 getreg32 regs]. rewrite fn_lookup_insert, Hreg.
    assert (Hk : 0 <= priority_lane irq < 4).
    { unfold priority_lane. destruct (irq <? EFM32_IRQ_INTERRUPTS);
        apply Z.mod_pos_bound; lia. }
    apply Z.bits_inj'. intros b Hb.
    rewrite set_priority_byte_bits, DEFPRIORITY32_bits by (assumption || lia).
    destruct (Z.leb_spec (8 * priority_lane irq) b) as [Hlo|Hlo]; [|done].
    destruct (Z.ltb_spec b (8 * priority_lane irq + 8)) as [Hhi|Hhi]; [|done].
    cbn [andb]. rewrite (proj2 (Z.ltb_lt b 32)) by lia. cbn [andb].
    f_equal. apply (Z.mod_unique b 8 (priority_lane irq)); lia.
Qed.

End Efm32DefaultPriority.

Lemma DEFPRIORITY32_bytes_witness :
  @DEFPRIORITY32 (chip_armv7m false) = 0x80808080 /\
  byte_of (@DEFPRIORITY32 (chip_armv7m false)) 2 = 0x80.
Proof.
  split; [reflexivity|].
  refine (proj1 (proj2 (@DEFPRIORITY32_bytes (chip_armv7m false) 18 nvic_zero
                          _ _)) 2 _).
  - cbn. lia.
  - cbn. lia.
  - lia.
Defined.

(** ** [up_irqinitialize] *)

Lemma adds_refl P s : adds P s s.
Proof. exists []. split; [by rewrite app_nil_r|constructor]. Qed.

Lemma adds_trans P s1 s2 s3 : adds P s1 s2 -> adds P s2 s3 -> adds P s1 s3.
Proof.
  intros (l1 & H1 & F1) (l2 & H2 & F2). exists (l1 ++ l2).
  split; [by rewrite H2, H1, app_assoc|by apply Forall_app].
Qed.

Lemma adds_weaken (P Q : access -> Prop) s s' :
  (forall a, P a -> Q a) -> adds P s s' -> adds Q s s'.
Proof.
  intros HPQ (l & H & F). exists l. split; [done|].
  eapply Forall_impl; [exact F|exact HPQ].
Qed.

Lemma adds_In P s s' a : adds P s s' -> In a (accesses s) -> In a (accesses s').
Proof. intros (l & -> & _) Hin. apply in_or_app. by left. Qed.

Lemma adds_log P a s : P a -> adds P s (log a s).
Proof. intros Ha. exists [a]. split; [done|by repeat constructor]. Qed.

Lemma adds_putreg32 P v a s : P (RegWrite a v) -> adds P s (putreg32 v a s).
Proof. intros Ha. exists [RegWrite a v]. split; [done|by repeat constructor]. Qed.

Lemma adds_getreg32 P a s : P (RegRead a) -> adds P s (snd (getreg32 a s)).
Proof. intros Ha. exists [RegRead a]. split; [done|by repeat constructor]. Qed.

Lemma adds_when P c f s : (forall s, adds P s (f s)) -> adds P s (when c f s).
Proof. intros Hf. unfold when. destruct c; [apply Hf|apply adds_refl]. Qed.

Section Efm32InitProperties.
Context `{chip : Chip} `{boot : Boot}.

(** What the loops add. *)
Lemma adds_disable_all_loop P fuel : forall i s,
  (forall a v, P (RegWrite a v)) -> adds P s (disable_all_loop fuel i s).
Proof.
  induction fuel as [|fuel IH]; intros i s HP; cbn [disable_all_loop];
    [apply adds_refl|].
  destruct (i <? NR_VECTORS - EFM32_IRQ_INTERRUPTS); [|apply adds_refl].
  eapply adds_trans; [apply adds_putreg32, HP|by apply IH].
Qed.

Lemma adds_default_priority_loop P n : forall regaddr s,
  (forall a v, P (RegWrite a v)) -> adds P s (default_priority_loop n regaddr s).
Proof.
  induction n as [|n IH]; intros regaddr s HP; cbn [default_priority_loop];
    [apply adds_refl|].
  eapply adds_trans; [apply adds_putreg32, HP|by apply IH].
Qed.

Lemma adds_prioritize_syscall P priority s :
  (forall a, P (RegRead a)) -> (forall a v, P (RegWrite a v)) ->
  adds P s (efm32_prioritize_syscall priority s).
Proof.
  intros Hr Hw. unfold efm32_prioritize_syscall. cbn [getreg32].
  eapply adds_trans; [apply (adds_getreg32 P NVIC_SYSH8_11_PRIORITY), Hr|].
  apply adds_putreg32, Hw.
Qed.

Lemma adds_up_enable_irq P irq s :
  (forall a, P (RegRead a)) -> (forall a v, P (RegWrite a v)) ->
  (forall n, P (GpioIrqEnable n)) ->
  adds P s (snd (up_enable_irq irq s)).
Proof.
  intros Hr Hw Hg. unfold up_enable_irq.
  destruct (efm32_irqinfo irq 0 0 NVIC_ENA_OFFSET) as [[[r ra] b]| |];
    cbn [snd]; try apply adds_refl.
  destruct (r =? 0).
  - destruct (EFM32_IRQ_INTERRUPTS <=? irq); cbn [snd getreg32].
    + apply adds_putreg32, Hw.
    + eapply adds_trans; [apply (adds_getreg32 P ra), Hr|].
      apply adds_putreg32, Hw.
  - destruct CONFIG_EFM32_GPIO_IRQ; cbn [snd];
      [apply (adds_log P (GpioIrqEnable irq)), Hg|apply adds_refl].
Qed.

(** Every multiple of 32 below the number of external interrupts gets its
    CLEAR ENABLE register written. *)
Lemma disable_all_loop_covers fuel : forall i s j,
  i <= j < NR_VECTORS - EFM32_IRQ_INTERRUPTS ->
  (j - i) mod 32 = 0 ->
  (Z.to_nat (NR_VECTORS - EFM32_IRQ_INTERRUPTS - i) <= fuel)%nat ->
  In (RegWrite (NVIC_IRQ_CLEAR j) 0xffffffff)
     (accesses (disable_all_loop fuel i s)).
Proof.
  induction fuel as [|fuel IH]; intros i s j Hj Hmod Hfuel; [lia|].
  cbn [disable_all_loop].
  rewrite (proj2 (Z.ltb_lt i (NR_VECTORS - EFM32_IRQ_INTERRUPTS))) by lia.
  destruct (Z.eq_dec j i) as [->|Hne].
  - eapply (adds_In (fun _ => True)); [by apply adds_disable_all_loop|].
    cbn. apply in_or_app. right. by left.
  - assert (32 <= j - i).
    { pose proof (Z.div_mod (j - i) 32 ltac:(lia)) as Hd.
      rewrite Hmod in Hd.
      assert (0 < (j - i) / 32) by (apply Z.div_str_pos; lia || nia).
      nia. }
    apply IH; [lia| |lia].
    replace (j - (i + 32)) with (j - i + (-1) * 32) by lia.
    by rewrite Z.mod_add by lia.
Qed.

(** The [j]-th turn of the second loop writes the [j]-th register. *)
Lemma default_priority_loop_covers n : forall regaddr s j,
  (j < n)%nat ->
  In (RegWrite (wrap32 (regaddr + 4 * Z.of_nat j)) DEFPRIORITY32)
     (accesses (default_priority_loop n (wrap32 regaddr) s)).
Proof.
  induction n as [|n IH]; intros regaddr s j Hj; [lia|].
  cbn [default_priority_loop]. destruct j as [|j].
  - eapply (adds_In (fun _ => True)); [by apply adds_default_priority_loop|].
    cbn. apply in_or_app. right. left. do 2 f_equal. lia.
  - replace (wrap32 (wrap32 regaddr + 4)) with (wrap32 (regaddr + 4))
      by (unfold wrap32; by rewrite Zplus_mod_idemp_l).
    replace (regaddr + 4 * Z.of_nat (S j)) with (regaddr + 4 + 4 * Z.of_nat j)
      by lia.
    apply IH. lia.
Qed.

End Efm32InitProperties.

Lemma getreg32_eq a s : getreg32 a s = (regs s a, log (RegRead a) s).
Proof. reflexivity. Qed.

Lemma accesses_when_log c a s :
  accesses (when c (log a) s) = accesses s ++ (if c then [a] else []).
Proof. destruct c; cbn; [done|by rewrite app_nil_r]. Qed.

Section Efm32InitTheorems.
Context `{chip : Chip} `{boot : Boot}.

Ltac adds_steps start :=
  repeat lazymatch goal with
  | |- adds _ _ start => apply adds_refl
  | |- adds _ ?s (log ?a ?x) => apply (adds_trans _ s x); [|apply adds_log]
  | |- adds _ ?s (putreg32 ?v ?a ?x) =>
      apply (adds_trans _ s x); [|apply adds_putreg32]
  | |- adds _ ?s (when ?c ?f ?x) =>
      apply (adds_trans _ s x); [|apply adds_when; intros]
  | |- adds _ ?s (efm32_prioritize_syscall ?p ?x) =>
      apply (adds_trans _ s x); [|apply adds_prioritize_syscall; intros]
  | |- adds _ ?s (default_priority_loop ?n ?a ?x) =>
      apply (adds_trans _ s x); [|apply adds_default_priority_loop; intros]
  | |- adds _ ?s (disable_all_loop ?n ?a ?x) =>
      apply (adds_trans _ s x); [|apply adds_disable_all_loop; intros]
  | |- adds _ ?s (snd (up_enable_irq ?a ?x)) =>
      apply (adds_trans _ s x); [|apply adds_up_enable_irq; intros]
  | |- adds _ ?s ?s' => is_var s'; apply adds_refl
  end.

(** An interrupt that passes the assertion of [efm32_irqinfo] is enabled
    without failing. *)
Lemma up_enable_irq_returns irq s :
  EFM32_IRQ_NMI <= irq < NR_IRQS -> fst (up_enable_irq irq s) = Ret tt.
Proof.
  intros Hirq. unfold up_enable_irq, efm32_irqinfo.
  rewrite (proj2 (Z.leb_le EFM32_IRQ_NMI irq)) by lia.
  rewrite (proj2 (Z.ltb_lt irq NR_IRQS)) by lia. cbn [andb negb].
  repeat match goal with
         | |- context [if ?b then _ else _] => destruct b
         end; reflexivity.
Qed.

(** Enabling the memory management fault sets its bit of SYSHCON. *)
Lemma up_enable_irq_memfault s :
  chip_ok ->
  up_enable_irq EFM32_IRQ_MEMFAULT s =
    (Ret tt,
     putreg32 (Z.lor (regs s NVIC_SYSHCON) NVIC_SYSHCON_MEMFAULTENA)
       NVIC_SYSHCON (log (RegRead NVIC_SYSHCON) s)).
Proof.
  intros (H1 & H2 & H3 & H4 & H5 & H6 & H7).
  unfold up_enable_irq, efm32_irqinfo.
  rewrite (proj2 (Z.leb_le EFM32_IRQ_NMI EFM32_IRQ_MEMFAULT)) by lia.
  rewrite (proj2 (Z.ltb_lt EFM32_IRQ_MEMFAULT NR_IRQS)) by lia.
  cbn [andb negb].
  rewrite (proj2 (Z.leb_gt EFM32_IRQ_INTERRUPTS EFM32_IRQ_MEMFAULT)) by lia.
  rewrite Z.eqb_refl. reflexivity.
Qed.

(** The steps of [up_irqinitialize]: the first loop, the vector table and
    the priorities of the system handlers, the second loop, then handlers
    and options, and at the end the enabling of the interrupts. *)
Lemma up_irqinitialize_phases s :
  let s1 := disable_all_loop
              (Z.to_nat (NR_VECTORS - EFM32_IRQ_INTERRUPTS)) 0 s in
  let s2 :=
    putreg32 DEFPRIORITY32 NVIC_SYSH12_15_PRIORITY
      (putreg32 DEFPRIORITY32 NVIC_SYSH8_11_PRIORITY
         (putreg32 DEFPRIORITY32 NVIC_SYSH4_7_PRIORITY
            (when CONFIG_ARCH_RAMVECTORS (log RamvecInitialize)
               (putreg32 vectors NVIC_VECTAB
                  (when CONFIG_STACK_COLORATION (log StackColor) s1))))) in
  let s3 :=
    default_priority_loop
      (Z.to_nat (wrap32 ((regs s2 NVIC_ICTR + 1) * 8)))
      (wrap32 NVIC_IRQ0_3_PRIORITY) (log (RegRead NVIC_ICTR) s2) in
  exists s4, adds is_setup s3 s4 /\
    ((snd (up_irqinitialize s) = s4 /\
      exists s', fst (up_irqinitialize s) =
                   fst (up_enable_irq EFM32_IRQ_MEMFAULT s') /\
                 fst (up_irqinitialize s) <> Ret tt) \/
     (snd (up_irqinitialize s) =
        when (negb CONFIG_SUPPRESS_INTERRUPTS) enable_interrupts s4 /\
      fst (up_irqinitialize s) = Ret tt)).
Proof.
  intros s1 s2 s3. unfold up_irqinitialize. rewrite getreg32_eq.
  cbv beta iota zeta. fold s1. fold s2. fold s3.
  destruct CONFIG_ARM_MPU.
  - match goal with
    | |- context [up_enable_irq EFM32_IRQ_MEMFAULT ?x] => set (s' := x)
    end.
    assert (Hs' : adds is_setup s3 (snd (up_enable_irq EFM32_IRQ_MEMFAULT s'))).
    { unfold s'. adds_steps s3; unfold is_setup; discriminate. }
    destruct (up_enable_irq EFM32_IRQ_MEMFAULT s') as [[[]| |] s0] eqn:E;
      cbn [fst snd] in *.
    + eexists. split; [|right; split; reflexivity].
      eapply adds_trans; [exact Hs'|].
      adds_steps s0; unfold is_setup; discriminate.
    + exists s0. split; [done|]. left. split; [done|].
      exists s'. rewrite E. done.
    + exists s0. split; [done|]. left. split; [done|].
      exists s'. rewrite E. done.
  - eexists. split; [|right; split; reflexivity].
    adds_steps s3; unfold is_setup; discriminate.
Qed.

(** The accesses of the two loops stay in the record. *)
Lemma up_irqinitialize_keeps_loops s :
  let s1 := disable_all_loop
              (Z.to_nat (NR_VECTORS - EFM32_IRQ_INTERRUPTS)) 0 s in
  let s2 :=
    putreg32 DEFPRIORITY32 NVIC_SYSH12_15_PRIORITY
      (putreg32 DEFPRIORITY32 NVIC_SYSH8_11_PRIORITY
         (putreg32 DEFPRIORITY32 NVIC_SYSH4_7_PRIORITY
            (when CONFIG_ARCH_RAMVECTORS (log RamvecInitialize)
               (putreg32 vectors NVIC_VECTAB
                  (when CONFIG_STACK_COLORATION (log StackColor) s1))))) in
  let s3 :=
    default_priority_loop
      (Z.to_nat (wrap32 ((regs s2 NVIC_ICTR + 1) * 8)))
      (wrap32 NVIC_IRQ0_3_PRIORITY) (log (RegRead NVIC_ICTR) s2) in
  adds (fun _ => True) s1 s2 /\ adds (fun _ => True) s2 s3 /\
  adds (fun _ => True) s3 (snd (up_irqinitialize s)).
Proof.
  intros s1 s2 s3. split; [|split].
  - unfold s2. adds_steps s1; done.
  - unfold s3. adds_steps s2; done.
  - destruct (up_irqinitialize_phases s) as (s4 & H34 & [[-> _]|[-> _]]);
      fold s1 s2 s3 in H34.
    + by apply (adds_weaken is_setup).
    + eapply adds_trans; [by apply (adds_weaken is_setup (fun _ => True))|].
      apply adds_when. intros s0. unfold enable_interrupts.
      adds_steps s0; done.
Qed.

(** X18.  [up_irqinitialize] disables every external interrupt: for each of
    them it writes all ones to the CLEAR ENABLE register of its group of
    32. *)
Theorem up_irqinitialize_disables_all (s : nvic) (n : Z) :
  0 <= n < NR_VECTORS - EFM32_IRQ_INTERRUPTS ->
  In (RegWrite (NVIC_IRQ_CLEAR (32 * (n / 32))) 0xffffffff)
     (accesses (snd (up_irqinitialize s))).
Proof.
  intros Hn.
  destruct (up_irqinitialize_keeps_loops s) as (H12 & H23 & H3).
  eapply adds_In; [exact H3|]. eapply adds_In; [exact H23|].
  eapply adds_In; [exact H12|].
  pose proof (Z.mul_div_le n 32 ltac:(lia)).
  assert (0 <= n / 32) by (apply Z.div_pos; lia).
  apply disable_all_loop_covers; [lia| |lia].
  rewrite Z.sub_0_r, Z.mul_comm. by apply Z.mod_mul.
Qed.

(** Registers that the loops do not write are as they were. *)
Lemma regs_disable_all_loop a fuel : forall i s,
  0 <= i -> (forall k, 0 <= k -> NVIC_IRQ_CLEAR k <> a) ->
  regs (disable_all_loop fuel i s) a = regs s a.
Proof.
  induction fuel as [|fuel IH]; intros i s Hi Ha; cbn [disable_all_loop];
    [done|].
  destruct (i <? NR_VECTORS - EFM32_IRQ_INTERRUPTS); [|done].
  rewrite IH by (assumption || lia). cbn [putreg32 regs].
  apply fn_lookup_insert_ne. by apply Ha.
Qed.

Lemma regs_when_log c a s : regs (when c (log a) s) = regs s.
Proof. by destruct c. Qed.

(** X19.  [up_irqinitialize] gives every interrupt the default priority:
    the three priority registers of the system handlers are written with
    [DEFPRIORITY32], and so are the eight priority registers of each group
    of 32 interrupt lines that the ICTR register announces, from
    [NVIC_IRQ0_3_PRIORITY] upwards, provided ICTR is none of the registers
    written before it is read. *)
Theorem up_irqinitialize_default_priorities (s : nvic) (j : Z) :
  (forall k, 0 <= k -> NVIC_IRQ_CLEAR k <> NVIC_ICTR) ->
  NVIC_VECTAB <> NVIC_ICTR ->
  NVIC_SYSH4_7_PRIORITY <> NVIC_ICTR ->
  NVIC_SYSH8_11_PRIORITY <> NVIC_ICTR ->
  NVIC_SYSH12_15_PRIORITY <> NVIC_ICTR ->
  0 <= regs s NVIC_ICTR ->
  (regs s NVIC_ICTR + 1) * 8 < 2 ^ 31 ->
  0 <= j < (regs s NVIC_ICTR + 1) * 8 ->
  In (RegWrite NVIC_SYSH4_7_PRIORITY DEFPRIORITY32)
     (accesses (snd (up_irqinitialize s))) /\
  In (RegWrite NVIC_SYSH8_11_PRIORITY DEFPRIORITY32)
     (accesses (snd (up_irqinitialize s))) /\
  In (RegWrite NVIC_SYSH12_15_PRIORITY DEFPRIORITY32)
     (accesses (snd (up_irqinitialize s))) /\
  In (RegWrite (wrap32 (NVIC_IRQ0_3_PRIORITY + 4 * j)) DEFPRIORITY32)
     (accesses (snd (up_irqinitialize s))).
Proof.
  intros Hclear Hvectab H47 H811 H1215 Hv0 Hv Hj.
  destruct (up_irqinitialize_keeps_loops s) as (_ & H23 & H3).
  cbv zeta in H23, H3.
  set (s1 := disable_all_loop _ 0 s) in *.
  set (s2 := putreg32 DEFPRIORITY32 NVIC_SYSH12_15_PRIORITY _) in *.
  assert (Hictr : regs s2 NVIC_ICTR = regs s NVIC_ICTR).
  { unfold s2. cbn [putreg32 regs].
    rewrite !fn_lookup_insert_ne by done. rewrite regs_when_log.
    cbn [putreg32 regs]. rewrite fn_lookup_insert_ne by done.
    rewrite regs_when_log. by apply regs_disable_all_loop. }
  rewrite Hictr in *.
  repeat split.
  - eapply adds_In; [exact H3|]. eapply adds_In; [exact H23|].
    unfold s2. cbn [putreg32 accesses]. rewrite !in_app_iff. cbn. tauto.
  - eapply adds_In; [exact H3|]. eapply adds_In; [exact H23|].
    unfold s2. cbn [putreg32 accesses]. rewrite !in_app_iff. cbn. tauto.
  - eapply adds_In; [exact H3|]. eapply adds_In; [exact H23|].
    unfold s2. cbn [putreg32 accesses]. rewrite !in_app_iff. cbn. tauto.
  - eapply adds_In; [exact H3|].
    replace j with (Z.of_nat (Z.to_nat j)) by lia.
    apply default_priority_loop_covers.
    rewrite wrap32_small by (unfold is_uint32; lia). lia.
Qed.

(** X20.  When its one assertion holds [up_irqinitialize] returns, and it
    enables the interrupts of the processor as its very last step and not
    before; with CONFIG_SUPPRESS_INTERRUPTS it never enables them.  The
    second level of GPIO interrupts, if configured, is initialised just
    before that. *)
Theorem up_irqinitialize_enables_last (s : nvic) :
  chip_ok ->
  fst (up_irqinitialize s) = Ret tt /\
  exists l,
    Forall is_setup l /\
    accesses (snd (up_irqinitialize s)) =
      accesses s ++ l ++
      (if CONFIG_SUPPRESS_INTERRUPTS then []
       else (if CONFIG_EFM32_GPIO_IRQ then [GpioIrqInitialize] else []) ++
            [IrqEnableAll]).
Proof.
  intros Hok.
  destruct (up_irqinitialize_phases s) as (s4 & H34 & Hend).
  cbv zeta in H34.
  destruct Hend as [(_ & s' & Hfst & Hne)|[Hsnd Hfst]].
  - exfalso. apply Hne. rewrite Hfst. apply up_enable_irq_returns.
    destruct Hok as (H1 & H2 & H3 & H4 & H5 & H6 & H7). lia.
  - split; [done|].
    assert (H4 : adds is_setup s s4).
    { eapply adds_trans; [|exact H34].
      adds_steps s; unfold is_setup; discriminate. }
    destruct H4 as (l & Hl & Fl). exists l. split; [done|].
    rewrite Hsnd. unfold when, enable_interrupts.
    destruct CONFIG_SUPPRESS_INTERRUPTS; cbn [negb].
    + by rewrite Hl, app_nil_r.
    + cbn [log accesses]. rewrite accesses_when_log, Hl.
      by rewrite <- !app_assoc.
Qed.

(** X21.  With the MPU configured, the memory management fault is enabled
    when [up_irqinitialize] is done: its bit of SYSHCON is set. *)
Theorem up_irqinitialize_enables_memfault (s : nvic) :
  chip_ok ->
  CONFIG_ARM_MPU = true ->
  Z.land (regs (snd (up_irqinitialize s)) NVIC_SYSHCON)
    NVIC_SYSHCON_MEMFAULTENA = NVIC_SYSHCON_MEMFAULTENA /\
  In (IrqAttach EFM32_IRQ_MEMFAULT up_memfault)
     (accesses (snd (up_irqinitialize s))).
Proof.
  intros Hok Hmpu. unfold up_irqinitialize. rewrite getreg32_eq.
  cbv beta iota zeta. rewrite Hmpu. rewrite up_enable_irq_memfault by done.
  cbn [snd negb].
  match goal with
  | |- context [putreg32 ?v NVIC_SYSHCON ?x] =>
      set (val := v); set (s' := x)
  end.
  split.
  - assert (Hregs : forall c1 c2 f1 f2 (x : nvic),
      (forall y, regs (f1 y) = regs y) -> (forall y, regs (f2 y) = regs y) ->
      regs (when c1 f1 (when c2 f2 x)) = regs x).
    { intros c1 c2 f1 f2 x Hf1 Hf2. unfold when.
      destruct c1, c2; rewrite ?Hf1, ?Hf2; done. }
    rewrite Hregs; [|intros y; by destruct CONFIG_EFM32_GPIO_IRQ|done].
    cbn [putreg32 regs]. rewrite fn_lookup_insert. unfold val.
    apply Z.bits_inj'. intros i Hi.
    rewrite Z.land_spec, Z.lor_spec.
    destruct (Z.testbit NVIC_SYSHCON_MEMFAULTENA i);
      by rewrite ?orb_true_r, ?andb_false_r.
  - eapply (adds_In (fun _ => True) s').
    + match goal with |- adds _ _ (when ?c ?f (when ?c' ?f' ?x)) =>
        apply (adds_trans _ _ (when c' f' x));
          [apply (adds_trans _ _ x)|]
      end.
      * by apply adds_putreg32.
      * apply adds_when. intros y. adds_steps y; done.
      * apply adds_when. intros y. adds_steps y; done.
    + unfold s'. cbn [log accesses]. rewrite !in_app_iff. cbn. tauto.
Qed.

(** X22.  [efm32_prioritize_syscall] reads the priority register of system
    handlers 8 to 11 once and writes it once; with the mask and the shift
    of handler 11 as the Cortex-M headers have them, the byte of the SVCall
    gets the new priority and the three other bytes and all other registers
    are as they were. *)
Theorem efm32_prioritize_syscall_sets_svcall_byte (priority : Z) (s : nvic) :
  NVIC_SYSH_PRIORITY_PR11_SHIFT = 24 ->
  NVIC_SYSH_PRIORITY_PR11_MASK = Z.shiftl 255 24 ->
  0 <= priority < 256 ->
  is_uint32 (regs s NVIC_SYSH8_11_PRIORITY) ->
  let s' := efm32_prioritize_syscall priority s in
  byte_of (regs s' NVIC_SYSH8_11_PRIORITY) 3 = priority /\
  (forall j, 0 <= j < 3 ->
     byte_of (regs s' NVIC_SYSH8_11_PRIORITY) j =
     byte_of (regs s NVIC_SYSH8_11_PRIORITY) j) /\
  (forall a, a <> NVIC_SYSH8_11_PRIORITY -> regs s' a = regs s a) /\
  accesses s' =
    accesses s ++
    [RegRead NVIC_SYSH8_11_PRIORITY;
     RegWrite NVIC_SYSH8_11_PRIORITY (regs s' NVIC_SYSH8_11_PRIORITY)].
Proof.
  intros Hshift Hmask Hp Hv s'.
  assert (Hs' : s' =
    putreg32 (set_priority_byte (regs s NVIC_SYSH8_11_PRIORITY) priority (8 * 3))
      NVIC_SYSH8_11_PRIORITY (log (RegRead NVIC_SYSH8_11_PRIORITY) s)).
  { unfold s', efm32_prioritize_syscall. rewrite getreg32_eq.
    cbv beta iota zeta. by rewrite Hshift, Hmask. }
  rewrite Hs'. cbn [putreg32 log regs accesses].
  rewrite fn_lookup_insert.
  destruct (set_priority_byte_lanes (regs s NVIC_SYSH8_11_PRIORITY) priority 3
              Hv Hp ltac:(lia)) as (Hb & Hothers & _).
  split; [exact Hb|]. split; [|split].
  - intros j Hj. apply Hothers; lia.
  - intros a Ha. by apply fn_lookup_insert_ne.
  - by rewrite <- app_assoc.
Qed.

End Efm32InitTheorems.

(** With 38 external interrupts the last one, number 37, is in the second
    group of 32. *)
Lemma up_irqinitialize_disables_all_witness :
  In (RegWrite 0xe000e184 0xffffffff)
     (accesses (snd (@up_irqinitialize (chip_armv7m true) (boot_armv7m true)
                       nvic_zero))).
Proof.
  apply (@up_irqinitialize_disables_all (chip_armv7m true) (boot_armv7m true)
           nvic_zero 37).
  vm_compute. split; [discriminate|reflexivity].
Defined.

(** ICTR reads 0: 32 interrupt lines, eight priority registers, the last of
    them at offset 28. *)
Lemma up_irqinitialize_default_priorities_witness :
  In (RegWrite 0xe000ed18 0x80808080)
     (accesses (snd (@up_irqinitialize (chip_armv7m true) (boot_armv7m true)
                       nvic_zero))) /\
  In (RegWrite 0xe000ed1c 0x80808080)
     (accesses (snd (@up_irqinitialize (chip_armv7m true) (boot_armv7m true)
                       nvic_zero))) /\
  In (RegWrite 0xe000ed20 0x80808080)
     (accesses (snd (@up_irqinitialize (chip_armv7m true) (boot_armv7m true)
                       nvic_zero))) /\
  In (RegWrite 0xe000e41c 0x80808080)
     (accesses (snd (@up_irqinitialize (chip_armv7m true) (boot_armv7m true)
                       nvic_zero))).
Proof.
  apply (@up_irqinitialize_default_priorities
           (chip_armv7m true) (boot_armv7m true) nvic_zero 7).
  - intros k Hk. change (0xe000e180 + 4 * Z.shiftr k 5 <> 0xe000e004).
    pose proof (proj2 (Z.shiftr_nonneg k 5) Hk). lia.
  - discriminate.
  - discriminate.
  - discriminate.
  - discriminate.
  - apply Z.leb_le. reflexivity.
  - reflexivity.
  - vm_compute. split; [discriminate|reflexivity].
Defined.

(** All options on, interrupts not suppressed. *)
Lemma up_irqinitialize_enables_last_witness :
  fst (@up_irqinitialize (chip_armv7m true) (boot_armv7m true) nvic_zero) =
    Ret tt /\
  exists l,
    Forall is_setup l /\
    accesses (snd (@up_irqinitialize (chip_armv7m true) (boot_armv7m true)
                     nvic_zero)) =
      [] ++ l ++ [GpioIrqInitialize; IrqEnableAll].
Proof.
  apply (@up_irqinitialize_enables_last (chip_armv7m true) (boot_armv7m true)
           nvic_zero).
  apply chip_armv7m_ok.
Defined.

Lemma up_irqinitialize_enables_memfault_witness :
  Z.land (regs (snd (@up_irqinitialize (chip_armv7m true) (boot_armv7m true)
                       nvic_zero)) 0xe000ed24) (Z.shiftl 1 16) =
    Z.shiftl 1 16 /\
  In (IrqAttach 4 up_memfault)
     (accesses (snd (@up_irqinitialize (chip_armv7m true) (boot_armv7m true)
                       nvic_zero))).
Proof.
  apply (@up_irqinitialize_enables_memfault
           (chip_armv7m true) (boot_armv7m true) nvic_zero).
  - apply chip_armv7m_ok.
  - reflexivity.
Defined.

(** The SVCall gets priority 0x70 in a register that holds the default
    priorities. *)
Lemma efm32_prioritize_syscall_sets_svcall_byte_witness :
  regs (@efm32_prioritize_syscall (boot_armv7m true) 0x70
          (putreg32 0x80808080 0xe000ed1c nvic_zero)) 0xe000ed1c =
    0x70808080 /\
  byte_of (regs (@efm32_prioritize_syscall (boot_armv7m true) 0x70
                   (putreg32 0x80808080 0xe000ed1c nvic_zero)) 0xe000ed1c) 3 =
    0x70.
Proof.
  split; [vm_compute; reflexivity|].
  apply (@efm32_prioritize_syscall_sets_svcall_byte (boot_armv7m true) 0x70
           (putreg32 0x80808080 0xe000ed1c nvic_zero)).
  - reflexivity.
  - reflexivity.
  - vm_compute. split; [discriminate|reflexivity].
  - vm_compute. split; [discriminate|reflexivity].
Defined.
